(** * go-icu-regex: the [replace] entry point of internal/icu/file.cpp

    A shallow embedding of [appendHead], [tryToAppendReplacement],
    [appendReplacement], [tryToAppendTail], [appendTail] and [replace],
    over an abstract ICU matcher handle.  The functions share the locals
    of [replace] by reference ([m_replace_buffer], [m_replace_buffer_pos],
    [m_error_code]); the model threads them through a small state monad
    whose outcomes also cover the ways the C++ code can stop short of a
    [return]. *)

From Stdlib Require Import ZArith String Ascii List Bool Lia.
Import ListNotations.
Local Open Scope Z_scope.

Set Implicit Arguments.

(** ** Integer types of the translation unit *)

(** Conversion of a value to [int] (32-bit two's complement). *)
Definition to_int (z : Z) : Z := (z + 2 ^ 31) mod 2 ^ 32 - 2 ^ 31.

(** Conversion of a value to [size_t] (64-bit unsigned). *)
Definition to_size_t (z : Z) : Z := z mod 2 ^ 64.

Definition INT_MAX : Z := 2 ^ 31 - 1.

(** [UChar] is ICU's UTF-16 code unit. *)
Definition UChar : Type := Z.

Definition sizeof_UChar : Z := 2.

(** [sizeof(UChar* )] on the 64-bit targets the cgo directives name. *)
Definition sizeof_UChar_ptr : Z := 8.

(** ** [UErrorCode] (values of unicode/utypes.h) *)

Definition UErrorCode : Type := Z.

Definition U_ZERO_ERROR : UErrorCode := 0.
Definition U_STRING_NOT_TERMINATED_WARNING : UErrorCode := -124.
Definition U_ILLEGAL_ARGUMENT_ERROR : UErrorCode := 1.
Definition U_INDEX_OUTOFBOUNDS_ERROR : UErrorCode := 8.
Definition U_BUFFER_OVERFLOW_ERROR : UErrorCode := 15.
Definition U_REGEX_INVALID_STATE : UErrorCode := 66306.

Definition U_SUCCESS (x : UErrorCode) : bool := x <=? U_ZERO_ERROR.
Definition U_FAILURE (x : UErrorCode) : bool := U_ZERO_ERROR <? x.

(** ** [std::u16string] *)

Definition u16string : Type := list UChar.

Definition size (b : u16string) : Z := Z.of_nat (length b).

Definition empty (b : u16string) : bool :=
  match b with [] => true | _ :: _ => false end.

(** [max_size()] of libstdc++'s [std::u16string].  Only its position
    between [INT_MAX] and [2^64 - 2^31] matters here: every argument of
    [resize] in this file starts out as an [int], and a negative [int]
    converted to [size_t] lies above it. *)
Definition max_size : Z := 2 ^ 61 - 1.

(** [b.resize(n)] for [n <= max_size()]: truncate, or pad with
    [char16_t()]. *)
Definition resized (b : u16string) (n : Z) : u16string :=
  firstn (Z.to_nat n) b ++ repeat 0 (Z.to_nat n - length b).

(** Units [w] stored over [b] from index [pos] on. *)
Definition overwrite (b : u16string) (pos : nat) (w : list UChar) : u16string :=
  firstn pos b ++ w ++ skipn (pos + length w) b.

(** The UTF-16 units of an ASCII literal, for examples. *)
Fixpoint utf16 (s : string) : u16string :=
  match s with
  | EmptyString => []
  | String c s' => Z.of_N (N_of_ascii c) :: utf16 s'
  end.

(** ** The matcher handle

    [URegularExpression*] is ICU's; the translation unit only calls it.
    Each entry point is taken as a function of the handle's state and of
    the [UErrorCode] passed by pointer, returning its result, the new
    state and the new code.  The two append entry points receive
    [destCapacity] and return, besides their [int32_t] result, the units
    they stored through [destBuf]. *)
Class Matcher (M : Type) : Type := {
  uregex_find : M -> Z -> UErrorCode -> bool * M * UErrorCode;
  uregex_findNext : M -> UErrorCode -> bool * M * UErrorCode;
  uregex_end : M -> Z -> UErrorCode -> Z * M * UErrorCode;
  uregex_getText : M -> UErrorCode -> list UChar * M * UErrorCode;
  uregex_appendReplacement :
    M -> list UChar -> Z -> Z -> UErrorCode -> (Z * list UChar) * M * UErrorCode;
  uregex_appendTail :
    M -> Z -> UErrorCode -> (Z * list UChar) * M * UErrorCode
}.

(** ** Calls made during one [replace]

    The trace is ghost state: the code never reads it.  It records, in
    order, the calls into the matcher with what they returned, the entry
    into each helper of this file, and the buffer and allocator calls. *)
Inductive call : Type :=
| uregex_find_call (startIndex : Z) (found : bool) (status : UErrorCode)
| uregex_findNext_call (found : bool) (status : UErrorCode)
| uregex_end_call (result : Z) (status : UErrorCode)
| uregex_getText_call (status : UErrorCode)
| uregex_appendReplacement_call
    (capacity : Z) (status_in : UErrorCode) (result : Z) (status : UErrorCode)
| uregex_appendTail_call
    (capacity : Z) (status_in : UErrorCode) (result : Z) (status : UErrorCode)
| appendHead_call (size : Z)
| appendReplacement_call
| appendTail_call
| resize_call (n : Z)
| malloc_call (bytes : Z)
| memcpy_call (bytes : Z).

(** Ways the C++ code stops without returning. *)
Inductive abnormal : Type :=
| length_error        (* thrown by [resize] above [max_size()] *)
| read_past_text      (* [std::copy] reading beyond the matcher's text *)
| write_past_buffer.  (* the matcher storing outside [m_replace_buffer] *)

(** What [replace] hands back: the [original] pointer itself, or the
    block it obtained from [malloc] and filled with [memcpy]. *)
Inductive returned : Type :=
| Unchanged (original : list UChar)
| Fresh (returnStr : u16string) (allocated copied : Z).

Section Replace.

Context {M : Type} {matcher : Matcher M}.

(** The locals of [replace] that its helpers take by reference. *)
Record frame : Type := Frame {
  m_re : M;
  m_error_code : UErrorCode;
  m_replace_buffer : u16string;
  m_replace_buffer_pos : Z;
  trace : list call
}.

Inductive outcome (A : Type) : Type :=
| Return (a : A) (f : frame)
| Abort (x : abnormal) (f : frame)
| OutOfFuel.
Arguments Abort {A} x f.
Arguments OutOfFuel {A}.

Definition cmd (A : Type) : Type := frame -> outcome A.

Definition ret {A : Type} (a : A) : cmd A := fun f => Return a f.

Definition bind {A B : Type} (c : cmd A) (k : A -> cmd B) : cmd B :=
  fun f =>
    match c f with
    | Return a f' => k a f'
    | Abort x f' => Abort x f'
    | OutOfFuel => OutOfFuel
    end.

Notation "x <- c ;; k" := (bind c (fun x => k))
  (at level 61, c at next level, right associativity).
Notation "c ;;; k" := (bind c (fun _ => k))
  (at level 61, right associativity).

Definition log (c : call) (f : frame) : frame :=
  Frame (m_re f) (m_error_code f) (m_replace_buffer f)
        (m_replace_buffer_pos f) (trace f ++ [c]).

Definition note (c : call) : cmd unit := fun f => Return tt (log c f).

Definition get_error_code : cmd UErrorCode := fun f => Return (m_error_code f) f.
Definition get_buffer : cmd u16string := fun f => Return (m_replace_buffer f) f.
Definition get_pos : cmd Z := fun f => Return (m_replace_buffer_pos f) f.

Definition set_error_code (e : UErrorCode) : cmd unit :=
  fun f => Return tt (Frame (m_re f) e (m_replace_buffer f)
                            (m_replace_buffer_pos f) (trace f)).

Definition set_pos (p : Z) : cmd unit :=
  fun f => Return tt (Frame (m_re f) (m_error_code f) (m_replace_buffer f)
                            p (trace f)).

Definition set_buffer (b : u16string) : cmd unit :=
  fun f => Return tt (Frame (m_re f) (m_error_code f) b
                            (m_replace_buffer_pos f) (trace f)).

(** [m_replace_buffer.resize(n)], [n] a [size_t]. *)
Definition resize (n : Z) : cmd unit :=
  note (resize_call n) ;;;
  fun f =>
    if max_size <? n then Abort length_error f
    else set_buffer (resized (m_replace_buffer f) n) f.

(** [std::copy(text, text + size, &m_replace_buffer.at(0))]. *)
Definition std_copy (text : list UChar) (n : Z) : cmd unit :=
  fun f =>
    if size text <? n then Abort read_past_text f
    else if size (m_replace_buffer f) <? n then Abort write_past_buffer f
    else set_buffer (overwrite (m_replace_buffer f) 0 (firstn (Z.to_nat n) text)) f.

(** The units [w] a matcher call stored through
    [&m_replace_buffer.at(0) + m_replace_buffer_pos]. *)
Definition stored (w : list UChar) : cmd unit :=
  fun f =>
    match w with
    | [] => Return tt f
    | _ :: _ =>
        let p := m_replace_buffer_pos f in
        if (0 <=? p) && (p + size w <=? size (m_replace_buffer f))
        then set_buffer (overwrite (m_replace_buffer f) (Z.to_nat p) w) f
        else Abort write_past_buffer f
    end.

(** *** Calls into the matcher, with [m_re] and [&m_error_code] *)

Definition call_find (start : Z) : cmd bool :=
  fun f =>
    let '(r, m, e) := uregex_find (m_re f) start (m_error_code f) in
    Return r (Frame m e (m_replace_buffer f) (m_replace_buffer_pos f)
                    (trace f ++ [uregex_find_call start r e])).

Definition call_findNext : cmd bool :=
  fun f =>
    let '(r, m, e) := uregex_findNext (m_re f) (m_error_code f) in
    Return r (Frame m e (m_replace_buffer f) (m_replace_buffer_pos f)
                    (trace f ++ [uregex_findNext_call r e])).

Definition call_end (groupNum : Z) : cmd Z :=
  fun f =>
    let '(r, m, e) := uregex_end (m_re f) groupNum (m_error_code f) in
    Return r (Frame m e (m_replace_buffer f) (m_replace_buffer_pos f)
                    (trace f ++ [uregex_end_call r e])).

Definition call_getText : cmd (list UChar) :=
  fun f =>
    let '(r, m, e) := uregex_getText (m_re f) (m_error_code f) in
    Return r (Frame m e (m_replace_buffer f) (m_replace_buffer_pos f)
                    (trace f ++ [uregex_getText_call e])).

Definition call_appendReplacement
    (replacement : list UChar) (replacementLen capacity : Z) : cmd Z :=
  fun f =>
    let '((r, w), m, e) :=
      uregex_appendReplacement (m_re f) replacement replacementLen capacity
                               (m_error_code f) in
    (stored w ;;; ret r)
      (Frame m e (m_replace_buffer f) (m_replace_buffer_pos f)
             (trace f ++ [uregex_appendReplacement_call
                            capacity (m_error_code f) r e])).

Definition call_appendTail (capacity : Z) : cmd Z :=
  fun f =>
    let '((r, w), m, e) :=
      uregex_appendTail (m_re f) capacity (m_error_code f) in
    (stored w ;;; ret r)
      (Frame m e (m_replace_buffer f) (m_replace_buffer_pos f)
             (trace f ++ [uregex_appendTail_call
                            capacity (m_error_code f) r e])).

(** *** The helpers of file.cpp *)

Definition appendHead (size_ : Z) : cmd unit :=
  note (appendHead_call size_) ;;;
  if size_ =? 0 then ret tt else
  text <- call_getText ;;
  e <- get_error_code ;;
  if negb (e =? U_ZERO_ERROR) then ret tt else
  b <- get_buffer ;;
  (if size b <? size_ then resize size_ else ret tt) ;;;
  std_copy text size_ ;;;
  set_pos (to_int size_).

Definition tryToAppendReplacement
    (replacement : list UChar) (replacementLen : Z) : cmd Z :=
  b <- get_buffer ;;
  if empty b then ret 0 else
  pos <- get_pos ;;
  let capacity := to_int (to_size_t (size b - to_size_t pos)) in
  call_appendReplacement replacement replacementLen capacity.

Definition appendReplacement
    (replacement : list UChar) (replacementLen : Z) : cmd unit :=
  note appendReplacement_call ;;;
  replacement_size <- tryToAppendReplacement replacement replacementLen ;;
  e <- get_error_code ;;
  (if e =? U_BUFFER_OVERFLOW_ERROR then
     pos <- get_pos ;;
     let required_buffer_size := to_size_t (to_int (pos + replacement_size)) in
     resize required_buffer_size ;;;
     set_error_code U_ZERO_ERROR ;;;
     _ <- tryToAppendReplacement replacement replacementLen ;;
     ret tt
   else ret tt) ;;;
  pos <- get_pos ;;
  set_pos (to_int (pos + replacement_size)).

Definition tryToAppendTail : cmd Z :=
  b <- get_buffer ;;
  if empty b then ret 0 else
  pos <- get_pos ;;
  let capacity := to_int (to_size_t (size b - to_size_t pos)) in
  call_appendTail capacity.

Definition appendTail : cmd unit :=
  note appendTail_call ;;;
  tail_size <- tryToAppendTail ;;
  e <- get_error_code ;;
  (if e =? U_BUFFER_OVERFLOW_ERROR then
     pos <- get_pos ;;
     let required_buffer_size := to_size_t (to_int (pos + tail_size)) in
     resize required_buffer_size ;;;
     set_error_code U_ZERO_ERROR ;;;
     _ <- tryToAppendTail ;;
     ret tt
   else ret tt) ;;;
  pos <- get_pos ;;
  set_pos (to_int (pos + tail_size)).

(** *** [replace] *)

(** [for (int i = 1; i < occurrence && found; ++i)]: the recursion is on
    the number of values [i] still has to take below [occurrence]. *)
Fixpoint skip_loop (n : nat) (found : bool) (end_of_previous_match : Z)
  : cmd (bool * Z) :=
  match n with
  | O => ret (found, end_of_previous_match)
  | S n' =>
      if found then
        e <- call_end 0 ;;
        found' <- call_findNext ;;
        skip_loop n' found' e
      else ret (found, end_of_previous_match)
  end.

(** Lines 64 to 69: the first [uregex_find] and the skip loop. *)
Definition search (start occurrence : Z) : cmd (bool * Z) :=
  found <- call_find start ;;
  skip_loop (Z.to_nat (occurrence - 1)) found 0.

(** [do { appendReplacement(...); } while (occurrence == 0 &&
    uregex_findNext(...))], one unit of fuel per iteration. *)
Fixpoint replace_loop (fuel : nat) (occurrence : Z)
    (replacement : list UChar) (replacementLen : Z) : cmd unit :=
  match fuel with
  | O => fun _ => OutOfFuel
  | S fuel' =>
      appendReplacement replacement replacementLen ;;;
      if occurrence =? 0 then
        more <- call_findNext ;;
        if more then replace_loop fuel' occurrence replacement replacementLen
        else ret tt
      else ret tt
  end.

(** Lines 79 to 83. *)
Definition finalize : cmd (returned * Z) :=
  pos <- get_pos ;;
  resize (to_size_t pos) ;;;
  b <- get_buffer ;;
  note (malloc_call (size b * sizeof_UChar_ptr)) ;;;
  note (memcpy_call (size b * sizeof_UChar_ptr)) ;;;
  ret (Fresh b (size b * sizeof_UChar_ptr) (size b * sizeof_UChar_ptr),
       to_int (size b)).

(** Lines 71 to 83, entered when the original is not returned. *)
Definition build (fuel : nat) (replacement : list UChar) (replacementLen : Z)
    (originalSize start occurrence : Z) (found : bool)
    (end_of_previous_match : Z) : cmd (returned * Z) :=
  resize (to_size_t originalSize) ;;;
  appendHead (to_size_t (Z.max end_of_previous_match start)) ;;;
  (if found then replace_loop fuel occurrence replacement replacementLen
   else ret tt) ;;;
  appendTail ;;;
  finalize.

Definition replace_body (fuel : nat) (replacement : list UChar)
    (replacementLen : Z) (original : list UChar)
    (originalSize start occurrence : Z) : cmd (returned * Z) :=
  r <- search start occurrence ;;
  let '(found, end_of_previous_match) := r in
  e <- get_error_code ;;
  if negb found && U_SUCCESS e then ret (Unchanged original, originalSize)
  else build fuel replacement replacementLen originalSize start occurrence
             found end_of_previous_match.

(** The locals as declared on lines 61 to 63. *)
Definition initial (regexp : M) : frame :=
  Frame regexp U_ZERO_ERROR [] 0 [].

Definition replace (fuel : nat) (regexp : M) (replacement : list UChar)
    (replacementLen : Z) (original : list UChar)
    (originalSize start occurrence : Z) : outcome (returned * Z) :=
  replace_body fuel replacement replacementLen original originalSize start
               occurrence (initial regexp).

End Replace.

Arguments Abort {M A} x f.
Arguments OutOfFuel {M A}.
Arguments frame M : clear implicits.
Arguments outcome M A : clear implicits.

(** ** A reference matcher

    Modelled from the spec: the external matcher handle (section 3 and
    the glossary: find from an offset, find next, end of the current
    match, and overflow-signalling appends that report the length they
    need).  The pattern engine is replaced by the list [fSpans] of the
    matches of the compiled pattern in [fText], as (start, end) pairs in
    text order; the position fields and the treatment of the status code
    and of [destCapacity] follow ICU's documented C API.  Replacement
    text is taken literally. *)
Module SpanMatcher.

Record t : Type := Make {
  fText : list UChar;
  fSpans : list (Z * Z);
  fPending : list (Z * Z);
  fMatch : bool;
  fMatchStart : Z;
  fMatchEnd : Z;
  fLastMatchEnd : Z
}.

(** The handle after [uregex_open] and [uregex_setText]. *)
Definition open (text : list UChar) (spans : list (Z * Z)) : t :=
  Make text spans spans false 0 0 (-1).

Definition slice (s : list UChar) (from to : Z) : list UChar :=
  firstn (Z.to_nat (to - from)) (skipn (Z.to_nat from) s).

(** The matcher moves on to the next pending match, if any. *)
Definition advance (m : t) : bool * t :=
  match fPending m with
  | [] =>
      (false,
       Make (fText m) (fSpans m) [] false (fMatchStart m) (fMatchEnd m)
            (if fMatch m then fMatchEnd m else fLastMatchEnd m))
  | (s, e) :: rest =>
      (true, Make (fText m) (fSpans m) rest true s e (fMatchEnd m))
  end.

Definition find (m : t) (startIndex : Z) (status : UErrorCode)
  : bool * t * UErrorCode :=
  if U_FAILURE status then (false, m, status)
  else
    let start := if startIndex =? -1 then 0 else startIndex in
    if (start <? 0) || (size (fText m) <? start)
    then (false, m, U_INDEX_OUTOFBOUNDS_ERROR)
    else
      let pending := filter (fun se => start <=? fst se) (fSpans m) in
      let '(r, m') :=
        advance (Make (fText m) (fSpans m) pending false 0 start (-1)) in
      (r, m', status).

Definition findNext (m : t) (status : UErrorCode) : bool * t * UErrorCode :=
  if U_FAILURE status then (false, m, status)
  else let '(r, m') := advance m in (r, m', status).

Definition end_ (m : t) (groupNum : Z) (status : UErrorCode)
  : Z * t * UErrorCode :=
  if U_FAILURE status then (0, m, status)
  else if negb (fMatch m) then (-1, m, U_REGEX_INVALID_STATE)
  else if negb (groupNum =? 0) then (-1, m, U_INDEX_OUTOFBOUNDS_ERROR)
  else (fMatchEnd m, m, status).

Definition getText (m : t) (status : UErrorCode)
  : list UChar * t * UErrorCode :=
  if U_FAILURE status then ([], m, status) else (fText m, m, status).

Fixpoint until_nul (s : list UChar) : list UChar :=
  match s with
  | [] => []
  | c :: s' => if c =? 0 then [] else c :: until_nul s'
  end.

(** What an append stores and reports for the full output [out]: as much
    of [out] as fits, a terminating NUL when there is room for it, and
    otherwise the not-terminated warning or the overflow error. *)
Definition deliver (out : list UChar) (capacity : Z) (pending : bool)
    (status : UErrorCode) : (Z * list UChar) * UErrorCode :=
  let destIdx := size out in
  let w := firstn (Z.to_nat capacity) out
           ++ (if destIdx <? capacity then [0] else []) in
  let status1 :=
    if destIdx <? capacity then status
    else if negb (U_SUCCESS status) then status
    else if destIdx =? capacity then U_STRING_NOT_TERMINATED_WARNING
    else U_BUFFER_OVERFLOW_ERROR in
  let status2 :=
    if pending && U_SUCCESS status1 then U_BUFFER_OVERFLOW_ERROR else status1 in
  ((destIdx, w), status2).

Definition appendReplacement (m : t) (replacementText : list UChar)
    (replacementLength capacity : Z) (status : UErrorCode)
  : (Z * list UChar) * t * UErrorCode :=
  let pending := (status =? U_BUFFER_OVERFLOW_ERROR) && (capacity =? 0) in
  let status := if pending then U_ZERO_ERROR else status in
  if U_FAILURE status then ((0, []), m, status)
  else if (replacementLength <? -1) || (capacity <? 0)
  then ((0, []), m, U_ILLEGAL_ARGUMENT_ERROR)
  else if negb (fMatch m) then ((0, []), m, U_REGEX_INVALID_STATE)
  else
    let repl := if replacementLength =? -1 then until_nul replacementText
                else firstn (Z.to_nat replacementLength) replacementText in
    let out := slice (fText m) (fLastMatchEnd m) (fMatchStart m) ++ repl in
    let '(rw, status') := deliver out capacity pending status in
    (rw, m, status').

Definition appendTail (m : t) (capacity : Z) (status : UErrorCode)
  : (Z * list UChar) * t * UErrorCode :=
  let pending := (status =? U_BUFFER_OVERFLOW_ERROR) && (capacity =? 0) in
  let status := if pending then U_ZERO_ERROR else status in
  if U_FAILURE status then ((0, []), m, status)
  else if capacity <? 0 then ((0, []), m, U_ILLEGAL_ARGUMENT_ERROR)
  else
    let nativeIdx := if fMatch m then fMatchEnd m else fLastMatchEnd m in
    let srcIdx := if nativeIdx =? -1 then 0 else nativeIdx in
    let out := slice (fText m) srcIdx (size (fText m)) in
    let '(rw, status') := deliver out capacity pending status in
    (rw, m, status').

(** The matches [findNext] has not visited yet. *)
Definition remaining (m : t) : nat := length (fPending m).

#[global] Instance matcher : Matcher t := {
  uregex_find := find;
  uregex_findNext := findNext;
  uregex_end := end_;
  uregex_getText := getText;
  uregex_appendReplacement := appendReplacement;
  uregex_appendTail := appendTail
}.

End SpanMatcher.

(** ** A matcher that under-reports

    A handle with a single match, followed in its text by "--", whose
    append entry points, when the output does not fit, ask for one unit
    more than they were given instead of for the length they need. *)
Module Misreporting.

Definition t : Type := bool.

Definition grudging (out : list UChar) (capacity : Z)
  : (Z * list UChar) * UErrorCode :=
  if size out <=? capacity then ((size out, out), U_ZERO_ERROR)
  else ((capacity + 1, firstn (Z.to_nat capacity) out),
        U_BUFFER_OVERFLOW_ERROR).

Definition appendReplacement (m : t) (replacementText : list UChar)
    (replacementLength capacity : Z) (status : UErrorCode)
  : (Z * list UChar) * t * UErrorCode :=
  let '(rw, status') :=
    grudging (firstn (Z.to_nat replacementLength) replacementText) capacity in
  (rw, m, status').

Definition appendTail (m : t) (capacity : Z) (status : UErrorCode)
  : (Z * list UChar) * t * UErrorCode :=
  let '(rw, status') := grudging (utf16 "--") capacity in
  (rw, m, status').

#[global] Instance matcher : Matcher t := {
  uregex_find := fun _ _ status => (true, true, status);
  uregex_findNext := fun _ status => (false, false, status);
  uregex_end := fun m _ status => (0, m, status);
  uregex_getText := fun m status => ([], m, status);
  uregex_appendReplacement := appendReplacement;
  uregex_appendTail := appendTail
}.

End Misreporting.

(** ** What the spec expects of a matcher *)

Section Contracts.

Context {M : Type} {matcher : Matcher M}.

(** An append stores nothing beyond the capacity it is given (nothing at
    all under a negative one), returns a length that is not negative,
    and when it leaves a success code that length is within the
    capacity. *)
Class WithinCapacity : Prop := {
  appendReplacement_within :
    forall m r l capacity s n w m' s',
      uregex_appendReplacement m r l capacity s = ((n, w), m', s') ->
      size w <= Z.max 0 capacity
      /\ (0 <= capacity ->
          0 <= n /\ (U_SUCCESS s' = true -> n <= capacity));
  appendTail_within :
    forall m capacity s n w m' s',
      uregex_appendTail m capacity s = ((n, w), m', s') ->
      size w <= Z.max 0 capacity
      /\ (0 <= capacity ->
          0 <= n /\ (U_SUCCESS s' = true -> n <= capacity))
}.

(** Overflow-signalling append (glossary): a call entered with a success
    code that signals overflow reports the length [n] it needs, above
    the capacity it had, and the same call with capacity [n] succeeds
    and returns [n] again. *)
Class ExactOverflow : Prop := {
  appendReplacement_exact :
    forall m r l capacity s n w m',
      0 <= capacity -> U_SUCCESS s = true ->
      uregex_appendReplacement m r l capacity s
      = ((n, w), m', U_BUFFER_OVERFLOW_ERROR) ->
      capacity < n /\ size w <= capacity /\
      exists w2 m2 s2,
        uregex_appendReplacement m' r l n U_ZERO_ERROR = ((n, w2), m2, s2)
        /\ U_SUCCESS s2 = true /\ size w2 <= n;
  appendTail_exact :
    forall m capacity s n w m',
      0 <= capacity -> U_SUCCESS s = true ->
      uregex_appendTail m capacity s = ((n, w), m', U_BUFFER_OVERFLOW_ERROR) ->
      capacity < n /\ size w <= capacity /\
      exists w2 m2 s2,
        uregex_appendTail m' n U_ZERO_ERROR = ((n, w2), m2, s2)
        /\ U_SUCCESS s2 = true /\ size w2 <= n
}.

(** ICU's convention for a failure code: a find that leaves one reports
    no match, and the text and tail entry points entered with one do
    nothing, return zero and leave the code as it is. *)
Class StickyFailure : Prop := {
  find_failure :
    forall m start s b m' s',
      uregex_find m start s = (b, m', s') -> U_FAILURE s' = true -> b = false;
  findNext_failure :
    forall m s b m' s',
      uregex_findNext m s = (b, m', s') -> U_FAILURE s' = true -> b = false;
  getText_failure :
    forall m s t m' s',
      U_FAILURE s = true -> uregex_getText m s = (t, m', s') -> s' = s;
  appendTail_failure :
    forall m capacity s n w m' s',
      U_FAILURE s = true -> s <> U_BUFFER_OVERFLOW_ERROR ->
      uregex_appendTail m capacity s = ((n, w), m', s') ->
      n = 0 /\ w = [] /\ s' = s
}.

(** The matcher runs out of matches: [remaining] bounds the number of
    further matches [uregex_findNext] can report, and neither reading
    the text nor appending raises it. *)
Class Exhaustible (remaining : M -> nat) : Prop := {
  findNext_remaining :
    forall m s m' s',
      uregex_findNext m s = (true, m', s') -> (remaining m' < remaining m)%nat;
  getText_remaining :
    forall m s t m' s',
      uregex_getText m s = (t, m', s') -> (remaining m' <= remaining m)%nat;
  appendReplacement_remaining :
    forall m r l capacity s x m' s',
      uregex_appendReplacement m r l capacity s = (x, m', s') ->
      (remaining m' <= remaining m)%nat
}.

(** The buffer invariant of section 3, with the bounds that keep the
    cursor and the size inside [int]. *)
Definition within_capacity (f : frame M) : Prop :=
  0 <= m_replace_buffer_pos f <= size (m_replace_buffer f)
  /\ size (m_replace_buffer f) <= INT_MAX.

End Contracts.

(** ** Scenarios *)

(** The spec's concrete scenario: "a-b-a-b", the pattern matching "a". *)
Definition a_b_a_b : SpanMatcher.t :=
  SpanMatcher.open (utf16 "a-b-a-b") [(0, 1); (4, 5)].

(** The empty text with a pattern that matches the empty string. *)
Definition empty_text : SpanMatcher.t := SpanMatcher.open [] [(0, 0)].

(** The locals of [replace] on that scenario when the first append is
    reached: the matcher on its first match, the buffer resized to the
    7 units of the original, the cursor at [pos]. *)
Definition on_first_match (pos : Z) : frame SpanMatcher.t :=
  Frame (snd (fst (SpanMatcher.find a_b_a_b 0 U_ZERO_ERROR)))
        U_ZERO_ERROR (resized [] 7) pos [].

(** The same point with the under-reporting matcher and a two-unit
    original. *)
Definition on_misreported_match (pos : Z) : frame Misreporting.t :=
  Frame true U_ZERO_ERROR (resized [] 2) pos [].

(** ** Reading a trace *)

(** The calls on lines 64 to 69: the matcher's position queries. *)
Definition searches (c : call) : bool :=
  match c with
  | uregex_find_call _ _ _ | uregex_findNext_call _ _ | uregex_end_call _ _ => true
  | _ => false
  end.

(** The calls [replace] makes to drive a substitution: the position
    queries and the three helpers.  What the helpers do inside (the
    matcher's text and append entry points, [resize]) and the final
    [resize], [malloc] and [memcpy] are left out. *)
Definition orchestrates (c : call) : bool :=
  match c with
  | uregex_find_call _ _ _ | uregex_findNext_call _ _ | uregex_end_call _ _
  | appendHead_call _ | appendReplacement_call | appendTail_call => true
  | _ => false
  end.

Definition orchestration (l : list call) : list call := filter orchestrates l.

Definition is_appendReplacement (c : call) : bool :=
  match c with appendReplacement_call => true | _ => false end.

Definition is_findNext (c : call) : bool :=
  match c with uregex_findNext_call _ _ => true | _ => false end.

(** A [uregex_find] or [uregex_findNext] that reported a match. *)
Definition reports_match (c : call) : bool :=
  match c with
  | uregex_find_call _ found _ | uregex_findNext_call found _ => found
  | _ => false
  end.

(** A call into one of the matcher's two append entry points. *)
Definition is_matcher_append (c : call) : bool :=
  match c with
  | uregex_appendReplacement_call _ _ _ _ | uregex_appendTail_call _ _ _ _ => true
  | _ => false
  end.

Definition count (p : call -> bool) (l : list call) : nat :=
  length (filter p l).

(** [skips n e0 e l]: [l] is [n] rounds of the skip loop, each a
    [uregex_end] followed by a [uregex_findNext] that found a match;
    [e] is the offset the last [uregex_end] returned ([e0] if [n = 0]). *)
Inductive skips : nat -> Z -> Z -> list call -> Prop :=
| skips_none e0 : skips 0 e0 e0 []
| skips_round n e0 e r s s' l :
    skips n r e l ->
    skips (S n) e0 e (uregex_end_call r s :: uregex_findNext_call true s' :: l).

(** [replacing n l]: [l] is [n] rounds of the replacement loop under
    selector 0, every round but the last followed by a [uregex_findNext]
    that found a match, the last by one that did not. *)
Inductive replacing : nat -> list call -> Prop :=
| replacing_last s :
    replacing 1 [appendReplacement_call; uregex_findNext_call false s]
| replacing_more n s l :
    replacing n l ->
    replacing (S n) (appendReplacement_call :: uregex_findNext_call true s :: l).

(** A call that neither reaches the matcher's append entry points nor
    asks for any storage: anything but those entry points, a [resize] to
    a non-zero size, and a [malloc] or [memcpy] of a non-zero number of
    bytes. *)
Definition idle (c : call) : bool :=
  match c with
  | uregex_appendReplacement_call _ _ _ _ | uregex_appendTail_call _ _ _ _ => false
  | resize_call n | malloc_call n | memcpy_call n => n =? 0
  | _ => true
  end.

(** A stretch of trace without any call made by [replace] itself to
    drive the substitution. *)
Definition quiet (l : list call) : Prop :=
  Forall (fun c => orchestrates c = false) l.

Section FrameRelations.

Context {M : Type} {matcher : Matcher M}.

(** Every run of [c] ends, normally or not, in a frame related by [R]
    to the one it started from. *)
Definition preserves (R : frame M -> frame M -> Prop) {A : Type}
    (c : cmd A) : Prop :=
  forall f,
    match c f with
    | Return _ f' | Abort _ f' => R f f'
    | OutOfFuel => False
    end.

(** [f'] has the trace of [f] followed by a quiet stretch. *)
Definition adds_quietly (f f' : frame M) : Prop :=
  exists l, trace f' = trace f ++ l /\ quiet l.

(** [f'] has the trace of [f], then [entry], then a quiet stretch. *)
Definition enters (entry : call) (f f' : frame M) : Prop :=
  exists l, trace f' = trace f ++ entry :: l /\ quiet l.

(** The state lines 23 to 57 keep when they start from an empty buffer:
    same matcher, empty buffer, cursor 0, and only idle calls added. *)
Definition stays_empty (f f' : frame M) : Prop :=
  m_re f' = m_re f
  /\ m_replace_buffer f' = []
  /\ m_replace_buffer_pos f' = 0
  /\ exists l, trace f' = trace f ++ l /\ Forall (fun c => idle c = true) l.

(** Lines 31 to 38 and lines 49 to 56 after their first word: the
    attempt [try], the resize and second attempt when the code is the
    overflow one, and the move of the cursor. *)
Definition retrying (try : @cmd M Z) : cmd unit :=
  bind try (fun n =>
  bind get_error_code (fun e =>
  bind (if e =? U_BUFFER_OVERFLOW_ERROR then
          bind get_pos (fun pos =>
          bind (resize (to_size_t (to_int (pos + n)))) (fun _ =>
          bind (set_error_code U_ZERO_ERROR) (fun _ =>
          bind try (fun _ => ret tt))))
        else ret tt) (fun _ =>
  bind get_pos (fun pos => set_pos (to_int (pos + n)))))).

(** An attempt that returns, leaves the size of the buffer and the
    cursor alone, and reports a length that is not negative and, under a
    success code, fits between the cursor and the end of the buffer. *)
Definition attempt_fits (try : @cmd M Z) : Prop :=
  forall f : frame M,
    0 <= m_replace_buffer_pos f <= INT_MAX ->
    size (m_replace_buffer f) <= INT_MAX ->
    exists n f',
      try f = Return n f'
      /\ size (m_replace_buffer f') = size (m_replace_buffer f)
      /\ m_replace_buffer_pos f' = m_replace_buffer_pos f
      /\ (m_replace_buffer_pos f <= size (m_replace_buffer f) ->
          0 <= n
          /\ (U_SUCCESS (m_error_code f') = true ->
              m_replace_buffer_pos f + n <= size (m_replace_buffer f))).

(** What section 3 asks of an append that ran to [o]: if it returned and
    was [successful], the cursor is within the capacity; if it did not
    return, it is not for having written past the buffer. *)
Definition ends_within (successful : frame M -> Prop) (o : outcome M unit)
  : Prop :=
  match o with
  | Return _ f' => successful f' -> within_capacity f'
  | Abort x _ => x <> write_past_buffer
  | OutOfFuel => False
  end.

(** The matcher of [f'] has no more matches left than that of [f]. *)
Definition keeps_matches (remaining : M -> nat) (f f' : frame M) : Prop :=
  (remaining (m_re f') <= remaining (m_re f))%nat.

End FrameRelations.

(** What the replacement loop contributes to the orchestration. *)
Definition loop_shape (found : bool) (occurrence : Z) (loop : list call)
  : Prop :=
  if found then
    if occurrence =? 0 then exists n, replacing n loop
    else loop = [appendReplacement_call]
  else loop = [].

(** ** What the result holds, on the reference matcher *)

(** The staging buffer holds [c] up to the cursor. *)
Definition holds {M : Type} (c : list UChar) (f : frame M) : Prop :=
  m_replace_buffer_pos f = size c
  /\ firstn (length c) (m_replace_buffer f) = c.

(** [try], entered on the matcher [m] with a success code and a
    non-empty buffer, hands [out] to the window that starts at the
    cursor, the way the reference matcher delivers any output. *)
Definition delivers (m : SpanMatcher.t) (out : list UChar)
    (try : @cmd SpanMatcher.t Z) : Prop :=
  forall f : frame SpanMatcher.t,
    m_re f = m ->
    U_SUCCESS (m_error_code f) = true ->
    empty (m_replace_buffer f) = false ->
    within_capacity f ->
    exists l,
      try f =
      let '((n, w), s') :=
        SpanMatcher.deliver
          out (size (m_replace_buffer f) - m_replace_buffer_pos f) false
          (m_error_code f) in
      Return n (Frame m s'
                  (overwrite (m_replace_buffer f)
                             (Z.to_nat (m_replace_buffer_pos f)) w)
                  (m_replace_buffer_pos f) (trace f ++ l)).

(** Matches in text order, none before [from], none overlapping, all
    inside a text of [len] units. *)
Fixpoint ordered_from (from : Z) (spans : list (Z * Z)) (len : Z) : Prop :=
  match spans with
  | [] => from <= len
  | (s, e) :: rest => from <= s /\ s <= e /\ ordered_from e rest len
  end.

(** Where the last of [before] ends ([from] if there is none). *)
Fixpoint end_of (from : Z) (before : list (Z * Z)) : Z :=
  match before with
  | [] => from
  | (_, e) :: rest => end_of e rest
  end.

(** The text from [from] on with every match of [pending] replaced. *)
Fixpoint substituted (t r : list UChar) (from : Z) (pending : list (Z * Z))
  : list UChar :=
  match pending with
  | [] => SpanMatcher.slice t from (size t)
  | (s, e) :: rest => SpanMatcher.slice t from s ++ r ++ substituted t r e rest
  end.

(** The reference matcher on the match [(s, e)], the previous match (or
    the start of the search) ending at [last], and [rest] still to
    visit. *)
Definition on_match (t : list UChar) (sp rest : list (Z * Z)) (s e last : Z)
  : SpanMatcher.t :=
  SpanMatcher.Make t sp rest true s e last.

(** The units the matches of [spans] cover. *)
Fixpoint matched_units (spans : list (Z * Z)) : Z :=
  match spans with
  | [] => 0
  | (s, e) :: rest => (e - s) + matched_units rest
  end.

(** * Properties *)

(** ** Integer conversions *)

Lemma to_int_small z : - 2 ^ 31 <= z < 2 ^ 31 -> to_int z = z.
Proof.
  intros H. unfold to_int.
  rewrite Z.mod_small by lia. lia.
Qed.

Lemma to_int_range z : - 2 ^ 31 <= to_int z < 2 ^ 31.
Proof.
  unfold to_int.
  pose proof (Z.mod_pos_bound (z + 2 ^ 31) (2 ^ 32) ltac:(lia)). lia.
Qed.

Lemma to_size_t_small z : 0 <= z < 2 ^ 64 -> to_size_t z = z.
Proof. intros H. unfold to_size_t. apply Z.mod_small. exact H. Qed.

Lemma to_size_t_negative z : - 2 ^ 31 <= z < 0 -> max_size < to_size_t z.
Proof.
  intros H. unfold to_size_t, max_size.
  replace z with (z + 2 ^ 64 + (-1) * 2 ^ 64) by lia.
  rewrite Z.mod_add by lia.
  rewrite Z.mod_small by lia. lia.
Qed.

Lemma to_int_to_size_t z : to_int (to_size_t z) = to_int z.
Proof.
  unfold to_int, to_size_t.
  assert (E : z mod 2 ^ 64 = z - 2 ^ 32 * (2 ^ 32 * (z / 2 ^ 64))).
  { pose proof (Z.div_mod z (2 ^ 64) ltac:(lia)).
    change (2 ^ 64) with (2 ^ 32 * 2 ^ 32) in *. lia. }
  rewrite E.
  replace (z - 2 ^ 32 * (2 ^ 32 * (z / 2 ^ 64)) + 2 ^ 31)
    with (z + 2 ^ 31 + (- (2 ^ 32 * (z / 2 ^ 64))) * 2 ^ 32) by lia.
  rewrite Z.mod_add by lia. reflexivity.
Qed.

(** The capacity handed to the matcher, for a cursor inside a buffer
    whose size fits an [int]. *)
Lemma capacity_in_range sz pos :
  0 <= pos <= sz -> sz <= INT_MAX ->
  to_int (to_size_t (sz - to_size_t pos)) = sz - pos.
Proof.
  unfold INT_MAX. intros Hp Hs.
  rewrite to_int_to_size_t.
  rewrite (to_size_t_small (z := pos)) by lia.
  apply to_int_small. lia.
Qed.

(** ** The search phase *)

Section Search.

Context {M : Type} {matcher : Matcher M}.

(** The skip loop always returns; it touches neither the buffer nor the
    cursor, makes position queries only, and can end on a match only by
    going through all its rounds with a match each time. *)
Lemma skip_loop_spec (n : nat) :
  forall (found : bool) (e0 : Z) (f : frame M),
  exists found' e f' l,
    skip_loop n found e0 f = Return (found', e) f'
    /\ m_replace_buffer f' = m_replace_buffer f
    /\ m_replace_buffer_pos f' = m_replace_buffer_pos f
    /\ trace f' = trace f ++ l
    /\ Forall (fun c => searches c = true) l
    /\ (found' = true -> found = true /\ skips n e0 e l).
Proof.
  induction n as [|n IH]; intros found e0 f; simpl.
  - exists found, e0, f, []. unfold ret. rewrite app_nil_r.
    repeat apply conj; auto. intros ->. split; [reflexivity | constructor].
  - destruct found.
    + unfold bind, call_end, call_findNext.
      destruct (uregex_end (m_re f) 0 (m_error_code f)) as [[r m1] s1] eqn:Eend.
      cbn [m_re m_error_code m_replace_buffer m_replace_buffer_pos trace].
      destruct (uregex_findNext m1 s1) as [[b m2] s2] eqn:Enext.
      match goal with |- context [skip_loop n b r ?g] =>
        destruct (IH b r g) as (found' & e & f' & l & Hrun & Hbuf & Hpos & Htr & Hall & Hfound)
      end.
      cbn [m_re m_error_code m_replace_buffer m_replace_buffer_pos trace] in *.
      exists found', e, f', (uregex_end_call r s1 :: uregex_findNext_call b s2 :: l).
      repeat apply conj; auto.
      * rewrite Htr, <- !app_assoc. reflexivity.
      * intros Hf. destruct (Hfound Hf) as [-> Hs].
        split; [reflexivity | constructor; exact Hs].
    + exists false, e0, f, []. unfold ret. rewrite app_nil_r.
      repeat apply conj; auto; discriminate.
Qed.

(** Lines 64 to 69 as a whole. *)
Lemma search_spec (start occurrence : Z) (f : frame M) :
  exists found e f' b s l,
    search start occurrence f = Return (found, e) f'
    /\ m_replace_buffer f' = m_replace_buffer f
    /\ m_replace_buffer_pos f' = m_replace_buffer_pos f
    /\ trace f' = trace f ++ uregex_find_call start b s :: l
    /\ Forall (fun c => searches c = true) l
    /\ (found = true -> b = true /\ skips (Z.to_nat (occurrence - 1)) 0 e l).
Proof.
  unfold search, bind, call_find.
  destruct (uregex_find (m_re f) start (m_error_code f)) as [[b m1] s1] eqn:Efind.
  match goal with |- context [skip_loop ?n b 0 ?g] =>
    destruct (skip_loop_spec n b 0 g) as (found & e & f' & l & Hrun & Hbuf & Hpos & Htr & Hall & Hfound)
  end.
  cbn [m_re m_error_code m_replace_buffer m_replace_buffer_pos trace] in *.
  exists found, e, f', b, s1, l.
  repeat apply conj; auto.
  rewrite Htr, <- app_assoc. reflexivity.
Qed.

(** When the first [uregex_find] reports no match, no further query is
    made. *)
Lemma search_no_first_match (start occurrence : Z) (f : frame M) m s :
  uregex_find (m_re f) start (m_error_code f) = (false, m, s) ->
  search start occurrence f =
  Return (false, 0)
         (Frame m s (m_replace_buffer f) (m_replace_buffer_pos f)
                (trace f ++ [uregex_find_call start false s])).
Proof.
  intros E. unfold search, bind, call_find. rewrite E.
  destruct (Z.to_nat (occurrence - 1)); reflexivity.
Qed.

(** C1: when the search phase ends without a match and with a success
    code (the first find fails, or the skip loop runs out of matches
    before reaching the selected one), [replace] returns the [original]
    pointer with [originalSize] as the length; the buffer is still the
    empty one it started with, the cursor is 0, and the only calls made
    are position queries: no [resize], no [malloc], no [memcpy]. *)
Theorem replace_no_match_returns_original
    (fuel : nat) (regexp : M) (replacement : list UChar) (replacementLen : Z)
    (original : list UChar) (originalSize start occurrence : Z)
    (e : Z) (f : frame M) :
  search start occurrence (initial regexp) = Return (false, e) f ->
  U_SUCCESS (m_error_code f) = true ->
  replace fuel regexp replacement replacementLen original originalSize
          start occurrence
  = Return (Unchanged original, originalSize) f
  /\ m_replace_buffer f = []
  /\ m_replace_buffer_pos f = 0
  /\ Forall (fun c => searches c = true) (trace f).
Proof.
  intros Hsearch Hok.
  destruct (search_spec start occurrence (initial regexp))
    as (found & e' & f' & b & s & l & Hrun & Hbuf & Hpos & Htr & Hall & _).
  rewrite Hsearch in Hrun. injection Hrun as <- <- <-.
  split; [|split; [|split]].
  - unfold replace, replace_body, bind.
    rewrite Hsearch. unfold get_error_code. rewrite Hok. reflexivity.
  - exact Hbuf.
  - exact Hpos.
  - rewrite Htr. simpl. constructor; [reflexivity | exact Hall].
Qed.

End Search.

Lemma capacity_any sz pos :
  0 <= pos <= INT_MAX -> 0 <= sz <= INT_MAX ->
  to_int (to_size_t (sz - to_size_t pos)) = sz - pos.
Proof.
  unfold INT_MAX. intros Hp Hs.
  rewrite to_int_to_size_t.
  rewrite (to_size_t_small (z := pos)) by lia.
  apply to_int_small. lia.
Qed.

(** A [resize] to a converted [int] goes through only if the [int] is
    not negative. *)
Lemma to_int_resizable z :
  to_size_t (to_int z) <= max_size ->
  0 <= to_int z <= INT_MAX /\ to_size_t (to_int z) = to_int z.
Proof.
  intros H. pose proof (to_int_range z) as R.
  destruct (Z_lt_ge_dec (to_int z) 0) as [Hneg|Hpos].
  - pose proof (@to_size_t_negative (to_int z) ltac:(lia)). lia.
  - unfold INT_MAX. split; [lia|]. apply to_size_t_small. lia.
Qed.

(** ** The buffer *)

Lemma size_nonneg (b : u16string) : 0 <= size b.
Proof. unfold size. lia. Qed.

Lemma empty_size (b : u16string) : empty b = true <-> size b = 0.
Proof. destruct b; unfold size; simpl; split; intros; try reflexivity; try discriminate; lia. Qed.

Lemma size_resized (b : u16string) (n : Z) : 0 <= n -> size (resized b n) = n.
Proof.
  intros Hn. unfold size, resized.
  rewrite length_app, length_firstn, repeat_length. lia.
Qed.

Lemma size_overwrite (b : u16string) (pos : nat) (w : list UChar) :
  (pos + length w <= length b)%nat -> size (overwrite b pos w) = size b.
Proof.
  intros H. unfold size, overwrite.
  rewrite !length_app, length_firstn, length_skipn. lia.
Qed.

Lemma overwrite_nil (b : u16string) (pos : nat) : overwrite b pos [] = b.
Proof.
  unfold overwrite. simpl. rewrite Nat.add_0_r. apply firstn_skipn.
Qed.

Lemma resized_same (b : u16string) : resized b (size b) = b.
Proof.
  unfold resized, size. rewrite Nat2Z.id, firstn_all, Nat.sub_diag.
  apply app_nil_r.
Qed.

(** ** The helpers, step by step *)

Section Helpers.

Context {M : Type} {matcher : Matcher M}.

Lemma resize_ok (n : Z) (f : frame M) :
  n <= max_size ->
  resize n f =
  Return tt (Frame (m_re f) (m_error_code f) (resized (m_replace_buffer f) n)
                   (m_replace_buffer_pos f) (trace f ++ [resize_call n])).
Proof.
  intros H. unfold resize, bind, note, log, set_buffer.
  cbn [m_re m_error_code m_replace_buffer m_replace_buffer_pos trace].
  destruct (max_size <? n) eqn:E; [apply Z.ltb_lt in E; lia | reflexivity].
Qed.

Lemma resize_throws (n : Z) (f : frame M) :
  max_size < n ->
  resize n f = Abort length_error (log (resize_call n) f).
Proof.
  intros H. unfold resize, bind, note.
  destruct (max_size <? n) eqn:E; [reflexivity | apply Z.ltb_ge in E; lia].
Qed.

(** What a matcher call stored lands in the buffer when it stays inside
    the window that starts at the cursor. *)
Lemma stored_ok (w : list UChar) (f : frame M) :
  0 <= m_replace_buffer_pos f ->
  m_replace_buffer_pos f + size w <= size (m_replace_buffer f) ->
  stored w f =
  Return tt (Frame (m_re f) (m_error_code f)
                   (overwrite (m_replace_buffer f)
                              (Z.to_nat (m_replace_buffer_pos f)) w)
                   (m_replace_buffer_pos f) (trace f)).
Proof.
  intros H0 H1. unfold stored. destruct w as [|c w].
  - rewrite overwrite_nil. destruct f; reflexivity.
  - destruct (0 <=? m_replace_buffer_pos f) eqn:E0; [|apply Z.leb_gt in E0; lia].
    destruct (m_replace_buffer_pos f + size (c :: w) <=? size (m_replace_buffer f)) eqn:E1;
      [|apply Z.leb_gt in E1; lia].
    reflexivity.
Qed.

Lemma tryToAppendReplacement_empty r l (f : frame M) :
  m_replace_buffer f = [] -> tryToAppendReplacement r l f = Return 0 f.
Proof. intros E. unfold tryToAppendReplacement, bind, get_buffer. rewrite E. reflexivity. Qed.

Lemma tryToAppendTail_empty (f : frame M) :
  m_replace_buffer f = [] -> tryToAppendTail f = Return 0 f.
Proof. intros E. unfold tryToAppendTail, bind, get_buffer. rewrite E. reflexivity. Qed.

Lemma tryToAppendReplacement_call r l (f : frame M) capacity n w m' s' :
  empty (m_replace_buffer f) = false ->
  within_capacity f ->
  capacity = size (m_replace_buffer f) - m_replace_buffer_pos f ->
  uregex_appendReplacement (m_re f) r l capacity (m_error_code f)
  = ((n, w), m', s') ->
  size w <= capacity ->
  tryToAppendReplacement r l f =
  Return n (Frame m' s'
              (overwrite (m_replace_buffer f)
                         (Z.to_nat (m_replace_buffer_pos f)) w)
              (m_replace_buffer_pos f)
              (trace f ++ [uregex_appendReplacement_call
                             capacity (m_error_code f) n s'])).
Proof.
  intros Hne [Hpos Hsz] -> Hcall Hw.
  unfold tryToAppendReplacement, bind, get_buffer, get_pos. rewrite Hne.
  rewrite capacity_in_range by assumption.
  unfold call_appendReplacement. rewrite Hcall. unfold bind.
  rewrite stored_ok; cbn [m_re m_error_code m_replace_buffer m_replace_buffer_pos trace];
    [reflexivity | lia | lia].
Qed.

Lemma tryToAppendTail_call (f : frame M) capacity n w m' s' :
  empty (m_replace_buffer f) = false ->
  within_capacity f ->
  capacity = size (m_replace_buffer f) - m_replace_buffer_pos f ->
  uregex_appendTail (m_re f) capacity (m_error_code f) = ((n, w), m', s') ->
  size w <= capacity ->
  tryToAppendTail f =
  Return n (Frame m' s'
              (overwrite (m_replace_buffer f)
                         (Z.to_nat (m_replace_buffer_pos f)) w)
              (m_replace_buffer_pos f)
              (trace f ++ [uregex_appendTail_call
                             capacity (m_error_code f) n s'])).
Proof.
  intros Hne [Hpos Hsz] -> Hcall Hw.
  unfold tryToAppendTail, bind, get_buffer, get_pos. rewrite Hne.
  rewrite capacity_in_range by assumption.
  unfold call_appendTail. rewrite Hcall. unfold bind.
  rewrite stored_ok; cbn [m_re m_error_code m_replace_buffer m_replace_buffer_pos trace];
    [reflexivity | lia | lia].
Qed.

End Helpers.

(** ** Frame relations kept by the helpers *)

Ltac fields :=
  cbn [m_re m_error_code m_replace_buffer m_replace_buffer_pos trace log] in *.

Section Preserved.

Context {M : Type} {matcher : Matcher M}.

Section Preorder.

Variable R : frame M -> frame M -> Prop.
Hypothesis R_refl : forall f, R f f.
Hypothesis R_trans : forall f g h, R f g -> R g h -> R f h.

Lemma preserves_ret A (a : A) : preserves R (ret a).
Proof. intros f. apply R_refl. Qed.

Lemma preserves_bind A B (c : cmd A) (k : A -> cmd B) :
  preserves R c -> (forall a, preserves R (k a)) -> preserves R (bind c k).
Proof.
  intros Hc Hk f. unfold bind. specialize (Hc f).
  destruct (c f) as [a f'| |]; auto.
  specialize (Hk a f'). destruct (k a f'); eauto.
Qed.

Lemma preserves_get_error_code : preserves R (@get_error_code M).
Proof. intros f. apply R_refl. Qed.

Lemma preserves_get_buffer : preserves R (@get_buffer M).
Proof. intros f. apply R_refl. Qed.

Lemma preserves_get_pos : preserves R (@get_pos M).
Proof. intros f. apply R_refl. Qed.

End Preorder.

Lemma adds_quietly_refl (f : frame M) : adds_quietly f f.
Proof. exists []. rewrite app_nil_r. split; [reflexivity | constructor]. Qed.

Lemma adds_quietly_trans (f g h : frame M) :
  adds_quietly f g -> adds_quietly g h -> adds_quietly f h.
Proof.
  intros (l1 & E1 & Q1) (l2 & E2 & Q2). exists (l1 ++ l2). split.
  - rewrite E2, E1, app_assoc. reflexivity.
  - apply Forall_app. split; assumption.
Qed.

Lemma adds_quietly_same_trace (f f' : frame M) :
  trace f' = trace f -> adds_quietly f f'.
Proof. intros E. exists []. rewrite app_nil_r. split; [exact E | constructor]. Qed.

Lemma adds_quietly_one (f f' : frame M) (c : call) :
  orchestrates c = false -> trace f' = trace f ++ [c] -> adds_quietly f f'.
Proof. intros Hc E. exists [c]. split; [exact E | repeat constructor; exact Hc]. Qed.

Ltac one_call := eapply adds_quietly_one; [|reflexivity]; reflexivity.

Lemma quiet_note (c : call) :
  orchestrates c = false -> preserves adds_quietly (@note M c).
Proof. intros Hc f. simpl. eapply adds_quietly_one; [exact Hc | reflexivity]. Qed.

Lemma quiet_set_error_code e : preserves adds_quietly (@set_error_code M e).
Proof. intros f. simpl. apply adds_quietly_same_trace. reflexivity. Qed.

Lemma quiet_set_pos p : preserves adds_quietly (@set_pos M p).
Proof. intros f. simpl. apply adds_quietly_same_trace. reflexivity. Qed.

Lemma quiet_resize n : preserves adds_quietly (@resize M n).
Proof.
  intros f. unfold resize, bind, note, set_buffer. fields.
  destruct (max_size <? n); one_call.
Qed.

Lemma quiet_std_copy text n : preserves adds_quietly (@std_copy M text n).
Proof.
  intros f. unfold std_copy, set_buffer.
  destruct (size text <? n); [apply adds_quietly_refl|].
  destruct (size (m_replace_buffer f) <? n); [apply adds_quietly_refl|].
  apply adds_quietly_same_trace. reflexivity.
Qed.

Lemma quiet_stored w : preserves adds_quietly (@stored M w).
Proof.
  intros f. unfold stored, set_buffer. destruct w; [apply adds_quietly_refl|].
  destruct (_ && _); [|apply adds_quietly_refl].
  apply adds_quietly_same_trace. reflexivity.
Qed.

Lemma quiet_call_getText : preserves adds_quietly call_getText.
Proof.
  intros f. unfold call_getText.
  destruct (uregex_getText _ _) as [[t m] s].
  one_call.
Qed.

Lemma quiet_call_appendReplacement r l capacity :
  preserves adds_quietly (call_appendReplacement r l capacity).
Proof.
  intros f. unfold call_appendReplacement.
  destruct (uregex_appendReplacement _ _ _ _ _) as [[[n w] m] s].
  unfold bind, ret.
  match goal with |- context [stored w ?g] =>
    pose proof (quiet_stored w g) as H; destruct (stored w g) end;
    try contradiction;
    (eapply adds_quietly_trans; [|exact H]);
    one_call.
Qed.

Lemma quiet_call_appendTail capacity :
  preserves adds_quietly (call_appendTail capacity).
Proof.
  intros f. unfold call_appendTail.
  destruct (uregex_appendTail _ _ _) as [[[n w] m] s].
  unfold bind, ret.
  match goal with |- context [stored w ?g] =>
    pose proof (quiet_stored w g) as H; destruct (stored w g) end;
    try contradiction;
    (eapply adds_quietly_trans; [|exact H]);
    one_call.
Qed.

End Preserved.

Create HintDb quietly discriminated.
Create HintDb keeping discriminated.

#[global] Hint Resolve
  quiet_set_error_code quiet_set_pos quiet_resize quiet_std_copy quiet_stored
  quiet_call_getText quiet_call_appendReplacement quiet_call_appendTail
  adds_quietly_refl : quietly.

(** Walks through a command built from [bind], [ret] and conditionals,
    leaving the primitive steps to the hint database. *)
Ltac quietly :=
  repeat first
    [ solve [auto with quietly]
    | solve [apply quiet_note; reflexivity]
    | apply (@preserves_bind _ _ adds_quietly_trans); [|intro]
    | apply (@preserves_ret _ _ adds_quietly_refl)
    | apply (@preserves_get_error_code _ _ adds_quietly_refl)
    | apply (@preserves_get_buffer _ _ adds_quietly_refl)
    | apply (@preserves_get_pos _ _ adds_quietly_refl)
    | match goal with
      | |- preserves _ (if ?b then _ else _) => destruct b
      end ].

Section Entries.

Context {M : Type} {matcher : Matcher M}.

Lemma quiet_tryToAppendReplacement r l :
  preserves adds_quietly (tryToAppendReplacement r l).
Proof. unfold tryToAppendReplacement. quietly. Qed.

Lemma quiet_tryToAppendTail : preserves adds_quietly (@tryToAppendTail M _).
Proof. unfold tryToAppendTail. quietly. Qed.

Lemma enters_after (entry : call) A (k : @cmd M A) :
  preserves adds_quietly k ->
  preserves (enters entry) (bind (note entry) (fun _ => k)).
Proof.
  intros Hk f. unfold bind, note. specialize (Hk (log entry f)).
  destruct (k (log entry f)); try contradiction;
    destruct Hk as (l & E & Q); exists l; fields;
    (split; [rewrite E, <- app_assoc; reflexivity | exact Q]).
Qed.

Lemma appendHead_enters size_ :
  preserves (enters (appendHead_call size_)) (appendHead size_).
Proof. unfold appendHead. apply enters_after. quietly. Qed.

Lemma appendReplacement_enters r l :
  preserves (enters appendReplacement_call) (appendReplacement r l).
Proof.
  unfold appendReplacement. apply enters_after.
  pose proof (quiet_tryToAppendReplacement r l). quietly.
Qed.

Lemma appendTail_enters :
  preserves (enters appendTail_call) (@appendTail M _).
Proof.
  unfold appendTail. apply enters_after.
  pose proof quiet_tryToAppendTail. quietly.
Qed.

Lemma finalize_quiet : preserves adds_quietly (@finalize M).
Proof. unfold finalize. quietly. Qed.

End Entries.

(** ** The replacement loop *)

Section Loop.

Context {M : Type} {matcher : Matcher M}.

Lemma orchestration_app (l1 l2 : list call) :
  orchestration (l1 ++ l2) = orchestration l1 ++ orchestration l2.
Proof. apply filter_app. Qed.

Lemma orchestration_quiet (l : list call) : quiet l -> orchestration l = [].
Proof.
  induction 1 as [|c l Hc _ IH]; [reflexivity|].
  unfold orchestration in *. simpl. rewrite Hc. exact IH.
Qed.

Lemma orchestration_searches (l : list call) :
  Forall (fun c => searches c = true) l -> orchestration l = l.
Proof.
  induction 1 as [|c l Hc _ IH]; [reflexivity|].
  unfold orchestration in *. simpl.
  destruct c; try discriminate Hc; simpl; rewrite IH; reflexivity.
Qed.

Lemma count_app (p : call -> bool) (l1 l2 : list call) :
  count p (l1 ++ l2) = (count p l1 + count p l2)%nat.
Proof. unfold count. rewrite filter_app, length_app. reflexivity. Qed.

(** Counting helper entries or position queries in a trace is counting
    them in its orchestration. *)
Lemma count_orchestration (p : call -> bool) (l : list call) :
  (forall c, p c = true -> orchestrates c = true) ->
  count p (orchestration l) = count p l.
Proof.
  intros Hp. unfold count, orchestration.
  induction l as [|c l IH]; [reflexivity|]. simpl.
  destruct (orchestrates c) eqn:Ec; simpl.
  - destruct (p c); simpl; rewrite IH; reflexivity.
  - destruct (p c) eqn:Epc; [|exact IH].
    apply Hp in Epc. congruence.
Qed.

Lemma replacing_counts (n : nat) (l : list call) :
  replacing n l ->
  count is_appendReplacement l = n /\ S (count reports_match l) = n
  /\ count is_findNext l = n.
Proof.
  induction 1 as [s | n s l _ (IH1 & IH2 & IH3)].
  - repeat apply conj; reflexivity.
  - unfold count in *. simpl. repeat apply conj; congruence.
Qed.

Lemma skips_counts (n : nat) (e0 e : Z) (l : list call) :
  skips n e0 e l ->
  count is_findNext l = n /\ count reports_match l = n
  /\ count is_appendReplacement l = 0%nat.
Proof.
  induction 1 as [e0 | n e0 e r s s' l _ (IH1 & IH2 & IH3)].
  - repeat apply conj; reflexivity.
  - unfold count in *. simpl. repeat apply conj; congruence.
Qed.

Lemma call_findNext_run (f : frame M) :
  exists b m s,
    uregex_findNext (m_re f) (m_error_code f) = (b, m, s)
    /\ call_findNext f =
       Return b (Frame m s (m_replace_buffer f) (m_replace_buffer_pos f)
                       (trace f ++ [uregex_findNext_call b s])).
Proof.
  unfold call_findNext.
  destruct (uregex_findNext _ _) as [[b m] s]. exists b, m, s. split; reflexivity.
Qed.

(** Under a non-zero selector the loop is a single [appendReplacement]. *)
Lemma replace_loop_once (fuel : nat) (occurrence : Z) r l (f : frame M) :
  occurrence <> 0 ->
  replace_loop (S fuel) occurrence r l f = appendReplacement r l f.
Proof.
  intros Hocc. simpl. unfold bind.
  destruct (occurrence =? 0) eqn:E; [apply Z.eqb_eq in E; contradiction|].
  destruct (appendReplacement r l f) as [[] f'| |]; reflexivity.
Qed.

(** Under selector 0 a loop that returns made [n] rounds, for some [n],
    each [appendReplacement] followed by the [uregex_findNext] that
    decided whether there would be another. *)
Lemma replace_loop_all_shape (fuel : nat) r l :
  forall (f f' : frame M),
    replace_loop fuel 0 r l f = Return tt f' ->
    exists lt n, trace f' = trace f ++ lt /\ replacing n (orchestration lt).
Proof.
  induction fuel as [|fuel IH]; intros f f' Hrun; [discriminate|].
  simpl in Hrun. unfold bind in Hrun.
  pose proof (appendReplacement_enters r l f) as Hent.
  destruct (appendReplacement r l f) as [[] f1| |]; try discriminate.
  destruct Hent as (lq & E1 & Q1).
  destruct (call_findNext_run f1) as (b & m & s & _ & Enext).
  rewrite Enext in Hrun. destruct b.
  - apply IH in Hrun. destruct Hrun as (lt & n & E2 & Hrep). fields.
    exists (appendReplacement_call :: lq ++ uregex_findNext_call true s :: lt), (S n).
    split.
    + rewrite E2, E1, <- !app_assoc. reflexivity.
    + change (appendReplacement_call :: lq ++ uregex_findNext_call true s :: lt)
        with ([appendReplacement_call] ++ lq ++ [uregex_findNext_call true s] ++ lt).
      rewrite !orchestration_app, (orchestration_quiet Q1).
      simpl. constructor. exact Hrep.
  - injection Hrun as <-. fields.
    exists (appendReplacement_call :: lq ++ [uregex_findNext_call false s]), 1%nat.
    split.
    + rewrite E1, <- !app_assoc. reflexivity.
    + change (appendReplacement_call :: lq ++ [uregex_findNext_call false s])
        with ([appendReplacement_call] ++ lq ++ [uregex_findNext_call false s]).
      rewrite !orchestration_app, (orchestration_quiet Q1).
      simpl. constructor.
Qed.

End Loop.

(** ** Termination of the replacement loop *)

Section Termination.

Context {M : Type} {matcher : Matcher M}.
Variable remaining : M -> nat.
Context {exhaustible : Exhaustible remaining}.

Let keeps := keeps_matches remaining.

Lemma keeps_refl (f : frame M) : keeps f f.
Proof. unfold keeps, keeps_matches. lia. Qed.

Lemma keeps_trans (f g h : frame M) : keeps f g -> keeps g h -> keeps f h.
Proof. unfold keeps, keeps_matches. lia. Qed.

Lemma keeps_same_matcher (f f' : frame M) : m_re f' = m_re f -> keeps f f'.
Proof. unfold keeps, keeps_matches. intros ->. lia. Qed.

Lemma keeps_note c : preserves keeps (@note M c).
Proof. intros f. apply keeps_same_matcher. reflexivity. Qed.

Lemma keeps_set_error_code e : preserves keeps (@set_error_code M e).
Proof. intros f. apply keeps_same_matcher. reflexivity. Qed.

Lemma keeps_set_pos p : preserves keeps (@set_pos M p).
Proof. intros f. apply keeps_same_matcher. reflexivity. Qed.

Lemma keeps_resize n : preserves keeps (@resize M n).
Proof.
  intros f. unfold resize, bind, note, set_buffer. fields.
  destruct (max_size <? n); apply keeps_same_matcher; reflexivity.
Qed.

Lemma keeps_std_copy text n : preserves keeps (@std_copy M text n).
Proof.
  intros f. unfold std_copy, set_buffer.
  destruct (size text <? n); [apply keeps_refl|].
  destruct (size (m_replace_buffer f) <? n); [apply keeps_refl|].
  apply keeps_same_matcher. reflexivity.
Qed.

Lemma keeps_stored w : preserves keeps (@stored M w).
Proof.
  intros f. unfold stored, set_buffer. destruct w; [apply keeps_refl|].
  destruct (_ && _); [|apply keeps_refl].
  apply keeps_same_matcher. reflexivity.
Qed.

Lemma keeps_call_getText : preserves keeps call_getText.
Proof.
  intros f. unfold call_getText.
  destruct (uregex_getText _ _) as [[t m] s] eqn:E.
  unfold keeps, keeps_matches. fields. eapply getText_remaining. exact E.
Qed.

Lemma keeps_call_appendReplacement r l capacity :
  preserves keeps (call_appendReplacement r l capacity).
Proof.
  intros f. unfold call_appendReplacement.
  destruct (uregex_appendReplacement _ _ _ _ _) as [[[n w] m] s] eqn:E.
  apply appendReplacement_remaining in E.
  unfold bind, ret.
  match goal with |- context [stored w ?g] =>
    pose proof (keeps_stored w g) as H; destruct (stored w g) end;
    try contradiction;
    unfold keeps, keeps_matches in *; fields; lia.
Qed.

#[local] Hint Resolve keeps_note keeps_set_error_code keeps_set_pos
  keeps_resize keeps_std_copy keeps_stored keeps_call_getText
  keeps_call_appendReplacement : keeping.

Ltac keeping :=
  repeat first
    [ solve [auto with keeping]
    | apply (@preserves_bind _ _ keeps_trans); [|intro]
    | apply (@preserves_ret _ _ keeps_refl)
    | apply (@preserves_get_error_code _ _ keeps_refl)
    | apply (@preserves_get_buffer _ _ keeps_refl)
    | apply (@preserves_get_pos _ _ keeps_refl)
    | match goal with
      | |- preserves _ (if ?b then _ else _) => destruct b
      end ].

Lemma keeps_tryToAppendReplacement r l :
  preserves keeps (tryToAppendReplacement r l).
Proof. unfold tryToAppendReplacement. keeping. Qed.

Lemma keeps_appendReplacement r l : preserves keeps (appendReplacement r l).
Proof.
  unfold appendReplacement.
  pose proof (keeps_tryToAppendReplacement r l). keeping.
Qed.

Lemma keeps_appendHead size_ : preserves keeps (appendHead size_).
Proof. unfold appendHead. keeping. Qed.

(** With more fuel than the matcher has matches left, the loop ends. *)
Lemma replace_loop_ends (occurrence : Z) r l (fuel : nat) :
  forall f : frame M,
    (remaining (m_re f) < fuel)%nat ->
    replace_loop fuel occurrence r l f <> OutOfFuel.
Proof.
  induction fuel as [|fuel IH]; intros f Hfuel; [lia|].
  simpl. unfold bind.
  pose proof (keeps_appendReplacement r l f) as Hk.
  destruct (appendReplacement r l f) as [[] f1| |];
    [|discriminate|contradiction].
  destruct (occurrence =? 0); [|discriminate].
  destruct (call_findNext_run f1) as (b & m & s & Ecall & Enext).
  rewrite Enext. destruct b; [|discriminate].
  apply IH. fields. apply findNext_remaining in Ecall.
  unfold keeps, keeps_matches in Hk. lia.
Qed.

End Termination.

(** ** Lines 71 to 83 *)

Section Build.

Context {M : Type} {matcher : Matcher M}.

Lemma finalize_run (f : frame M) :
  to_size_t (m_replace_buffer_pos f) <= max_size ->
  let b := resized (m_replace_buffer f) (to_size_t (m_replace_buffer_pos f)) in
  finalize f =
  Return (Fresh b (size b * sizeof_UChar_ptr) (size b * sizeof_UChar_ptr),
          to_int (size b))
         (Frame (m_re f) (m_error_code f) b (m_replace_buffer_pos f)
                (trace f ++ [resize_call (to_size_t (m_replace_buffer_pos f));
                             malloc_call (size b * sizeof_UChar_ptr);
                             memcpy_call (size b * sizeof_UChar_ptr)])).
Proof.
  intros Hok b. unfold finalize, bind, get_pos.
  rewrite resize_ok by exact Hok.
  unfold get_buffer, note, log, ret. fields. fold b.
  rewrite <- !app_assoc. reflexivity.
Qed.

(** A [finalize] that returns hands back the buffer it leaves in the
    frame, with the length of that buffer. *)
Lemma finalize_returns (f f' : frame M) res :
  finalize f = Return res f' ->
  res = (Fresh (m_replace_buffer f')
               (size (m_replace_buffer f') * sizeof_UChar_ptr)
               (size (m_replace_buffer f') * sizeof_UChar_ptr),
         to_int (size (m_replace_buffer f')))
  /\ m_replace_buffer f' =
     resized (m_replace_buffer f) (to_size_t (m_replace_buffer_pos f))
  /\ m_replace_buffer_pos f' = m_replace_buffer_pos f.
Proof.
  intros Hrun.
  destruct (Z_le_gt_dec (to_size_t (m_replace_buffer_pos f)) max_size) as [Hok|Hbig].
  - rewrite finalize_run in Hrun by exact Hok.
    injection Hrun as <- <-. repeat apply conj; reflexivity.
  - unfold finalize, bind, get_pos in Hrun.
    rewrite resize_throws in Hrun by lia. discriminate.
Qed.

Lemma replace_loop_shape (fuel : nat) (occurrence : Z) r l (f f' : frame M) :
  replace_loop fuel occurrence r l f = Return tt f' ->
  exists lt, trace f' = trace f ++ lt
             /\ loop_shape true occurrence (orchestration lt).
Proof.
  intros Hrun. unfold loop_shape.
  destruct (occurrence =? 0) eqn:Eocc.
  - apply Z.eqb_eq in Eocc. subst occurrence.
    apply replace_loop_all_shape in Hrun.
    destruct Hrun as (lt & n & E & Hrep). exists lt. eauto.
  - apply Z.eqb_neq in Eocc. destruct fuel as [|fuel]; [discriminate|].
    rewrite replace_loop_once in Hrun by exact Eocc.
    pose proof (appendReplacement_enters r l f) as Hent.
    rewrite Hrun in Hent. destruct Hent as (lq & E & Q).
    exists (appendReplacement_call :: lq). split; [exact E|].
    change (appendReplacement_call :: lq) with ([appendReplacement_call] ++ lq).
    rewrite orchestration_app, (orchestration_quiet Q). reflexivity.
Qed.

(** The orchestration of lines 71 to 83 when they return: one
    [appendHead] with the larger of the last skipped end and [start],
    the replacement loop if a match was found, one [appendTail]. *)
Lemma build_shape (fuel : nat) r l (originalSize start occurrence : Z)
    (found : bool) (e : Z) (f f' : frame M) res :
  build fuel r l originalSize start occurrence found e f = Return res f' ->
  exists lt loop,
    trace f' = trace f ++ lt
    /\ orchestration lt =
       appendHead_call (to_size_t (Z.max e start)) :: loop ++ [appendTail_call]
    /\ loop_shape found occurrence loop.
Proof.
  unfold build, bind. intros Hrun.
  pose proof (quiet_resize (to_size_t originalSize) f) as H1.
  destruct (resize (to_size_t originalSize) f) as [[] f1| |]; try discriminate.
  destruct H1 as (l1 & E1 & Q1).
  pose proof (appendHead_enters (to_size_t (Z.max e start)) f1) as H2.
  destruct (appendHead _ f1) as [[] f2| |]; try discriminate.
  destruct H2 as (l2 & E2 & Q2).
  assert (H3 : exists f3 l3,
             (if found then replace_loop fuel occurrence r l else ret tt) f2
             = Return tt f3
             /\ trace f3 = trace f2 ++ l3
             /\ loop_shape found occurrence (orchestration l3)).
  { destruct found.
    - destruct (replace_loop fuel occurrence r l f2) as [[] f3| |] eqn:E3;
        try discriminate.
      destruct (replace_loop_shape _ _ _ _ _ E3) as (l3 & E & S).
      exists f3, l3. auto.
    - exists f2, []. unfold ret. rewrite app_nil_r. repeat apply conj; reflexivity. }
  destruct H3 as (f3 & l3 & E3run & E3 & S3). rewrite E3run in Hrun.
  pose proof (appendTail_enters f3) as H4.
  destruct (appendTail f3) as [[] f4| |]; try discriminate.
  destruct H4 as (l4 & E4 & Q4).
  pose proof (finalize_quiet f4) as H5. rewrite Hrun in H5.
  destruct H5 as (l5 & E5 & Q5).
  exists (l1 ++ appendHead_call (to_size_t (Z.max e start)) :: l2 ++ l3
             ++ appendTail_call :: l4 ++ l5), (orchestration l3).
  repeat apply conj.
  - rewrite E5, E4, E3, E2, E1. repeat (rewrite <- app_assoc; simpl).
    reflexivity.
  - change (l1 ++ appendHead_call (to_size_t (Z.max e start)) :: l2 ++ l3
               ++ appendTail_call :: l4 ++ l5)
      with (l1 ++ [appendHead_call (to_size_t (Z.max e start))] ++ l2 ++ l3
               ++ [appendTail_call] ++ l4 ++ l5).
    rewrite !orchestration_app.
    rewrite (orchestration_quiet Q1), (orchestration_quiet Q2),
      (orchestration_quiet Q4), (orchestration_quiet Q5).
    simpl. reflexivity.
  - exact S3.
Qed.

(** Lines 71 to 83 end whenever the loop does. *)
Lemma build_ends (fuel : nat) r l (originalSize start occurrence : Z)
    (found : bool) (e : Z) (f : frame M) :
  (forall g1 g2 : frame M,
     resize (to_size_t originalSize) f = Return tt g1 ->
     appendHead (to_size_t (Z.max e start)) g1 = Return tt g2 ->
     found = true ->
     replace_loop fuel occurrence r l g2 <> OutOfFuel) ->
  build fuel r l originalSize start occurrence found e f <> OutOfFuel.
Proof.
  intros Hloop. unfold build, bind.
  pose proof (quiet_resize (to_size_t originalSize) f) as H1.
  destruct (resize (to_size_t originalSize) f) as [[] f1| |];
    [|discriminate|contradiction].
  pose proof (appendHead_enters (to_size_t (Z.max e start)) f1) as H2.
  destruct (appendHead _ f1) as [[] f2| |] eqn:E2;
    [|discriminate|contradiction].
  assert (H3 : (if found then replace_loop fuel occurrence r l else ret tt) f2
               <> OutOfFuel).
  { destruct found; [|discriminate].
    apply (Hloop f1 f2); [reflexivity | exact E2 | reflexivity]. }
  destruct ((if found then replace_loop fuel occurrence r l else ret tt) f2)
    as [[] f3| |]; [|discriminate|contradiction].
  pose proof (appendTail_enters f3) as H4.
  destruct (appendTail f3) as [[] f4| |]; [|discriminate|contradiction].
  pose proof (finalize_quiet f4) as H5.
  destruct (finalize f4); [discriminate|discriminate|contradiction].
Qed.

(** Under a non-zero selector one unit of fuel is enough. *)
Lemma build_ends_once (fuel : nat) r l (originalSize start occurrence : Z)
    (found : bool) (e : Z) (f : frame M) :
  occurrence <> 0 ->
  build (S fuel) r l originalSize start occurrence found e f <> OutOfFuel.
Proof.
  intros Hocc. apply build_ends. intros g1 g2 _ _ _.
  rewrite replace_loop_once by exact Hocc.
  pose proof (appendReplacement_enters r l g2) as H.
  destruct (appendReplacement r l g2); [discriminate|discriminate|contradiction].
Qed.

End Build.

(** ** [replace] as a whole *)

Section Orchestration.

Context {M : Type} {matcher : Matcher M}.

Lemma replace_after_search (fuel : nat) (regexp : M) r l original
    (originalSize start occurrence : Z) (found : bool) (e : Z) (f1 : frame M) :
  search start occurrence (initial regexp) = Return (found, e) f1 ->
  replace fuel regexp r l original originalSize start occurrence =
  if negb found && U_SUCCESS (m_error_code f1)
  then Return (Unchanged original, originalSize) f1
  else build fuel r l originalSize start occurrence found e f1.
Proof.
  intros Hsearch. unfold replace, replace_body, bind. rewrite Hsearch.
  unfold get_error_code. destruct (negb found && _); reflexivity.
Qed.

(** Without a skip loop the search is the first [uregex_find] alone. *)
Lemma search_first (start occurrence : Z) (regexp : M) b m s :
  occurrence <= 1 ->
  uregex_find regexp start U_ZERO_ERROR = (b, m, s) ->
  search start occurrence (initial regexp) =
  Return (b, 0) (Frame m s [] 0 [uregex_find_call start b s]).
Proof.
  intros Hocc Hfind. unfold search, bind, call_find, initial. fields.
  rewrite Hfind.
  replace (Z.to_nat (occurrence - 1)) with 0%nat by lia. reflexivity.
Qed.

Lemma build_selector (fuel : nat) r l (originalSize start occurrence : Z)
    (found : bool) (e : Z) (f : frame M) :
  occurrence <> 0 ->
  build fuel r l originalSize start occurrence found e f =
  build fuel r l originalSize start 1 found e f.
Proof.
  intros Hocc. unfold build, bind.
  destruct (resize _ f) as [[] f1| |]; try reflexivity.
  destruct (appendHead _ f1) as [[] f2| |]; try reflexivity.
  destruct found; [|reflexivity].
  destruct fuel as [|fuel]; [reflexivity|].
  rewrite !replace_loop_once by (assumption || discriminate). reflexivity.
Qed.

(** The calls of [replace] under a selector [k > 0] when the search
    phase ends on a match: the skip loop made exactly [k - 1] rounds,
    each a [uregex_end] whose offset is recorded followed by a
    [uregex_findNext] that found a match; [replace] then calls
    [appendHead] with the larger of [start] and the last recorded end,
    [appendReplacement] exactly once, with the matcher on the k-th
    match, and [appendTail]; it makes no other [uregex_findNext], so
    every other match reaches the result only through the head and tail
    copies of the original text. *)
Lemma replace_nth_calls
    (fuel : nat) (regexp : M) (replacement : list UChar) (replacementLen : Z)
    (original : list UChar) (originalSize start k : Z)
    (e : Z) (f1 : frame M) :
  0 < k ->
  search start k (initial regexp) = Return (true, e) f1 ->
  0 <= Z.max e start < 2 ^ 64 ->
  replace (S fuel) regexp replacement replacementLen original originalSize
          start k <> OutOfFuel
  /\ (exists s skipped,
        trace f1 = uregex_find_call start true s :: skipped
        /\ skips (Z.to_nat (k - 1)) 0 e skipped)
  /\ forall res f,
       replace (S fuel) regexp replacement replacementLen original
               originalSize start k = Return res f ->
       orchestration (trace f) =
         trace f1 ++ [appendHead_call (Z.max e start);
                      appendReplacement_call; appendTail_call]
       /\ count is_appendReplacement (trace f) = 1%nat
       /\ count is_findNext (trace f) = Z.to_nat (k - 1).
Proof.
  intros Hk Hsearch Hmax.
  destruct (search_spec start k (initial regexp))
    as (found & e' & f' & b & s & ls & Hrun & _ & _ & Htr & Hall & Hfound).
  rewrite Hsearch in Hrun. injection Hrun as <- <- <-.
  destruct (Hfound eq_refl) as [-> Hskips]. simpl in Htr.
  rewrite replace_after_search with (1 := Hsearch). simpl.
  repeat apply conj.
  - apply build_ends_once. lia.
  - exists s, ls. split; assumption.
  - intros res f Hbuild.
    apply build_shape in Hbuild.
    destruct Hbuild as (lt & loop & E & Horch & Hloop).
    unfold loop_shape in Hloop.
    destruct (k =? 0) eqn:Ek; [apply Z.eqb_eq in Ek; lia|]. subst loop.
    rewrite to_size_t_small in Horch by exact Hmax.
    assert (Hf : orchestration (trace f) =
                 trace f1 ++ [appendHead_call (Z.max e start);
                              appendReplacement_call; appendTail_call]).
    { rewrite E, orchestration_app, Horch.
      rewrite Htr at 1.
      change (uregex_find_call start true s :: ls)
        with ([uregex_find_call start true s] ++ ls).
      rewrite orchestration_app, (orchestration_searches Hall).
      rewrite Htr. reflexivity. }
    destruct (skips_counts Hskips) as (Hn & _ & Ha).
    repeat apply conj.
    + exact Hf.
    + rewrite <- (count_orchestration is_appendReplacement (trace f))
        by (intros []; simpl; congruence).
      rewrite Hf, Htr.
      change (uregex_find_call start true s :: ls)
        with ([uregex_find_call start true s] ++ ls).
      rewrite !count_app, Ha. reflexivity.
    + rewrite <- (count_orchestration is_findNext (trace f))
        by (intros []; simpl; congruence).
      rewrite Hf, Htr.
      change (uregex_find_call start true s :: ls)
        with ([uregex_find_call start true s] ++ ls).
      rewrite !count_app, Hn. unfold count. simpl. lia.
Qed.

(** C10: a negative selector makes [replace] do exactly what selector 1
    does.  The skip loop is not entered: the search is the first
    [uregex_find] alone and [end_of_previous_match] stays 0.  When that
    find reports a match, [appendReplacement] is called exactly once and
    no [uregex_findNext] follows it. *)
Theorem replace_negative_selector_acts_as_first
    (fuel : nat) (regexp : M) (replacement : list UChar) (replacementLen : Z)
    (original : list UChar) (originalSize start occurrence : Z) :
  occurrence < 0 ->
  replace fuel regexp replacement replacementLen original originalSize
          start occurrence
  = replace fuel regexp replacement replacementLen original originalSize
            start 1
  /\ (forall b m s,
        uregex_find regexp start U_ZERO_ERROR = (b, m, s) ->
        search start occurrence (initial regexp) =
        Return (b, 0) (Frame m s [] 0 [uregex_find_call start b s]))
  /\ (forall m s res f,
        uregex_find regexp start U_ZERO_ERROR = (true, m, s) ->
        replace fuel regexp replacement replacementLen original originalSize
                start occurrence = Return res f ->
        orchestration (trace f) =
          [uregex_find_call start true s;
           appendHead_call (to_size_t (Z.max 0 start));
           appendReplacement_call; appendTail_call]
        /\ count is_appendReplacement (trace f) = 1%nat
        /\ count is_findNext (trace f) = 0%nat).
Proof.
  intros Hneg. repeat apply conj.
  - destruct (uregex_find regexp start U_ZERO_ERROR) as [[b m] s] eqn:Hfind.
    assert (Hocc : occurrence <= 1) by lia.
    rewrite replace_after_search with (1 := search_first start regexp Hocc Hfind).
    rewrite replace_after_search
      with (1 := search_first start regexp (Z.le_refl 1) Hfind).
    rewrite build_selector by lia. reflexivity.
  - intros b m s Hfind. apply search_first; [lia | exact Hfind].
  - intros m s res f Hfind Hrun.
    assert (Hocc : occurrence <= 1) by lia.
    rewrite replace_after_search
      with (1 := search_first start regexp Hocc Hfind) in Hrun.
    simpl in Hrun. apply build_shape in Hrun.
    destruct Hrun as (lt & loop & E & Horch & Hloop).
    unfold loop_shape in Hloop.
    destruct (occurrence =? 0) eqn:Eo; [apply Z.eqb_eq in Eo; lia|].
    subst loop. fields.
    assert (Hf : orchestration (trace f) =
                 [uregex_find_call start true s;
                  appendHead_call (to_size_t (Z.max 0 start));
                  appendReplacement_call; appendTail_call]).
    { rewrite E, orchestration_app, Horch. reflexivity. }
    repeat apply conj.
    + exact Hf.
    + rewrite <- (count_orchestration is_appendReplacement (trace f))
        by (intros []; simpl; congruence).
      rewrite Hf. reflexivity.
    + rewrite <- (count_orchestration is_findNext (trace f))
        by (intros []; simpl; congruence).
      rewrite Hf. reflexivity.
Qed.

End Orchestration.

Section ReplaceAll.

Context {M : Type} {matcher : Matcher M}.
Variable remaining : M -> nat.
Context {exhaustible : Exhaustible remaining}.

(** With more fuel than the matcher has matches left after the search,
    lines 71 to 83 end. *)
Lemma build_ends_all (fuel : nat) r l (originalSize start occurrence : Z)
    (found : bool) (e : Z) (f : frame M) :
  (remaining (m_re f) < fuel)%nat ->
  build fuel r l originalSize start occurrence found e f <> OutOfFuel.
Proof.
  intros Hfuel. apply build_ends. intros g1 g2 E1 E2 _.
  apply (replace_loop_ends (remaining := remaining)).
  pose proof (keeps_resize remaining (to_size_t originalSize) f) as K1.
  rewrite E1 in K1.
  pose proof (keeps_appendHead (remaining := remaining)
                (to_size_t (Z.max e start)) g1) as K2.
  rewrite E2 in K2. unfold keeps_matches in *. lia.
Qed.

(** The calls of [replace] under selector 0: with enough fuel for the
    matches the matcher has left after the first find, [replace] ends,
    and when it returns the calls to [appendReplacement] are as many as
    the finds that reported a match.  When the first find reports one,
    the calls that follow [appendHead] are rounds of [appendReplacement]
    then [uregex_findNext], another round following exactly when that
    [uregex_findNext] reported a match, and [appendTail] after the one
    that did not. *)
Lemma replace_all_calls
    (fuel : nat) (regexp : M) (replacement : list UChar) (replacementLen : Z)
    (original : list UChar) (originalSize start : Z)
    (b : bool) (m1 : M) (s1 : UErrorCode) :
  uregex_find regexp start U_ZERO_ERROR = (b, m1, s1) ->
  (remaining m1 < fuel)%nat ->
  replace fuel regexp replacement replacementLen original originalSize
          start 0 <> OutOfFuel
  /\ forall res f,
       replace fuel regexp replacement replacementLen original originalSize
               start 0 = Return res f ->
       count is_appendReplacement (trace f) = count reports_match (trace f)
       /\ (b = true ->
           exists n loop,
             orchestration (trace f) =
               uregex_find_call start true s1
               :: appendHead_call (to_size_t (Z.max 0 start))
               :: loop ++ [appendTail_call]
             /\ replacing n loop).
Proof.
  intros Hfind Hfuel.
  assert (Hocc : 0 <= 1) by lia.
  rewrite replace_after_search with (1 := search_first start regexp Hocc Hfind).
  fields. split.
  - destruct (negb b && U_SUCCESS s1); [discriminate|].
    apply build_ends_all. exact Hfuel.
  - intros res f Hrun.
    destruct (negb b && U_SUCCESS s1) eqn:Egate.
    + injection Hrun as <- <-. fields.
      apply andb_prop in Egate. destruct Egate as [Eb _].
      apply negb_true_iff in Eb. subst b.
      split; [reflexivity | discriminate].
    + apply build_shape in Hrun.
      destruct Hrun as (lt & loop & E & Horch & Hloop). fields.
      assert (Hf : orchestration (trace f) =
                   uregex_find_call start b s1
                   :: appendHead_call (to_size_t (Z.max 0 start))
                   :: loop ++ [appendTail_call]).
      { rewrite E, orchestration_app, Horch. reflexivity. }
      rewrite <- (count_orchestration is_appendReplacement (trace f))
        by (intros []; simpl; congruence).
      rewrite <- (count_orchestration reports_match (trace f))
        by (intros []; simpl; congruence).
      rewrite Hf.
      change (uregex_find_call start b s1
              :: appendHead_call (to_size_t (Z.max 0 start))
              :: loop ++ [appendTail_call])
        with ([uregex_find_call start b s1;
               appendHead_call (to_size_t (Z.max 0 start))]
              ++ loop ++ [appendTail_call]).
      rewrite !count_app. unfold loop_shape in Hloop.
      destruct b.
      * destruct Hloop as (n & Hrep).
        destruct (replacing_counts Hrep) as (Ha & Hm & _).
        split.
        -- unfold count in *. simpl. lia.
        -- intros _. exists n, loop. split; [reflexivity | exact Hrep].
      * subst loop. split; [reflexivity | discriminate].
Qed.

End ReplaceAll.

(** ** The empty buffer *)

Section EmptyBuffer.

Context {M : Type} {matcher : Matcher M}.

Lemma resize_zero_on_empty (f : frame M) :
  m_replace_buffer f = [] ->
  resize 0 f =
  Return tt (Frame (m_re f) (m_error_code f) [] (m_replace_buffer_pos f)
                   (trace f ++ [resize_call 0])).
Proof.
  intros E. rewrite resize_ok by (unfold max_size; lia). rewrite E. reflexivity.
Qed.

Lemma appendReplacement_on_empty r l (f : frame M) :
  m_replace_buffer f = [] -> m_replace_buffer_pos f = 0 ->
  exists f', appendReplacement r l f = Return tt f' /\ stays_empty f f'.
Proof.
  intros Eb Ep. unfold appendReplacement, bind, note.
  rewrite tryToAppendReplacement_empty by exact Eb.
  unfold get_error_code, get_pos, set_error_code, set_pos, ret. fields.
  destruct (m_error_code f =? U_BUFFER_OVERFLOW_ERROR); fields; rewrite Ep;
    change (to_size_t (to_int (0 + 0))) with 0;
    change (to_int (0 + 0)) with 0.
  - rewrite resize_zero_on_empty by exact Eb. fields.
    rewrite tryToAppendReplacement_empty by reflexivity. fields.
    eexists. split; [reflexivity|]. unfold stays_empty. fields.
    repeat apply conj; try reflexivity; try assumption;
      try (rewrite Ep; reflexivity).
    exists [appendReplacement_call; resize_call 0].
    split; [rewrite <- app_assoc; reflexivity | repeat constructor].
  - eexists. split; [reflexivity|]. unfold stays_empty. fields.
    repeat apply conj; try reflexivity; try assumption;
      try (rewrite Ep; reflexivity).
    exists [appendReplacement_call]. split; [reflexivity | repeat constructor].
Qed.

Lemma appendTail_on_empty (f : frame M) :
  m_replace_buffer f = [] -> m_replace_buffer_pos f = 0 ->
  exists f', appendTail f = Return tt f' /\ stays_empty f f'.
Proof.
  intros Eb Ep. unfold appendTail, bind, note.
  rewrite tryToAppendTail_empty by exact Eb.
  unfold get_error_code, get_pos, set_error_code, set_pos, ret. fields.
  destruct (m_error_code f =? U_BUFFER_OVERFLOW_ERROR); fields; rewrite Ep;
    change (to_size_t (to_int (0 + 0))) with 0;
    change (to_int (0 + 0)) with 0.
  - rewrite resize_zero_on_empty by exact Eb. fields.
    rewrite tryToAppendTail_empty by reflexivity. fields.
    eexists. split; [reflexivity|]. unfold stays_empty. fields.
    repeat apply conj; try reflexivity; try assumption;
      try (rewrite Ep; reflexivity).
    exists [appendTail_call; resize_call 0].
    split; [rewrite <- app_assoc; reflexivity | repeat constructor].
  - eexists. split; [reflexivity|]. unfold stays_empty. fields.
    repeat apply conj; try reflexivity; try assumption;
      try (rewrite Ep; reflexivity).
    exists [appendTail_call]. split; [reflexivity | repeat constructor].
Qed.

Variable remaining : M -> nat.
Context {exhaustible : Exhaustible remaining}.

(** On an empty buffer the loop goes round without ever reaching the
    matcher's append entry point. *)
Lemma replace_loop_on_empty (occurrence : Z) r l (fuel : nat) :
  forall f : frame M,
    m_replace_buffer f = [] -> m_replace_buffer_pos f = 0 ->
    (remaining (m_re f) < fuel)%nat ->
    exists f',
      replace_loop fuel occurrence r l f = Return tt f'
      /\ m_replace_buffer f' = [] /\ m_replace_buffer_pos f' = 0
      /\ exists lt, trace f' = trace f ++ lt
                    /\ Forall (fun c => idle c = true) lt.
Proof.
  induction fuel as [|fuel IH]; intros f Eb Ep Hfuel; [lia|].
  simpl. unfold bind.
  destruct (appendReplacement_on_empty r l f Eb Ep)
    as (f1 & -> & Em & Eb1 & Ep1 & l1 & E1 & I1).
  destruct (occurrence =? 0).
  - destruct (call_findNext_run f1) as (b & m & s & Ecall & ->).
    destruct b.
    + match goal with |- context [replace_loop fuel occurrence r l ?g] =>
        destruct (IH g) as (f' & Erun & Eb' & Ep' & lt & Et & It)
      end; fields; auto.
      { apply findNext_remaining in Ecall. rewrite Em in Ecall. lia. }
      exists f'. repeat apply conj; auto.
      exists (l1 ++ uregex_findNext_call true s :: lt). split.
      * rewrite Et, E1, <- !app_assoc. reflexivity.
      * apply Forall_app. split; [exact I1|]. constructor; [reflexivity | exact It].
    + eexists. unfold ret. split; [reflexivity|]. fields.
      repeat apply conj; auto.
      exists (l1 ++ [uregex_findNext_call false s]). split.
      * rewrite E1, <- !app_assoc. reflexivity.
      * apply Forall_app. split; [exact I1 | repeat constructor].
  - exists f1. unfold ret. repeat apply conj; auto. exists l1. auto.
Qed.

End EmptyBuffer.

Section EmptyText.

Context {M : Type} {matcher : Matcher M}.
Variable remaining : M -> nat.
Context {exhaustible : Exhaustible remaining}.

Lemma idle_searches (l : list call) :
  Forall (fun c => searches c = true) l -> Forall (fun c => idle c = true) l.
Proof.
  apply Forall_impl. intros c Hc. destruct c; try discriminate Hc; reflexivity.
Qed.

Lemma idle_no_matcher_append (l : list call) :
  Forall (fun c => idle c = true) l -> count is_matcher_append l = 0%nat.
Proof.
  unfold count. induction 1 as [|c l Hc _ IH]; [reflexivity|].
  simpl. destruct c; try discriminate Hc; exact IH.
Qed.

(** Line 14: with size 0 [appendHead] returns at once. *)
Lemma appendHead_zero (f : frame M) :
  appendHead 0 f = Return tt (log (appendHead_call 0) f).
Proof. reflexivity. Qed.

(** C9: with [originalSize] 0 and a match selected by the search (and,
    the text being empty, 0 as the larger of [start] and the last
    skipped end), the buffer is empty when the appends are reached:
    [tryToAppendReplacement] and [tryToAppendTail] return 0 at their
    guard, the matcher's append entry points are never called, no
    [resize] asks for more than 0 units, and [replace] returns a newly
    allocated result of length 0 that holds no replacement text. *)
Theorem replace_on_empty_buffer_writes_nothing
    (fuel : nat) (regexp : M) (replacement : list UChar) (replacementLen : Z)
    (original : list UChar) (start occurrence : Z) (e : Z) (f1 : frame M) :
  search start occurrence (initial regexp) = Return (true, e) f1 ->
  Z.max e start = 0 ->
  (remaining (m_re f1) < fuel)%nat ->
  exists f,
    replace fuel regexp replacement replacementLen original 0 start occurrence
    = Return (Fresh [] 0 0, 0) f
    /\ Forall (fun c => idle c = true) (trace f)
    /\ count is_matcher_append (trace f) = 0%nat.
Proof.
  intros Hsearch Hmax Hfuel.
  destruct (search_spec start occurrence (initial regexp))
    as (found & e' & f' & b & s & ls & Hrun & Hbuf & Hpos & Htr & Hall & _).
  rewrite Hsearch in Hrun. injection Hrun as <- <- <-.
  simpl in Hbuf, Hpos, Htr.
  rewrite replace_after_search with (1 := Hsearch). simpl.
  unfold build. rewrite Hmax.
  change (to_size_t 0) with 0. unfold bind at 1.
  rewrite resize_zero_on_empty by exact Hbuf. unfold bind at 1.
  rewrite appendHead_zero. unfold bind. fields.
  match goal with |- context [replace_loop fuel occurrence ?r ?l ?g] =>
    destruct (replace_loop_on_empty (remaining := remaining) occurrence r l
                (fuel := fuel) g)
      as (f2 & -> & Eb2 & Ep2 & l2 & E2 & I2)
  end; fields; auto.
  destruct (appendTail_on_empty f2 Eb2 Ep2)
    as (f3 & -> & _ & Eb3 & Ep3 & l3 & E3 & I3).
  rewrite finalize_run
    by (rewrite Ep3; change (to_size_t 0) with 0; unfold max_size; lia).
  rewrite Eb3, Ep3. change (to_size_t 0) with 0.
  change (resized [] 0) with (@nil UChar). simpl.
  eexists. split; [reflexivity|]. fields.
  assert (Hidle : Forall (fun c => idle c = true)
                    (trace f3 ++ [resize_call 0; malloc_call 0; memcpy_call 0])).
  { rewrite E3, E2, Htr. fields.
    repeat (apply Forall_app; split); auto; try solve [repeat constructor].
    constructor; [reflexivity | apply idle_searches; exact Hall]. }
  split; [exact Hidle | apply idle_no_matcher_append; exact Hidle].
Qed.

End EmptyText.

(** ** Overflow, resize and retry *)

Section Overflow.

Context {M : Type} {matcher : Matcher M}.

(** Lines 31 to 38 when the first attempt leaves the overflow code: the
    buffer is resized to the cursor plus the reported length, the code
    is cleared, the matcher is called a second time, and the cursor
    moves by the length the first attempt reported, whatever the second
    attempt returned. *)
Lemma appendReplacement_overflow_path r l (f : frame M)
    capacity n1 w1 m1 n2 w2 m2 s2 :
  empty (m_replace_buffer f) = false ->
  within_capacity f ->
  capacity = size (m_replace_buffer f) - m_replace_buffer_pos f ->
  uregex_appendReplacement (m_re f) r l capacity (m_error_code f)
  = ((n1, w1), m1, U_BUFFER_OVERFLOW_ERROR) ->
  size w1 <= capacity ->
  0 <= n1 -> 0 < m_replace_buffer_pos f + n1 <= INT_MAX ->
  uregex_appendReplacement m1 r l n1 U_ZERO_ERROR = ((n2, w2), m2, s2) ->
  size w2 <= n1 ->
  appendReplacement r l f =
  Return tt
    (Frame m2 s2
       (overwrite
          (resized (overwrite (m_replace_buffer f)
                              (Z.to_nat (m_replace_buffer_pos f)) w1)
                   (m_replace_buffer_pos f + n1))
          (Z.to_nat (m_replace_buffer_pos f)) w2)
       (m_replace_buffer_pos f + n1)
       (trace f ++ [appendReplacement_call;
                    uregex_appendReplacement_call capacity (m_error_code f) n1
                                                  U_BUFFER_OVERFLOW_ERROR;
                    resize_call (m_replace_buffer_pos f + n1);
                    uregex_appendReplacement_call n1 U_ZERO_ERROR n2 s2])).
Proof.
  intros Hne Hinv Hcap Hcall1 Hw1 Hn1 Hfit Hcall2 Hw2.
  pose proof Hinv as [Hpos Hsz]. unfold INT_MAX in *.
  unfold appendReplacement, bind, note.
  rewrite (@tryToAppendReplacement_call _ _ r l (log appendReplacement_call f)
             capacity n1 w1 m1 U_BUFFER_OVERFLOW_ERROR); auto.
  unfold get_error_code, get_pos, set_error_code, bind. fields.
  change (U_BUFFER_OVERFLOW_ERROR =? U_BUFFER_OVERFLOW_ERROR) with true.
  cbv beta iota. fields.
  rewrite (to_int_small (z := m_replace_buffer_pos f + n1)) by lia.
  rewrite (to_size_t_small (z := m_replace_buffer_pos f + n1)) by lia.
  rewrite resize_ok by (unfold max_size; lia). fields.
  match goal with |- context [tryToAppendReplacement r l ?g] =>
    rewrite (@tryToAppendReplacement_call _ _ r l g n1 n2 w2 m2 s2)
  end; fields.
  - unfold ret, set_pos. fields.
    rewrite to_int_small by lia. rewrite <- !app_assoc. reflexivity.
  - apply not_true_is_false. intros E. apply empty_size in E.
    rewrite size_resized in E by lia. lia.
  - unfold within_capacity. fields.
    rewrite size_resized by lia. unfold INT_MAX. lia.
  - rewrite size_resized by lia. lia.
  - exact Hcall2.
  - exact Hw2.
Qed.

Lemma appendTail_overflow_path (f : frame M) capacity n1 w1 m1 n2 w2 m2 s2 :
  empty (m_replace_buffer f) = false ->
  within_capacity f ->
  capacity = size (m_replace_buffer f) - m_replace_buffer_pos f ->
  uregex_appendTail (m_re f) capacity (m_error_code f)
  = ((n1, w1), m1, U_BUFFER_OVERFLOW_ERROR) ->
  size w1 <= capacity ->
  0 <= n1 -> 0 < m_replace_buffer_pos f + n1 <= INT_MAX ->
  uregex_appendTail m1 n1 U_ZERO_ERROR = ((n2, w2), m2, s2) ->
  size w2 <= n1 ->
  appendTail f =
  Return tt
    (Frame m2 s2
       (overwrite
          (resized (overwrite (m_replace_buffer f)
                              (Z.to_nat (m_replace_buffer_pos f)) w1)
                   (m_replace_buffer_pos f + n1))
          (Z.to_nat (m_replace_buffer_pos f)) w2)
       (m_replace_buffer_pos f + n1)
       (trace f ++ [appendTail_call;
                    uregex_appendTail_call capacity (m_error_code f) n1
                                           U_BUFFER_OVERFLOW_ERROR;
                    resize_call (m_replace_buffer_pos f + n1);
                    uregex_appendTail_call n1 U_ZERO_ERROR n2 s2])).
Proof.
  intros Hne Hinv Hcap Hcall1 Hw1 Hn1 Hfit Hcall2 Hw2.
  pose proof Hinv as [Hpos Hsz]. unfold INT_MAX in *.
  unfold appendTail, bind, note.
  rewrite (@tryToAppendTail_call _ _ (log appendTail_call f)
             capacity n1 w1 m1 U_BUFFER_OVERFLOW_ERROR); auto.
  unfold get_error_code, get_pos, set_error_code, bind. fields.
  change (U_BUFFER_OVERFLOW_ERROR =? U_BUFFER_OVERFLOW_ERROR) with true.
  cbv beta iota. fields.
  rewrite (to_int_small (z := m_replace_buffer_pos f + n1)) by lia.
  rewrite (to_size_t_small (z := m_replace_buffer_pos f + n1)) by lia.
  rewrite resize_ok by (unfold max_size; lia). fields.
  match goal with |- context [tryToAppendTail ?g] =>
    rewrite (@tryToAppendTail_call _ _ g n1 n2 w2 m2 s2)
  end; fields.
  - unfold ret, set_pos. fields.
    rewrite to_int_small by lia. rewrite <- !app_assoc. reflexivity.
  - apply not_true_is_false. intros E. apply empty_size in E.
    rewrite size_resized in E by lia. lia.
  - unfold within_capacity. fields.
    rewrite size_resized by lia. unfold INT_MAX. lia.
  - rewrite size_resized by lia. lia.
  - exact Hcall2.
  - exact Hw2.
Qed.

Lemma size_overwrite_within (b : u16string) (pos : Z) (w : list UChar) :
  0 <= pos -> pos + size w <= size b ->
  size (overwrite b (Z.to_nat pos) w) = size b.
Proof.
  intros H0 H1. apply size_overwrite. unfold size in *. lia.
Qed.

End Overflow.

Section ExactRetry.

Context {M : Type} {matcher : Matcher M} {exact : ExactOverflow}.

(** C5: when the matcher, entered with a success code on a non-empty
    buffer, signals overflow and reports the length [n] it needs,
    [appendReplacement] and [appendTail] each resize the buffer to
    exactly cursor + [n], call the matcher once more with the code
    cleared to [U_ZERO_ERROR], the same arguments and capacity [n], and
    end with the cursor advanced by [n], the length the retry returns;
    the code left behind is the retry's, a success, so the overflow does
    not leave the helper. *)
Theorem append_overflow_is_resized_and_retried_once :
  (forall r l (f : frame M) n w m1,
      empty (m_replace_buffer f) = false ->
      within_capacity f ->
      U_SUCCESS (m_error_code f) = true ->
      uregex_appendReplacement (m_re f) r l
        (size (m_replace_buffer f) - m_replace_buffer_pos f) (m_error_code f)
      = ((n, w), m1, U_BUFFER_OVERFLOW_ERROR) ->
      m_replace_buffer_pos f + n <= INT_MAX ->
      exists f' s2,
        appendReplacement r l f = Return tt f'
        /\ size (m_replace_buffer f') = m_replace_buffer_pos f + n
        /\ m_replace_buffer_pos f' = m_replace_buffer_pos f + n
        /\ m_error_code f' = s2 /\ U_SUCCESS s2 = true
        /\ trace f' =
           trace f ++
           [appendReplacement_call;
            uregex_appendReplacement_call
              (size (m_replace_buffer f) - m_replace_buffer_pos f)
              (m_error_code f) n U_BUFFER_OVERFLOW_ERROR;
            resize_call (m_replace_buffer_pos f + n);
            uregex_appendReplacement_call n U_ZERO_ERROR n s2])
  /\ (forall (f : frame M) n w m1,
        empty (m_replace_buffer f) = false ->
        within_capacity f ->
        U_SUCCESS (m_error_code f) = true ->
        uregex_appendTail (m_re f)
          (size (m_replace_buffer f) - m_replace_buffer_pos f) (m_error_code f)
        = ((n, w), m1, U_BUFFER_OVERFLOW_ERROR) ->
        m_replace_buffer_pos f + n <= INT_MAX ->
        exists f' s2,
          appendTail f = Return tt f'
          /\ size (m_replace_buffer f') = m_replace_buffer_pos f + n
          /\ m_replace_buffer_pos f' = m_replace_buffer_pos f + n
          /\ m_error_code f' = s2 /\ U_SUCCESS s2 = true
          /\ trace f' =
             trace f ++
             [appendTail_call;
              uregex_appendTail_call
                (size (m_replace_buffer f) - m_replace_buffer_pos f)
                (m_error_code f) n U_BUFFER_OVERFLOW_ERROR;
              resize_call (m_replace_buffer_pos f + n);
              uregex_appendTail_call n U_ZERO_ERROR n s2]).
Proof.
  split.
  - intros r l f n w m1 Hne Hinv Hok Hcall Hfit.
    pose proof Hinv as [Hpos Hsz].
    assert (Hcap : 0 <= size (m_replace_buffer f) - m_replace_buffer_pos f)
      by lia.
    edestruct (@appendReplacement_exact M matcher exact)
      as (Hn & Hw & w2 & m2 & s2 & Hretry & Hok2 & Hw2);
      [exact Hcap | exact Hok | exact Hcall |].
    exists (Frame m2 s2
              (overwrite
                 (resized (overwrite (m_replace_buffer f)
                                     (Z.to_nat (m_replace_buffer_pos f)) w)
                          (m_replace_buffer_pos f + n))
                 (Z.to_nat (m_replace_buffer_pos f)) w2)
              (m_replace_buffer_pos f + n)
              (trace f ++ [appendReplacement_call;
                           uregex_appendReplacement_call
                             (size (m_replace_buffer f) - m_replace_buffer_pos f)
                             (m_error_code f) n U_BUFFER_OVERFLOW_ERROR;
                           resize_call (m_replace_buffer_pos f + n);
                           uregex_appendReplacement_call n U_ZERO_ERROR n s2])),
      s2.
    split.
    + eapply appendReplacement_overflow_path; eauto; lia.
    + fields. repeat apply conj; auto.
      rewrite size_overwrite_within; rewrite ?size_resized; lia.
  - intros f n w m1 Hne Hinv Hok Hcall Hfit.
    pose proof Hinv as [Hpos Hsz].
    assert (Hcap : 0 <= size (m_replace_buffer f) - m_replace_buffer_pos f)
      by lia.
    edestruct (@appendTail_exact M matcher exact)
      as (Hn & Hw & w2 & m2 & s2 & Hretry & Hok2 & Hw2);
      [exact Hcap | exact Hok | exact Hcall |].
    exists (Frame m2 s2
              (overwrite
                 (resized (overwrite (m_replace_buffer f)
                                     (Z.to_nat (m_replace_buffer_pos f)) w)
                          (m_replace_buffer_pos f + n))
                 (Z.to_nat (m_replace_buffer_pos f)) w2)
              (m_replace_buffer_pos f + n)
              (trace f ++ [appendTail_call;
                           uregex_appendTail_call
                             (size (m_replace_buffer f) - m_replace_buffer_pos f)
                             (m_error_code f) n U_BUFFER_OVERFLOW_ERROR;
                           resize_call (m_replace_buffer_pos f + n);
                           uregex_appendTail_call n U_ZERO_ERROR n s2])),
      s2.
    split.
    + eapply appendTail_overflow_path; eauto; lia.
    + fields. repeat apply conj; auto.
      rewrite size_overwrite_within; rewrite ?size_resized; lia.
Qed.

End ExactRetry.

(** ** The cursor stays within the capacity *)

Section Capacity.

Context {M : Type} {matcher : Matcher M}.

Lemma retrying_fits (try : @cmd M Z) :
  attempt_fits try ->
  forall f : frame M,
    within_capacity f ->
    match retrying try f with
    | Return _ f' => U_SUCCESS (m_error_code f') = true -> within_capacity f'
    | Abort x _ => x = length_error
    | OutOfFuel => False
    end.
Proof.
  intros Htry f [Hpos Hsz].
  unfold retrying, bind.
  destruct (Htry f) as (n & f1 & -> & Hs1 & Hp1 & Hn);
    [unfold INT_MAX in *; lia | lia |].
  unfold get_error_code, get_pos, set_error_code, set_pos, ret.
  destruct (m_error_code f1 =? U_BUFFER_OVERFLOW_ERROR) eqn:E.
  - rewrite Hp1.
    destruct (Z_le_gt_dec (to_size_t (to_int (m_replace_buffer_pos f + n))) max_size)
      as [Hok|Hbig].
    + destruct (to_int_resizable _ Hok) as [Hr Er].
      rewrite resize_ok by exact Hok. fields.
      match goal with |- context [try ?g] =>
        destruct (Htry g) as (n2 & f3 & -> & Hs3 & Hp3 & _)
      end; fields.
      * rewrite Hp1. unfold INT_MAX in *. lia.
      * rewrite Er, size_resized by lia. lia.
      * intros _. rewrite Er, size_resized in Hs3 by lia.
        unfold within_capacity. fields. rewrite Hs3, Hp3, Hp1. lia.
    + rewrite resize_throws by lia. reflexivity.
  - fields. intros Hok. destruct (Hn ltac:(lia)) as [Hn0 Hfit].
    specialize (Hfit Hok).
    unfold within_capacity. fields. rewrite Hs1, Hp1.
    rewrite to_int_small by (unfold INT_MAX in *; lia). lia.
Qed.

(** Units stored by a matcher that keeps to its capacity land in the
    buffer. *)
Lemma stored_within (w : list UChar) (f : frame M) :
  0 <= m_replace_buffer_pos f ->
  size w <= Z.max 0 (size (m_replace_buffer f) - m_replace_buffer_pos f) ->
  exists b,
    stored w f =
    Return tt (Frame (m_re f) (m_error_code f) b (m_replace_buffer_pos f)
                     (trace f))
    /\ size b = size (m_replace_buffer f).
Proof.
  intros Hpos Hw. destruct w as [|c w].
  - exists (m_replace_buffer f). split; [destruct f; reflexivity | reflexivity].
  - assert (Hlen : 1 <= size (c :: w)) by (unfold size; simpl; lia).
    exists (overwrite (m_replace_buffer f)
                      (Z.to_nat (m_replace_buffer_pos f)) (c :: w)).
    split.
    + apply stored_ok; lia.
    + apply size_overwrite. unfold size in *. lia.
Qed.

Context {within : WithinCapacity}.

Lemma tryToAppendReplacement_fits r l :
  attempt_fits (tryToAppendReplacement r l).
Proof.
  intros f Hpos Hsz. pose proof (size_nonneg (m_replace_buffer f)) as Hs0.
  unfold tryToAppendReplacement, bind, get_buffer, get_pos.
  destruct (empty (m_replace_buffer f)) eqn:Eempty.
  - exists 0, f. unfold ret. repeat apply conj; auto; lia.
  - rewrite capacity_any by lia.
    unfold call_appendReplacement.
    destruct (uregex_appendReplacement _ _ _ _ _) as [[[n w] m'] s'] eqn:Ecall.
    apply appendReplacement_within in Ecall. destruct Ecall as [Hw Hn].
    unfold bind, ret.
    match goal with |- context [stored w ?g] =>
      destruct (stored_within w g) as (b & -> & Hb)
    end; fields; try lia.
    eexists _, _. split; [reflexivity|]. fields.
    repeat apply conj; auto. intros Hin.
    destruct (Hn ltac:(lia)) as [Hn0 Hfit]. split; [exact Hn0|].
    intros Hok. specialize (Hfit Hok). lia.
Qed.

Lemma tryToAppendTail_fits : attempt_fits (@tryToAppendTail M _).
Proof.
  intros f Hpos Hsz. pose proof (size_nonneg (m_replace_buffer f)) as Hs0.
  unfold tryToAppendTail, bind, get_buffer, get_pos.
  destruct (empty (m_replace_buffer f)) eqn:Eempty.
  - exists 0, f. unfold ret. repeat apply conj; auto; lia.
  - rewrite capacity_any by lia.
    unfold call_appendTail.
    destruct (uregex_appendTail _ _ _) as [[[n w] m'] s'] eqn:Ecall.
    apply appendTail_within in Ecall. destruct Ecall as [Hw Hn].
    unfold bind, ret.
    match goal with |- context [stored w ?g] =>
      destruct (stored_within w g) as (b & -> & Hb)
    end; fields; try lia.
    eexists _, _. split; [reflexivity|]. fields.
    repeat apply conj; auto. intros Hin.
    destruct (Hn ltac:(lia)) as [Hn0 Hfit]. split; [exact Hn0|].
    intros Hok. specialize (Hfit Hok). lia.
Qed.

Lemma appendHead_fits (size_ : Z) (f : frame M) :
  within_capacity f -> 0 <= size_ <= INT_MAX ->
  ends_within (fun _ => True) (appendHead size_ f).
Proof.
  intros [Hpos Hsz] Hsize. unfold ends_within, appendHead, bind, note.
  destruct (size_ =? 0); [intros _; split; assumption|].
  unfold call_getText. fields.
  destruct (uregex_getText _ _) as [[text m'] s'].
  unfold get_error_code, get_buffer. fields.
  destruct (negb (s' =? U_ZERO_ERROR)); [intros _; split; assumption|].
  unfold ret, std_copy, set_buffer, set_pos.
  assert (Hcopy : forall b : u16string,
             size_ <= size b ->
             size (overwrite b 0 (firstn (Z.to_nat size_) text)) = size b).
  { intros b Hb. apply size_overwrite. rewrite length_firstn.
    unfold size in Hb. lia. }
  fields.
  destruct (size (m_replace_buffer f) <? size_) eqn:Egrow.
  - apply Z.ltb_lt in Egrow.
    rewrite resize_ok by (unfold max_size, INT_MAX in *; lia). fields.
    destruct (size text <? size_); [discriminate|].
    rewrite size_resized by lia. rewrite Z.ltb_irrefl.
    intros _. unfold within_capacity. fields.
    rewrite Hcopy by (rewrite size_resized; lia).
    rewrite size_resized, to_int_small by (unfold INT_MAX in *; lia). lia.
  - apply Z.ltb_ge in Egrow. fields.
    destruct (size text <? size_); [discriminate|]. fields.
    destruct (size (m_replace_buffer f) <? size_) eqn:E;
      [apply Z.ltb_lt in E; lia|].
    intros _. unfold within_capacity. fields.
    rewrite Hcopy by lia.
    rewrite to_int_small by (unfold INT_MAX in *; lia). lia.
Qed.

(** C8: for a matcher that keeps to the capacity it is given, the three
    appends keep the cursor within the capacity.  From a frame where
    0 <= position <= capacity <= INT_MAX, [appendHead] (for a size that
    fits an [int]) always ends in such a frame when it returns, and
    [appendReplacement] and [appendTail] do whenever they return with a
    success code; none of the three ever stops for a write past the
    buffer: what the matcher is asked to write fits the capacity left,
    or the buffer is grown first. *)
Theorem successful_append_stays_within_capacity :
  (forall (size_ : Z) (f : frame M),
      within_capacity f -> 0 <= size_ <= INT_MAX ->
      ends_within (fun _ => True) (appendHead size_ f))
  /\ (forall r l (f : frame M),
        within_capacity f ->
        ends_within (fun f' => U_SUCCESS (m_error_code f') = true)
                    (appendReplacement r l f))
  /\ (forall f : frame M,
        within_capacity f ->
        ends_within (fun f' => U_SUCCESS (m_error_code f') = true)
                    (appendTail f)).
Proof.
  repeat apply conj.
  - intros size_ f Hin Hsize. apply appendHead_fits; assumption.
  - intros r l f Hin.
    pose proof (retrying_fits (tryToAppendReplacement_fits r l)
                  (f := log appendReplacement_call f) Hin) as H.
    change (appendReplacement r l f)
      with (retrying (tryToAppendReplacement r l) (log appendReplacement_call f)).
    unfold ends_within.
    destruct (retrying _ _); [exact H | subst; discriminate | exact H].
  - intros f Hin.
    pose proof (retrying_fits tryToAppendTail_fits
                  (f := log appendTail_call f) Hin) as H.
    change (appendTail f)
      with (retrying tryToAppendTail (log appendTail_call f)).
    unfold ends_within.
    destruct (retrying _ _); [exact H | subst; discriminate | exact H].
Qed.

End Capacity.

(** ** A second overflow *)

Section SecondOverflow.

Context {M : Type} {matcher : Matcher M}.

(** C7, as the code has it: when the retry after the resize leaves the
    overflow code again, [appendReplacement] and [appendTail] return
    normally all the same, with that code still in [m_error_code], the
    buffer at the size asked for after the first attempt and the cursor
    advanced by the length the first attempt reported, as after a retry
    that succeeded. *)
Theorem second_overflow_goes_unnoticed :
  (forall r l (f : frame M) n1 w1 m1 n2 w2 m2,
      empty (m_replace_buffer f) = false ->
      within_capacity f ->
      uregex_appendReplacement (m_re f) r l
        (size (m_replace_buffer f) - m_replace_buffer_pos f) (m_error_code f)
      = ((n1, w1), m1, U_BUFFER_OVERFLOW_ERROR) ->
      size w1 <= size (m_replace_buffer f) - m_replace_buffer_pos f ->
      0 <= n1 -> 0 < m_replace_buffer_pos f + n1 <= INT_MAX ->
      uregex_appendReplacement m1 r l n1 U_ZERO_ERROR
      = ((n2, w2), m2, U_BUFFER_OVERFLOW_ERROR) ->
      size w2 <= n1 ->
      exists f',
        appendReplacement r l f = Return tt f'
        /\ m_error_code f' = U_BUFFER_OVERFLOW_ERROR
        /\ m_replace_buffer_pos f' = m_replace_buffer_pos f + n1
        /\ size (m_replace_buffer f') = m_replace_buffer_pos f + n1)
  /\ (forall (f : frame M) n1 w1 m1 n2 w2 m2,
        empty (m_replace_buffer f) = false ->
        within_capacity f ->
        uregex_appendTail (m_re f)
          (size (m_replace_buffer f) - m_replace_buffer_pos f) (m_error_code f)
        = ((n1, w1), m1, U_BUFFER_OVERFLOW_ERROR) ->
        size w1 <= size (m_replace_buffer f) - m_replace_buffer_pos f ->
        0 <= n1 -> 0 < m_replace_buffer_pos f + n1 <= INT_MAX ->
        uregex_appendTail m1 n1 U_ZERO_ERROR
        = ((n2, w2), m2, U_BUFFER_OVERFLOW_ERROR) ->
        size w2 <= n1 ->
        exists f',
          appendTail f = Return tt f'
          /\ m_error_code f' = U_BUFFER_OVERFLOW_ERROR
          /\ m_replace_buffer_pos f' = m_replace_buffer_pos f + n1
          /\ size (m_replace_buffer f') = m_replace_buffer_pos f + n1).
Proof.
  split.
  - intros r l f n1 w1 m1 n2 w2 m2 Hne Hin Hcall1 Hw1 Hn1 Hfit Hcall2 Hw2.
    pose proof Hin as [Hpos Hsz].
    eexists. split.
    + eapply appendReplacement_overflow_path; eauto.
    + fields. repeat apply conj; try reflexivity.
      rewrite size_overwrite_within; rewrite ?size_resized; lia.
  - intros f n1 w1 m1 n2 w2 m2 Hne Hin Hcall1 Hw1 Hn1 Hfit Hcall2 Hw2.
    pose proof Hin as [Hpos Hsz].
    eexists. split.
    + eapply appendTail_overflow_path; eauto.
    + fields. repeat apply conj; try reflexivity.
      rewrite size_overwrite_within; rewrite ?size_resized; lia.
Qed.

End SecondOverflow.

(** C7, as the spec has it, fails: with the under-reporting matcher, a
    two-unit buffer and a five-unit replacement, both attempts of
    [appendReplacement] overflow, then both attempts of [appendTail],
    and [replace] still returns the four units that fitted as a
    finished result, the overflow code staying in its local
    [m_error_code]. *)
Lemma second_overflow_still_returns_a_result :
  exists f,
    replace 1 (true : Misreporting.t) (utf16 "XXXXX") 5 (utf16 "ab") 2 0 1
    = Return (Fresh (utf16 "XXX-") 32 32, 4) f
    /\ m_error_code f = U_BUFFER_OVERFLOW_ERROR
    /\ trace f =
       [uregex_find_call 0 true 0; resize_call 2; appendHead_call 0;
        appendReplacement_call;
        uregex_appendReplacement_call 2 0 3 U_BUFFER_OVERFLOW_ERROR;
        resize_call 3;
        uregex_appendReplacement_call 3 0 4 U_BUFFER_OVERFLOW_ERROR;
        appendTail_call;
        uregex_appendTail_call 0 U_BUFFER_OVERFLOW_ERROR 1
                               U_BUFFER_OVERFLOW_ERROR;
        resize_call 4;
        uregex_appendTail_call 1 0 2 U_BUFFER_OVERFLOW_ERROR;
        resize_call 4; malloc_call 32; memcpy_call 32].
Proof.
  eexists. split; [vm_compute; reflexivity|].
  split; vm_compute; reflexivity.
Qed.

(** ** A fault in the search phase *)

Section Fault.

Context {M : Type} {matcher : Matcher M} {sticky : StickyFailure}.

Lemma U_FAILURE_not_zero (s : UErrorCode) :
  U_FAILURE s = true -> (s =? U_ZERO_ERROR) = false /\ U_SUCCESS s = false.
Proof.
  unfold U_FAILURE, U_SUCCESS, U_ZERO_ERROR. intros H. apply Z.ltb_lt in H.
  split; [apply Z.eqb_neq | apply Z.leb_gt]; lia.
Qed.

Lemma skip_loop_failure (n : nat) :
  forall (found : bool) (e0 : Z) (f : frame M) found' e' f',
    (U_FAILURE (m_error_code f) = true -> found = false) ->
    skip_loop n found e0 f = Return (found', e') f' ->
    U_FAILURE (m_error_code f') = true -> found' = false.
Proof.
  induction n as [|n IH]; intros found e0 f found' e' f' Hf Hrun Hfail.
  - simpl in Hrun. injection Hrun as <- <- <-. auto.
  - simpl in Hrun. destruct found.
    + unfold bind, call_end, call_findNext in Hrun.
      destruct (uregex_end _ _ _) as [[r m1] s1]. fields.
      destruct (uregex_findNext m1 s1) as [[b m2] s2] eqn:Enext.
      eapply IH; [|exact Hrun|exact Hfail]. fields.
      intros H. eapply findNext_failure; eauto.
    + injection Hrun as <- <- <-. reflexivity.
Qed.

(** A search that ends with a failure code ends without a match. *)
Lemma search_failure (start occurrence : Z) (f : frame M) found e f1 :
  search start occurrence f = Return (found, e) f1 ->
  U_FAILURE (m_error_code f1) = true -> found = false.
Proof.
  unfold search, bind, call_find.
  destruct (uregex_find _ _ _) as [[b m1] s1] eqn:Efind.
  intros Hrun Hfail. eapply skip_loop_failure; [|exact Hrun|exact Hfail].
  fields. intros H. eapply find_failure; eauto.
Qed.

(** Line 17: under a failure code [appendHead] copies nothing. *)
Lemma appendHead_on_failure (size_ : Z) (f : frame M) :
  U_FAILURE (m_error_code f) = true ->
  exists f',
    appendHead size_ f = Return tt f'
    /\ m_replace_buffer f' = m_replace_buffer f
    /\ m_replace_buffer_pos f' = m_replace_buffer_pos f
    /\ m_error_code f' = m_error_code f.
Proof.
  intros Hfail. unfold appendHead, bind, note.
  destruct (size_ =? 0).
  - eexists. split; [reflexivity|]. fields. auto.
  - unfold call_getText. fields.
    destruct (uregex_getText _ _) as [[text m'] s'] eqn:Etext.
    apply getText_failure in Etext; [|exact Hfail]. subst s'.
    unfold get_error_code. fields.
    destruct (U_FAILURE_not_zero _ Hfail) as [-> _]. simpl.
    eexists. split; [reflexivity|]. fields. auto.
Qed.

(** Lines 49 to 56 under a failure code other than the overflow one: the
    matcher appends nothing and the cursor stays at 0. *)
Lemma appendTail_on_failure (f : frame M) :
  U_FAILURE (m_error_code f) = true ->
  m_error_code f <> U_BUFFER_OVERFLOW_ERROR ->
  m_replace_buffer_pos f = 0 ->
  size (m_replace_buffer f) <= INT_MAX ->
  exists f',
    appendTail f = Return tt f'
    /\ m_replace_buffer_pos f' = 0
    /\ m_error_code f' = m_error_code f.
Proof.
  intros Hfail Hno Hpos Hsz.
  pose proof (size_nonneg (m_replace_buffer f)) as Hs0.
  apply Z.eqb_neq in Hno.
  unfold appendTail, bind, note.
  unfold tryToAppendTail, bind, get_buffer, get_pos. fields.
  destruct (empty (m_replace_buffer f)).
  - unfold ret, get_error_code, get_pos, set_pos. fields.
    rewrite Hno. fields. rewrite Hpos.
    eexists. split; [reflexivity|]. fields. auto.
  - fields. rewrite Hpos, capacity_any by (unfold INT_MAX in *; lia).
    unfold call_appendTail. fields.
    destruct (uregex_appendTail _ _ _) as [[[n w] m'] s'] eqn:Ecall.
    apply appendTail_failure in Ecall;
      [|exact Hfail|apply Z.eqb_neq; exact Hno].
    destruct Ecall as (-> & -> & ->).
    unfold bind, stored, ret, get_error_code, get_pos, set_pos. fields.
    rewrite Hno. fields. rewrite Hpos.
    eexists. split; [reflexivity|]. fields. auto.
Qed.

(** C4, as the code has it: [replace] has no error output.  When the
    search phase ends with a failure code other than the overflow one,
    from a matcher that follows ICU's convention for failure codes,
    [replace] does not return the original: [appendHead] and
    [appendTail] still run, add nothing, and [replace] returns a newly
    allocated buffer of length 0, the code staying in its local
    [m_error_code]. *)
Theorem search_fault_returns_new_empty_buffer
    (fuel : nat) (regexp : M) (replacement : list UChar) (replacementLen : Z)
    (original : list UChar) (originalSize start occurrence : Z)
    (found : bool) (e : Z) (f1 : frame M) :
  search start occurrence (initial regexp) = Return (found, e) f1 ->
  U_FAILURE (m_error_code f1) = true ->
  m_error_code f1 <> U_BUFFER_OVERFLOW_ERROR ->
  0 <= originalSize <= INT_MAX ->
  exists f,
    replace fuel regexp replacement replacementLen original originalSize
            start occurrence
    = Return (Fresh [] 0 0, 0) f
    /\ m_error_code f = m_error_code f1.
Proof.
  intros Hsearch Hfail Hno Hsize.
  pose proof (search_failure _ _ _ Hsearch Hfail) as ->.
  destruct (search_spec start occurrence (initial regexp))
    as (found & e' & f' & b & s & ls & Hrun & Hbuf & Hpos & _).
  rewrite Hsearch in Hrun. injection Hrun as <- <- <-.
  simpl in Hbuf, Hpos.
  rewrite replace_after_search with (1 := Hsearch).
  destruct (U_FAILURE_not_zero _ Hfail) as [_ ->]. simpl.
  unfold build. unfold bind at 1.
  rewrite to_size_t_small by (unfold INT_MAX in *; lia).
  rewrite resize_ok by (unfold INT_MAX, max_size in *; lia).
  unfold bind at 1.
  match goal with |- context [appendHead ?n ?g] =>
    destruct (appendHead_on_failure n g) as (f2 & -> & Eb2 & Ep2 & Es2)
  end; [exact Hfail|]. fields.
  unfold bind at 1. unfold ret. unfold bind at 1.
  destruct (appendTail_on_failure f2) as (f3 & -> & Ep3 & Es3).
  - rewrite Es2. exact Hfail.
  - rewrite Es2. exact Hno.
  - rewrite Ep2. exact Hpos.
  - rewrite Eb2, size_resized; lia.
  - rewrite finalize_run
      by (rewrite Ep3; change (to_size_t 0) with 0; unfold max_size; lia).
    rewrite Ep3. change (to_size_t 0) with 0.
    change (resized (m_replace_buffer f3) 0) with (@nil UChar). simpl.
    eexists. split; [reflexivity|]. fields. congruence.
Qed.

End Fault.

(** C4, as the spec has it, fails: a start offset beyond the text makes
    the first find fail with [U_INDEX_OUTOFBOUNDS_ERROR]; [replace] goes
    on and returns a newly allocated empty result, and the code is only
    in the frame it leaves behind. *)
Lemma matcher_fault_still_returns_a_buffer :
  exists f,
    replace 1 a_b_a_b (utf16 "X") 1 (utf16 "a-b-a-b") 7 100 1
    = Return (Fresh [] 0 0, 0) f
    /\ m_error_code f = U_INDEX_OUTOFBOUNDS_ERROR
    /\ trace f =
       [uregex_find_call 100 false U_INDEX_OUTOFBOUNDS_ERROR;
        resize_call 7; appendHead_call 100;
        uregex_getText_call U_INDEX_OUTOFBOUNDS_ERROR;
        appendTail_call;
        uregex_appendTail_call 7 U_INDEX_OUTOFBOUNDS_ERROR 0
                               U_INDEX_OUTOFBOUNDS_ERROR;
        resize_call 0; malloc_call 0; memcpy_call 0].
Proof.
  eexists. split; [vm_compute; reflexivity|].
  split; vm_compute; reflexivity.
Qed.

(** ** The reference matcher keeps the contracts *)

Module SpanMatcherFacts.
Import SpanMatcher.

Lemma U_SUCCESS_not_failure s : U_SUCCESS s = true -> U_FAILURE s = false.
Proof.
  unfold U_SUCCESS, U_FAILURE. intros H. apply Z.leb_le in H.
  apply Z.ltb_ge. exact H.
Qed.

Lemma U_FAILURE_not_success s : U_FAILURE s = false -> U_SUCCESS s = true.
Proof.
  unfold U_SUCCESS, U_FAILURE. intros H. apply Z.ltb_ge in H.
  apply Z.leb_le. exact H.
Qed.

Lemma deliver_spec out capacity pending s n w s' :
  deliver out capacity pending s = ((n, w), s') ->
  n = size out
  /\ size w <= Z.max 0 capacity
  /\ (U_SUCCESS s' = true -> n <= capacity).
Proof.
  unfold deliver. intros H. injection H as <- <- <-.
  pose proof (size_nonneg out) as Hout.
  split; [reflexivity|]. split.
  - unfold size in *. rewrite length_app, length_firstn.
    destruct (Z.of_nat (length out) <? capacity) eqn:E.
    + apply Z.ltb_lt in E. simpl. lia.
    + apply Z.ltb_ge in E. simpl. lia.
  - destruct (size out <? capacity) eqn:E; [apply Z.ltb_lt in E; lia|].
    destruct (U_SUCCESS s) eqn:Es; cbn [negb].
    + destruct (size out =? capacity) eqn:Eq;
        [apply Z.eqb_eq in Eq; lia|].
      destruct pending; simpl; discriminate.
    + rewrite Es, andb_false_r, Es. discriminate.
Qed.

Ltac early_exit H :=
  injection H as <- <- <- <-;
  split; [unfold size; simpl; lia | intros ?; split; [lia | intros _; lia]].

#[global] Instance within_capacity_holds : WithinCapacity (matcher := matcher).
Proof.
  constructor.
  - intros m r l capacity s n w m' s' H.
    cbn [uregex_appendReplacement matcher] in H.
    unfold appendReplacement in H. cbv zeta in H.
    destruct (U_FAILURE _) in H; [early_exit H|].
    destruct (_ || _) in H; [early_exit H|].
    destruct (negb _) in H; [early_exit H|].
    destruct (deliver _ _ _ _) as [[n0 w0] s0] eqn:D.
    injection H as <- <- <- <-.
    apply deliver_spec in D. destruct D as (Hn & Hw & Hfit).
    pose proof (size_nonneg
                  (slice (fText m) (fLastMatchEnd m) (fMatchStart m) ++
                   (if l =? -1 then until_nul r else firstn (Z.to_nat l) r))).
    split; [exact Hw | intros _; split; [lia | exact Hfit]].
  - intros m capacity s n w m' s' H.
    cbn [uregex_appendTail matcher] in H.
    unfold appendTail in H. cbv zeta in H.
    destruct (U_FAILURE _) in H; [early_exit H|].
    destruct (_ <? _) in H; [early_exit H|].
    destruct (deliver _ _ _ _) as [[n0 w0] s0] eqn:D.
    injection H as <- <- <- <-.
    apply deliver_spec in D. destruct D as (Hn & Hw & Hfit).
    match type of Hn with _ = size ?o => pose proof (size_nonneg o) end.
    split; [exact Hw | intros _; split; [lia | exact Hfit]].
Qed.


(** The overflow code comes out of [deliver] only for an output longer
    than the capacity. *)
Lemma deliver_overflow out capacity s n w :
  U_SUCCESS s = true ->
  deliver out capacity false s = ((n, w), U_BUFFER_OVERFLOW_ERROR) ->
  n = size out /\ capacity < n /\ size w <= Z.max 0 capacity.
Proof.
  intros Hs H. pose proof H as H0. apply deliver_spec in H0.
  destruct H0 as (Hn & Hw & _).
  repeat apply conj; auto.
  unfold deliver in H. injection H as _ _ H. cbn [andb] in H.
  rewrite Hs in H. cbn [negb] in H.
  unfold U_SUCCESS, U_ZERO_ERROR in Hs. apply Z.leb_le in Hs.
  destruct (size out <? capacity) eqn:E1;
    [unfold U_BUFFER_OVERFLOW_ERROR in H; lia|].
  destruct (size out =? capacity) eqn:E2; [discriminate H|].
  apply Z.ltb_ge in E1. apply Z.eqb_neq in E2. lia.
Qed.

(** With exactly the capacity it needs, [deliver] stores the whole
    output and leaves the not-terminated warning. *)
Lemma deliver_exact out :
  deliver out (size out) false U_ZERO_ERROR
  = ((size out, out), U_STRING_NOT_TERMINATED_WARNING).
Proof.
  unfold deliver. rewrite Z.ltb_irrefl, Z.eqb_refl. cbn.
  unfold size. rewrite Nat2Z.id, firstn_all, app_nil_r. reflexivity.
Qed.

Lemma success_is_not_overflow s capacity :
  U_SUCCESS s = true ->
  (s =? U_BUFFER_OVERFLOW_ERROR) && (capacity =? 0) = false.
Proof.
  unfold U_SUCCESS, U_ZERO_ERROR, U_BUFFER_OVERFLOW_ERROR. intros H.
  apply Z.leb_le in H.
  destruct (s =? 15) eqn:E; [apply Z.eqb_eq in E; lia | reflexivity].
Qed.

#[global] Instance exact_overflow_holds : ExactOverflow (matcher := matcher).
Proof.
  constructor.
  - intros m r l capacity s n w m' Hcap Hs H.
    cbn [uregex_appendReplacement matcher] in *.
    unfold appendReplacement in *. cbv zeta in *.
    rewrite (@success_is_not_overflow s capacity Hs) in H.
    rewrite (@U_SUCCESS_not_failure s Hs) in H.
    destruct (l <? -1) eqn:El; [discriminate H|].
    destruct (capacity <? 0) eqn:Ec; [discriminate H|]. cbn [orb] in H.
    destruct (negb (fMatch m)) eqn:Em; [discriminate H|].
    destruct (deliver _ _ _ _) as [[n0 w0] s0] eqn:D.
    injection H as -> -> <- ->.
    destruct (@deliver_overflow _ _ _ _ _ Hs D) as (Hn & Hgt & Hw).
    repeat apply conj; [lia | lia |].
    change (U_FAILURE U_ZERO_ERROR) with false. cbv iota.
    rewrite Em.
    destruct (n <? 0) eqn:En; [apply Z.ltb_lt in En; lia|]. cbn [orb].
    rewrite Hn, deliver_exact. rewrite <- Hn.
    eexists _, _, _. split; [reflexivity|].
    split; [reflexivity | lia].
  - intros m capacity s n w m' Hcap Hs H.
    cbn [uregex_appendTail matcher] in *.
    unfold appendTail in *. cbv zeta in *.
    rewrite (@success_is_not_overflow s capacity Hs) in H.
    rewrite (@U_SUCCESS_not_failure s Hs) in H.
    destruct (capacity <? 0) eqn:Ec; [discriminate H|].
    destruct (deliver _ _ _ _) as [[n0 w0] s0] eqn:D.
    injection H as -> -> <- ->.
    destruct (@deliver_overflow _ _ _ _ _ Hs D) as (Hn & Hgt & Hw).
    repeat apply conj; [lia | lia |].
    change (U_FAILURE U_ZERO_ERROR) with false. cbv iota.
    destruct (n <? 0) eqn:En; [apply Z.ltb_lt in En; lia|].
    rewrite Hn, deliver_exact. rewrite <- Hn.
    eexists _, _, _. split; [reflexivity|].
    split; [reflexivity | lia].
Qed.

#[global] Instance sticky_failure_holds : StickyFailure (matcher := matcher).
Proof.
  constructor.
  - intros m start s b m' s' H Hf.
    cbn [uregex_find matcher] in H. unfold find in H.
    destruct (U_FAILURE s) eqn:Es; [injection H as <- _ _; reflexivity|].
    destruct (_ || _); [injection H as <- _ _; reflexivity|].
    destruct (advance _) as [r m1]. injection H as _ _ <-. congruence.
  - intros m s b m' s' H Hf.
    cbn [uregex_findNext matcher] in H. unfold findNext in H.
    destruct (U_FAILURE s) eqn:Es; [injection H as <- _ _; reflexivity|].
    destruct (advance _) as [r m1]. injection H as _ _ <-. congruence.
  - intros m s t0 m' s' Hf H.
    cbn [uregex_getText matcher] in H. unfold getText in H.
    rewrite Hf in H. injection H as _ _ <-. reflexivity.
  - intros m capacity s n w m' s' Hf Hno H.
    cbn [uregex_appendTail matcher] in H. unfold appendTail in H.
    cbv zeta in H.
    apply Z.eqb_neq in Hno. rewrite Hno in H. cbn [andb] in H.
    rewrite Hf in H. injection H as <- <- _ <-. auto.
Qed.

#[global] Instance exhaustible_holds :
  Exhaustible (matcher := matcher) remaining.
Proof.
  constructor.
  - intros m s m' s' H.
    cbn [uregex_findNext matcher] in H. unfold findNext in H.
    destruct (U_FAILURE s); [discriminate H|].
    unfold advance in H. unfold remaining.
    destruct (fPending m) as [|[a b] rest]; [discriminate H|].
    injection H as <- _. simpl. lia.
  - intros m s t0 m' s' H.
    cbn [uregex_getText matcher] in H. unfold getText in H.
    destruct (U_FAILURE s); injection H as _ <- _; lia.
  - intros m r l capacity s x m' s' H.
    cbn [uregex_appendReplacement matcher] in H.
    unfold appendReplacement in H. cbv zeta in H.
    destruct (U_FAILURE _) in H; [injection H as _ <- _; lia|].
    destruct (_ || _) in H; [injection H as _ <- _; lia|].
    destruct (negb _) in H; [injection H as _ <- _; lia|].
    destruct (deliver _ _ _ _) as [rw s0].
    injection H as _ <- _. lia.
Qed.

End SpanMatcherFacts.

(** ** The result block *)

Section Result.

Context {M : Type} {matcher : Matcher M}.

Lemma build_finalizes (fuel : nat) r l (originalSize start occurrence : Z)
    (found : bool) (e : Z) (f f' : frame M) res :
  build fuel r l originalSize start occurrence found e f = Return res f' ->
  exists g, finalize g = Return res f'.
Proof.
  unfold build, bind. intros Hrun.
  destruct (resize _ f) as [[] f1| |]; try discriminate.
  destruct (appendHead _ f1) as [[] f2| |]; try discriminate.
  destruct ((if found then replace_loop fuel occurrence r l else ret tt) f2)
    as [[] f3| |]; try discriminate.
  destruct (appendTail f3) as [[] f4| |]; try discriminate.
  exists f4. exact Hrun.
Qed.

(** Whenever [replace] returns a new block, the block holds the staging
    buffer cut to the cursor and the length returned is that of the
    buffer, but [malloc] and [memcpy] were given [sizeof(UChar* )] bytes
    per unit: more than the units themselves take, and more than the
    staging buffer holds with its terminator. *)
Lemma fresh_result_layout (fuel : nat) (regexp : M) r l original
    (originalSize start occurrence : Z) b allocated copied n (f : frame M) :
  replace fuel regexp r l original originalSize start occurrence
  = Return (Fresh b allocated copied, n) f ->
  b = m_replace_buffer f
  /\ size b = to_size_t (m_replace_buffer_pos f)
  /\ n = to_int (size b)
  /\ allocated = size b * sizeof_UChar_ptr
  /\ copied = size b * sizeof_UChar_ptr
  /\ (0 < size b ->
      size b * sizeof_UChar < allocated
      /\ (size b + 1) * sizeof_UChar < copied).
Proof.
  intros Hrun.
  destruct (search_spec start occurrence (initial regexp))
    as (found & e & f1 & _ & _ & _ & Hsearch & _).
  rewrite replace_after_search with (1 := Hsearch) in Hrun.
  destruct (negb found && _); [discriminate Hrun|].
  apply build_finalizes in Hrun. destruct Hrun as (g & Hfin).
  pose proof (finalize_returns _ Hfin) as (Hres & Hbuf & Hpos).
  injection Hres as Hb Ha Hc Hn. subst b allocated copied n.
  assert (Hsize : size (m_replace_buffer f) = to_size_t (m_replace_buffer_pos f)).
  { rewrite Hbuf, Hpos. apply size_resized. unfold to_size_t.
    apply Z.mod_pos_bound. lia. }
  repeat apply conj; auto.
  unfold sizeof_UChar, sizeof_UChar_ptr. intros Hlen. lia.
Qed.

End Result.

(** C6: on the spec's scenario with selector 0 the staging buffer is cut
    to the 7 units written and 7 is the length returned, but the block
    is allocated and filled with 7 * [sizeof(UChar* )] = 56 bytes, four
    times the 14 bytes of 7 units, and the copy reads 56 bytes from a
    staging string that holds 16 with its terminator. *)
Theorem replace_allocates_pointer_sized_units :
  exists f,
    replace 2 a_b_a_b (utf16 "X") 1 (utf16 "a-b-a-b") 7 0 0
    = Return (Fresh (utf16 "X-b-X-b") 56 56, 7) f
    /\ m_replace_buffer f = utf16 "X-b-X-b"
    /\ m_replace_buffer_pos f = 7
    /\ 56 = 7 * sizeof_UChar_ptr
    /\ 7 * sizeof_UChar = 14
    /\ (7 + 1) * sizeof_UChar = 16.
Proof.
  eexists. split; [vm_compute; reflexivity|].
  repeat apply conj; reflexivity.
Qed.

(** * The text of the result, on the reference matcher *)

Import SpanMatcherFacts.

(** ** What the buffer holds up to the cursor *)

Lemma firstn_overwrite_before (b : u16string) (pos : nat) (w : list UChar) :
  (pos <= length b)%nat -> firstn pos (overwrite b pos w) = firstn pos b.
Proof.
  intros H. unfold overwrite.
  rewrite firstn_app, firstn_firstn, Nat.min_id, length_firstn.
  replace (pos - Nat.min pos (length b))%nat with 0%nat by lia.
  simpl. apply app_nil_r.
Qed.

Lemma firstn_overwrite_through (b : u16string) (pos : nat) (w : list UChar) :
  (pos <= length b)%nat ->
  firstn (pos + length w) (overwrite b pos w) = firstn pos b ++ w.
Proof.
  intros H. unfold overwrite.
  rewrite app_assoc.
  rewrite firstn_app.
  rewrite length_app, length_firstn.
  replace (Nat.min pos (length b)) with pos by lia.
  rewrite Nat.sub_diag. simpl. rewrite app_nil_r.
  apply firstn_all2. rewrite length_app, length_firstn. lia.
Qed.

Lemma firstn_overwrite_terminated (b : u16string) (pos : nat)
    (out : list UChar) (c : UChar) :
  (pos <= length b)%nat ->
  firstn (pos + length out) (overwrite b pos (out ++ [c])) = firstn pos b ++ out.
Proof.
  intros H.
  replace (pos + length out)%nat
    with (Nat.min (pos + length out) (pos + length (out ++ [c])))
    by (rewrite length_app; simpl; lia).
  rewrite <- firstn_firstn, firstn_overwrite_through by exact H.
  rewrite firstn_app, length_firstn.
  replace (Nat.min pos (length b)) with pos by lia.
  rewrite (firstn_all2 (n := (pos + length out)%nat) (firstn pos b))
    by (rewrite length_firstn; lia).
  replace (pos + length out - pos)%nat with (length out) by lia.
  rewrite firstn_app, firstn_all, Nat.sub_diag. simpl.
  rewrite app_nil_r. reflexivity.
Qed.

Lemma firstn_resized (b : u16string) (n : Z) (pos : nat) :
  (pos <= length b)%nat -> Z.of_nat pos <= n ->
  firstn pos (resized b n) = firstn pos b.
Proof.
  intros Hb Hn. unfold resized.
  rewrite firstn_app, firstn_firstn, length_firstn.
  replace (Nat.min pos (Z.to_nat n)) with pos by lia.
  replace (pos - Nat.min (Z.to_nat n) (length b))%nat with 0%nat by lia.
  simpl. apply app_nil_r.
Qed.

Lemma resized_to_cursor (b : u16string) (n : Z) :
  0 <= n <= size b -> resized b n = firstn (Z.to_nat n) b.
Proof.
  intros H. unfold resized, size in *.
  replace (Z.to_nat n - length b)%nat with 0%nat by lia.
  simpl. apply app_nil_r.
Qed.


Lemma deliver_fits out capacity s :
  size out < capacity ->
  SpanMatcher.deliver out capacity false s = ((size out, out ++ [0]), s).
Proof.
  intros H. unfold SpanMatcher.deliver.
  destruct (size out <? capacity) eqn:E; [|apply Z.ltb_ge in E; lia].
  rewrite firstn_all2 by (unfold size in H; lia). reflexivity.
Qed.

Lemma deliver_overflows out capacity s :
  0 <= capacity < size out -> U_SUCCESS s = true ->
  SpanMatcher.deliver out capacity false s
  = ((size out, firstn (Z.to_nat capacity) out), U_BUFFER_OVERFLOW_ERROR).
Proof.
  intros H Hs. unfold SpanMatcher.deliver.
  destruct (size out <? capacity) eqn:E; [apply Z.ltb_lt in E; lia|].
  destruct (size out =? capacity) eqn:E2; [apply Z.eqb_eq in E2; lia|].
  rewrite Hs. cbn. rewrite app_nil_r. reflexivity.
Qed.

Lemma deliver_fills out s :
  U_SUCCESS s = true ->
  SpanMatcher.deliver out (size out) false s
  = ((size out, out), U_STRING_NOT_TERMINATED_WARNING).
Proof.
  intros Hs. unfold SpanMatcher.deliver.
  rewrite Z.ltb_irrefl, Z.eqb_refl, Hs. cbn.
  unfold size. rewrite Nat2Z.id, firstn_all, app_nil_r. reflexivity.
Qed.

Lemma success_not_overflow s :
  U_SUCCESS s = true -> (s =? U_BUFFER_OVERFLOW_ERROR) = false.
Proof.
  unfold U_SUCCESS, U_ZERO_ERROR, U_BUFFER_OVERFLOW_ERROR. intros H.
  apply Z.leb_le in H. apply Z.eqb_neq. lia.
Qed.

Lemma retrying_delivers (m : SpanMatcher.t) (out : list UChar)
    (try : @cmd SpanMatcher.t Z) :
  delivers m out try ->
  forall (f : frame SpanMatcher.t) (c : list UChar),
    m_re f = m ->
    U_SUCCESS (m_error_code f) = true ->
    empty (m_replace_buffer f) = false ->
    within_capacity f ->
    holds c f ->
    size c + size out <= INT_MAX ->
    exists f',
      retrying try f = Return tt f'
      /\ m_re f' = m
      /\ U_SUCCESS (m_error_code f') = true
      /\ empty (m_replace_buffer f') = false
      /\ within_capacity f'
      /\ holds (c ++ out) f'.
Proof.
  intros Htry f c Hm Hs Hne Hin [Hpos Hc] Hfit.
  pose proof Hin as [Hp Hsz]. unfold INT_MAX in *.
  pose proof (size_nonneg out) as Hout. pose proof (size_nonneg c) as Hc0.
  assert (Hne' : 0 < size (m_replace_buffer f)).
  { destruct (m_replace_buffer f); [discriminate|]. unfold size. simpl. lia. }
  assert (Hlen : length c = Z.to_nat (m_replace_buffer_pos f))
    by (unfold size in Hpos; lia).
  assert (Hlenb : (length c <= length (m_replace_buffer f))%nat)
    by (unfold size in *; lia).
  unfold retrying, bind.
  destruct (Htry f Hm Hs Hne Hin) as (l1 & ->).
  destruct (Z_lt_le_dec (size out)
              (size (m_replace_buffer f) - m_replace_buffer_pos f)) as [Hlt|Hge].
  - (* the output fits, with its terminator *)
    rewrite deliver_fits by exact Hlt.
    unfold get_error_code, get_pos, set_pos, ret. fields.
    rewrite success_not_overflow by exact Hs. fields.
    rewrite to_int_small by lia.
    eexists. split; [reflexivity|]. fields.
    assert (Hsize : size (overwrite (m_replace_buffer f)
                            (Z.to_nat (m_replace_buffer_pos f)) (out ++ [0]))
                    = size (m_replace_buffer f)).
    { apply size_overwrite. rewrite length_app. unfold size in *. simpl. lia. }
    unfold within_capacity, holds. fields.
    repeat apply conj; auto;
      try (rewrite ?Hsize; unfold INT_MAX; lia).
    + apply not_true_is_false. intros E. apply empty_size in E. lia.
    + unfold size. rewrite length_app. unfold size in Hpos. lia.
    + rewrite length_app, Hlen, firstn_overwrite_terminated by lia.
      rewrite <- Hlen, Hc. reflexivity.
  - destruct (Z.eq_dec (size out)
                (size (m_replace_buffer f) - m_replace_buffer_pos f)) as [Heq|Hne2].
    + (* the output fills the buffer *)
      rewrite <- Heq, deliver_fills by exact Hs.
      unfold get_error_code, get_pos, set_pos, ret. fields.
      change (U_STRING_NOT_TERMINATED_WARNING =? U_BUFFER_OVERFLOW_ERROR)
        with false. fields.
      rewrite to_int_small by lia.
      eexists. split; [reflexivity|]. fields.
      assert (Hsize : size (overwrite (m_replace_buffer f)
                              (Z.to_nat (m_replace_buffer_pos f)) out)
                      = size (m_replace_buffer f)).
      { apply size_overwrite. unfold size in *. lia. }
      unfold within_capacity, holds. fields.
      repeat apply conj; auto;
        try (rewrite ?Hsize; unfold INT_MAX; lia).
      * apply not_true_is_false. intros E. apply empty_size in E. lia.
      * unfold size. rewrite length_app. unfold size in Hpos. lia.
      * rewrite length_app, Hlen, firstn_overwrite_through by lia.
        rewrite <- Hlen, Hc. reflexivity.
    + (* overflow, resize, retry *)
      rewrite deliver_overflows by (auto; lia).
      unfold get_error_code, get_pos, set_error_code, set_pos, ret. fields.
      change (U_BUFFER_OVERFLOW_ERROR =? U_BUFFER_OVERFLOW_ERROR) with true.
      fields.
      rewrite (to_int_small (z := m_replace_buffer_pos f + size out)) by lia.
      rewrite to_size_t_small by lia.
      rewrite resize_ok by (unfold max_size; lia). fields.
      set (b1 := overwrite (m_replace_buffer f)
                   (Z.to_nat (m_replace_buffer_pos f))
                   (firstn
                      (Z.to_nat (size (m_replace_buffer f) - m_replace_buffer_pos f))
                      out)).
      assert (Hb1 : size b1 = size (m_replace_buffer f)).
      { apply size_overwrite. rewrite length_firstn. unfold size in *. lia. }
      match goal with |- context [try ?g] =>
        destruct (Htry g) as (l2 & ->)
      end; fields; auto.
      * apply not_true_is_false. intros E. apply empty_size in E.
        rewrite size_resized in E by lia. lia.
      * unfold within_capacity. fields. rewrite size_resized by lia.
        unfold INT_MAX. lia.
      * rewrite size_resized by lia.
        replace (m_replace_buffer_pos f + size out - m_replace_buffer_pos f)
          with (size out) by lia.
        rewrite deliver_fills by reflexivity. fields.
        eexists. split; [reflexivity|]. fields.
        assert (Hsize : size (overwrite
                                (resized b1 (m_replace_buffer_pos f + size out))
                                (Z.to_nat (m_replace_buffer_pos f)) out)
                        = m_replace_buffer_pos f + size out).
        { rewrite size_overwrite.
          - apply size_resized. lia.
          - pose proof (@size_resized b1 (m_replace_buffer_pos f + size out)
                          ltac:(lia)) as R.
            unfold size in *. lia. }
        unfold within_capacity, holds. fields.
        rewrite ?(to_int_small (z := m_replace_buffer_pos f + size out)) by lia.
        repeat apply conj; auto;
          try (rewrite ?Hsize; unfold INT_MAX; lia).
        -- apply not_true_is_false. intros E. apply empty_size in E. lia.
        -- unfold size. rewrite length_app. unfold size in Hpos. lia.
        -- pose proof (@size_resized b1 (m_replace_buffer_pos f + size out)
                         ltac:(lia)) as R.
           rewrite length_app, Hlen, firstn_overwrite_through
             by (unfold size in *; lia).
           rewrite firstn_resized by (unfold size in *; lia).
           unfold b1. rewrite firstn_overwrite_before by (unfold size in *; lia).
           rewrite <- Hlen, Hc. reflexivity.
Qed.

Lemma stored_fits_window {M : Type} (w : list UChar) (f : frame M) :
  0 <= m_replace_buffer_pos f <= size (m_replace_buffer f) ->
  size w <= Z.max 0 (size (m_replace_buffer f) - m_replace_buffer_pos f) ->
  stored w f =
  Return tt (Frame (m_re f) (m_error_code f)
                   (overwrite (m_replace_buffer f)
                              (Z.to_nat (m_replace_buffer_pos f)) w)
                   (m_replace_buffer_pos f) (trace f)).
Proof.
  intros Hp Hw. apply stored_ok; lia.
Qed.

Lemma tryToAppendReplacement_delivers (m : SpanMatcher.t) r l :
  SpanMatcher.fMatch m = true -> 0 <= l ->
  delivers m
    (SpanMatcher.slice (SpanMatcher.fText m) (SpanMatcher.fLastMatchEnd m)
                       (SpanMatcher.fMatchStart m)
     ++ firstn (Z.to_nat l) r)
    (tryToAppendReplacement r l).
Proof.
  intros Hmatch Hl f Hm Hs Hne Hin. pose proof Hin as [Hp Hsz].
  unfold tryToAppendReplacement, bind, get_buffer, get_pos. rewrite Hne.
  rewrite capacity_in_range by assumption.
  unfold call_appendReplacement.
  cbn [uregex_appendReplacement SpanMatcher.matcher].
  unfold SpanMatcher.appendReplacement. cbv zeta. rewrite Hm.
  rewrite success_is_not_overflow by exact Hs.
  rewrite U_SUCCESS_not_failure by exact Hs.
  destruct (l <? -1) eqn:E1; [apply Z.ltb_lt in E1; lia|].
  destruct (size (m_replace_buffer f) - m_replace_buffer_pos f <? 0) eqn:E2;
    [apply Z.ltb_lt in E2; lia|].
  destruct (l =? -1) eqn:E3; [apply Z.eqb_eq in E3; lia|].
  rewrite Hmatch. cbn [orb negb].
  destruct (SpanMatcher.deliver _ _ _ _) as [[n w] s'] eqn:D.
  pose proof D as D'. apply deliver_spec in D'. destruct D' as (_ & Hw & _).
  unfold bind. rewrite stored_fits_window by (fields; assumption).
  fields. eexists. reflexivity.
Qed.

Lemma tryToAppendTail_delivers (m : SpanMatcher.t) (from : Z) :
  (if SpanMatcher.fMatch m then SpanMatcher.fMatchEnd m
   else SpanMatcher.fLastMatchEnd m) = from ->
  0 <= from ->
  delivers m
    (SpanMatcher.slice (SpanMatcher.fText m) from (size (SpanMatcher.fText m)))
    tryToAppendTail.
Proof.
  intros Hfrom H0 f Hm Hs Hne Hin. pose proof Hin as [Hp Hsz].
  unfold tryToAppendTail, bind, get_buffer, get_pos. rewrite Hne.
  rewrite capacity_in_range by assumption.
  unfold call_appendTail.
  cbn [uregex_appendTail SpanMatcher.matcher].
  unfold SpanMatcher.appendTail. cbv zeta. rewrite Hm.
  rewrite success_is_not_overflow by exact Hs.
  rewrite U_SUCCESS_not_failure by exact Hs.
  destruct (size (m_replace_buffer f) - m_replace_buffer_pos f <? 0) eqn:E2;
    [apply Z.ltb_lt in E2; lia|].
  rewrite Hfrom.
  destruct (from =? -1) eqn:E3; [apply Z.eqb_eq in E3; lia|].
  destruct (SpanMatcher.deliver _ _ _ _) as [[n w] s'] eqn:D.
  pose proof D as D'. apply deliver_spec in D'. destruct D' as (_ & Hw & _).
  unfold bind. rewrite stored_fits_window by (fields; assumption).
  fields. eexists. reflexivity.
Qed.

Lemma ordered_from_le from spans len : ordered_from from spans len -> from <= len.
Proof.
  revert from. induction spans as [|[s e] rest IH]; intros from H; simpl in H.
  - exact H.
  - destruct H as (H1 & H2 & H3). apply IH in H3. lia.
Qed.

Lemma ordered_from_split from before s e rest len :
  ordered_from from (before ++ (s, e) :: rest) len ->
  from <= end_of from before /\ end_of from before <= s /\ s <= e /\ e <= len
  /\ ordered_from e rest len.
Proof.
  revert from. induction before as [|[s1 e1] before IH]; intros from H; simpl in *.
  - destruct H as (H1 & H2 & H3).
    pose proof H3 as H4. apply ordered_from_le in H4.
    repeat apply conj; auto; lia.
  - destruct H as (H1 & H2 & H3). apply IH in H3.
    destruct H3 as (I1 & I2 & I3 & I4 & I5).
    repeat apply conj; auto; lia.
Qed.

Lemma firstn_then_slice (t : list UChar) (h s : Z) :
  0 <= h <= s ->
  firstn (Z.to_nat h) t ++ SpanMatcher.slice t h s = firstn (Z.to_nat s) t.
Proof.
  intros H. unfold SpanMatcher.slice.
  replace (Z.to_nat s) with (Z.to_nat h + Z.to_nat (s - h))%nat by lia.
  generalize (Z.to_nat (s - h)) as n. generalize (Z.to_nat h) as k.
  clear. intros k. revert t. induction k as [|k IH]; intros t n.
  - reflexivity.
  - destruct t as [|c t]; simpl.
    + rewrite firstn_nil. reflexivity.
    + rewrite IH. reflexivity.
Qed.

Lemma slice_to_end (t : list UChar) (e : Z) :
  0 <= e -> SpanMatcher.slice t e (size t) = skipn (Z.to_nat e) t.
Proof.
  intros H. unfold SpanMatcher.slice.
  apply firstn_all2. rewrite length_skipn. unfold size. lia.
Qed.

Lemma size_slice (t : list UChar) (a b : Z) :
  0 <= a <= b -> b <= size t -> size (SpanMatcher.slice t a b) = b - a.
Proof.
  intros H1 H2. unfold SpanMatcher.slice, size in *.
  rewrite length_firstn, length_skipn. lia.
Qed.

Section Spans.

Variables (t : list UChar) (sp : list (Z * Z)).

Lemma find_first (start : Z) s e rest :
  0 <= start <= size t ->
  filter (fun se => start <=? fst se) sp = (s, e) :: rest ->
  SpanMatcher.find (SpanMatcher.open t sp) start U_ZERO_ERROR
  = (true, on_match t sp rest s e start, U_ZERO_ERROR).
Proof.
  intros Hstart Hfilter. unfold SpanMatcher.find.
  change (U_FAILURE U_ZERO_ERROR) with false. cbv iota.
  destruct (start =? -1) eqn:E; [apply Z.eqb_eq in E; lia|].
  cbn [SpanMatcher.fText SpanMatcher.fSpans SpanMatcher.open].
  destruct (start <? 0) eqn:E1; [apply Z.ltb_lt in E1; lia|].
  destruct (size t <? start) eqn:E2; [apply Z.ltb_lt in E2; lia|].
  cbn [orb]. rewrite Hfilter. reflexivity.
Qed.

Lemma end_on_match rest s e last :
  SpanMatcher.end_ (on_match t sp rest s e last) 0 U_ZERO_ERROR
  = (e, on_match t sp rest s e last, U_ZERO_ERROR).
Proof. reflexivity. Qed.

Lemma findNext_on_match rest s e s0 e0 last status :
  U_FAILURE status = false ->
  SpanMatcher.findNext (on_match t sp ((s, e) :: rest) s0 e0 last) status
  = (true, on_match t sp rest s e e0, status).
Proof. intros H. unfold SpanMatcher.findNext. rewrite H. reflexivity. Qed.

Lemma findNext_exhausted s0 e0 last status :
  U_FAILURE status = false ->
  SpanMatcher.findNext (on_match t sp [] s0 e0 last) status
  = (false, SpanMatcher.Make t sp [] false s0 e0 e0, status).
Proof. intros H. unfold SpanMatcher.findNext. rewrite H. reflexivity. Qed.

(** One round of the skip loop on the reference matcher. *)
Lemma skip_round (n : nat) (s0 e0 last epm s1 e1 : Z) (rest : list (Z * Z))
    (f : frame SpanMatcher.t) :
  m_re f = on_match t sp ((s1, e1) :: rest) s0 e0 last ->
  m_error_code f = U_ZERO_ERROR ->
  skip_loop (S n) true epm f =
  skip_loop n true e0
    (Frame (on_match t sp rest s1 e1 e0) U_ZERO_ERROR (m_replace_buffer f)
           (m_replace_buffer_pos f)
           (trace f ++ [uregex_end_call e0 U_ZERO_ERROR;
                        uregex_findNext_call true U_ZERO_ERROR])).
Proof.
  intros Hm Hs. cbn [skip_loop]. unfold bind, call_end, call_findNext.
  rewrite Hm, Hs. cbn [uregex_end uregex_findNext SpanMatcher.matcher].
  rewrite end_on_match.
  cbn [m_re m_error_code m_replace_buffer m_replace_buffer_pos trace].
  rewrite findNext_on_match by reflexivity.
  rewrite <- app_assoc. reflexivity.
Qed.

Lemma skip_loop_over (before : list (Z * Z)) :
  forall (s0 e0 last epm s e : Z) (rest : list (Z * Z))
         (f : frame SpanMatcher.t),
    m_re f = on_match t sp (before ++ (s, e) :: rest) s0 e0 last ->
    m_error_code f = U_ZERO_ERROR ->
    exists f',
      skip_loop (S (length before)) true epm f
      = Return (true, end_of e0 before) f'
      /\ m_re f' = on_match t sp rest s e (end_of e0 before)
      /\ m_error_code f' = U_ZERO_ERROR
      /\ m_replace_buffer f' = m_replace_buffer f
      /\ m_replace_buffer_pos f' = m_replace_buffer_pos f.
Proof.
  induction before as [|[s1 e1] before IH];
    intros s0 e0 last epm s e rest f Hm Hs.
  - rewrite skip_round with (1 := Hm) (2 := Hs).
    eexists. split; [reflexivity|]. cbn. auto.
  - cbn [length]. rewrite skip_round with (1 := Hm) (2 := Hs).
    match goal with |- context [skip_loop _ true e0 ?g] =>
      destruct (IH s1 e1 e0 e0 s e rest g) as (f' & Hrun & H1 & H2 & H3 & H4)
    end; [reflexivity | reflexivity |].
    exists f'. cbn [end_of]. rewrite Hrun. auto.
Qed.

(** The search phase on the reference matcher, when the selected match
    exists: the matcher ends on it, and the head size is where the match
    before it ended. *)
Lemma search_spans (start : Z) before s e rest :
  0 <= start ->
  filter (fun se => start <=? fst se) sp = before ++ (s, e) :: rest ->
  ordered_from start (before ++ (s, e) :: rest) (size t) ->
  exists epm f1,
    search start (Z.of_nat (length before) + 1)
           (initial (SpanMatcher.open t sp))
    = Return (true, epm) f1
    /\ m_re f1 = on_match t sp rest s e (end_of start before)
    /\ m_error_code f1 = U_ZERO_ERROR
    /\ m_replace_buffer f1 = []
    /\ m_replace_buffer_pos f1 = 0
    /\ Z.max epm start = end_of start before.
Proof.
  intros Hstart Hfilter Hord.
  pose proof Hord as Hlen. apply ordered_from_le in Hlen.
  pose proof Hord as Hh. apply ordered_from_split in Hh.
  destruct Hh as (Hh & _).
  unfold search, bind, call_find, initial.
  cbn [m_re m_error_code m_replace_buffer m_replace_buffer_pos trace
       uregex_find SpanMatcher.matcher].
  replace (Z.to_nat (Z.of_nat (length before) + 1 - 1)) with (length before)
    by lia.
  destruct before as [|[s1 e1] before].
  - rewrite (find_first (start := start) (s := s) (e := e) (rest := rest))
      by (auto; lia).
    cbn. eexists _, _. split; [reflexivity|]. cbn.
    repeat apply conj; auto. lia.
  - rewrite (find_first (start := start) (s := s1) (e := e1)
               (rest := before ++ (s, e) :: rest)) by (auto; lia).
    match goal with |- context [skip_loop _ true 0 ?g] =>
      destruct (@skip_loop_over before s1 e1 start 0 s e rest g)
        as (f' & Hrun & H1 & H2 & H3 & H4)
    end; [reflexivity | reflexivity |].
    cbn [length]. rewrite Hrun. eexists _, _. split; [reflexivity|].
    cbn [end_of] in *. repeat apply conj; auto. lia.
Qed.

End Spans.

Section Substitution.

Variables (t : list UChar) (sp : list (Z * Z)).

Lemma appendHead_copies (h : Z) (f : frame SpanMatcher.t) :
  SpanMatcher.fText (m_re f) = t ->
  m_error_code f = U_ZERO_ERROR ->
  m_replace_buffer_pos f = 0 ->
  size (m_replace_buffer f) = size t ->
  0 <= h <= size t -> size t <= INT_MAX ->
  exists f',
    appendHead h f = Return tt f'
    /\ m_re f' = m_re f
    /\ m_error_code f' = U_ZERO_ERROR
    /\ size (m_replace_buffer f') = size t
    /\ holds (firstn (Z.to_nat h) t) f'.
Proof.
  intros Ht Hs Hpos Hsize Hh Hmax. unfold INT_MAX in *.
  unfold appendHead, bind, note.
  destruct (h =? 0) eqn:E.
  - apply Z.eqb_eq in E. subst h.
    eexists. split; [reflexivity|]. fields.
    repeat apply conj; auto.
  - apply Z.eqb_neq in E.
    unfold call_getText. fields.
    cbn [uregex_getText SpanMatcher.matcher]. unfold SpanMatcher.getText.
    rewrite Hs, Ht. change (U_FAILURE U_ZERO_ERROR) with false. cbv iota.
    unfold get_error_code, get_buffer. fields.
    change (negb (U_ZERO_ERROR =? U_ZERO_ERROR)) with false. cbv iota.
    fields. rewrite Hsize.
    destruct (size t <? h) eqn:E1; [apply Z.ltb_lt in E1; lia|].
    unfold ret, std_copy, set_buffer, set_pos. fields.
    rewrite E1, Hsize, E1. fields.
    rewrite to_int_small by lia.
    eexists. split; [reflexivity|]. fields.
    assert (Hlen : length (firstn (Z.to_nat h) t) = Z.to_nat h)
      by (rewrite length_firstn; unfold size in *; lia).
    unfold holds. fields. rewrite Hlen.
    repeat apply conj; auto.
    + rewrite size_overwrite; [exact Hsize|]. rewrite Hlen.
      unfold size in *. lia.
    + unfold size. rewrite Hlen. lia.
    + pose proof (@firstn_overwrite_through (m_replace_buffer f) 0
                    (firstn (Z.to_nat h) t) ltac:(lia)) as Hw.
      cbn [Nat.add firstn app] in Hw. rewrite Hlen in Hw. exact Hw.
Qed.

(** Lines 79 to 83 when the buffer holds [c] up to the cursor. *)
Lemma finalize_holds (c : list UChar) (f : frame SpanMatcher.t) :
  holds c f -> within_capacity f ->
  exists f',
    finalize f =
    Return (Fresh c (size c * sizeof_UChar_ptr) (size c * sizeof_UChar_ptr),
            size c) f'.
Proof.
  intros [Hpos Hc] [Hp Hsz]. unfold INT_MAX in *.
  assert (Hr : resized (m_replace_buffer f)
                 (to_size_t (m_replace_buffer_pos f)) = c).
  { rewrite to_size_t_small by lia.
    rewrite resized_to_cursor by lia.
    rewrite Hpos. unfold size. rewrite Nat2Z.id. exact Hc. }
  rewrite finalize_run
    by (rewrite to_size_t_small by lia; unfold max_size; lia).
  rewrite Hr. rewrite to_int_small by lia.
  eexists. reflexivity.
Qed.

Lemma call_findNext_on_match rest s e s0 e0 last (f : frame SpanMatcher.t) :
  m_re f = on_match t sp ((s, e) :: rest) s0 e0 last ->
  U_SUCCESS (m_error_code f) = true ->
  call_findNext f =
  Return true
    (Frame (on_match t sp rest s e e0) (m_error_code f) (m_replace_buffer f)
           (m_replace_buffer_pos f)
           (trace f ++ [uregex_findNext_call true (m_error_code f)])).
Proof.
  intros Hm Hs. unfold call_findNext.
  cbn [uregex_findNext SpanMatcher.matcher].
  rewrite Hm, findNext_on_match by (apply U_SUCCESS_not_failure; exact Hs).
  reflexivity.
Qed.

Lemma call_findNext_exhausted s0 e0 last (f : frame SpanMatcher.t) :
  m_re f = on_match t sp [] s0 e0 last ->
  U_SUCCESS (m_error_code f) = true ->
  call_findNext f =
  Return false
    (Frame (SpanMatcher.Make t sp [] false s0 e0 e0) (m_error_code f)
           (m_replace_buffer f) (m_replace_buffer_pos f)
           (trace f ++ [uregex_findNext_call false (m_error_code f)])).
Proof.
  intros Hm Hs. unfold call_findNext.
  cbn [uregex_findNext SpanMatcher.matcher].
  rewrite Hm, findNext_exhausted by (apply U_SUCCESS_not_failure; exact Hs).
  reflexivity.
Qed.

Variable r : list UChar.

(** [appendReplacement] with the reference matcher on a match: the text
    since the previous match and the replacement reach the buffer. *)
Lemma appendReplacement_writes rest s e last (f : frame SpanMatcher.t) c :
  m_re f = on_match t sp rest s e last ->
  U_SUCCESS (m_error_code f) = true ->
  empty (m_replace_buffer f) = false ->
  within_capacity f ->
  holds c f ->
  size c + size (SpanMatcher.slice t last s ++ r) <= INT_MAX ->
  exists f',
    appendReplacement r (size r) f = Return tt f'
    /\ m_re f' = on_match t sp rest s e last
    /\ U_SUCCESS (m_error_code f') = true
    /\ empty (m_replace_buffer f') = false
    /\ within_capacity f'
    /\ holds (c ++ SpanMatcher.slice t last s ++ r) f'.
Proof.
  intros Hm Hs Hne Hin Hc Hfit.
  change (appendReplacement r (size r) f)
    with (retrying (tryToAppendReplacement r (size r))
                   (log appendReplacement_call f)).
  assert (Hr : firstn (Z.to_nat (size r)) r = r)
    by (unfold size; rewrite Nat2Z.id; apply firstn_all).
  pose proof (@tryToAppendReplacement_delivers
                (on_match t sp rest s e last) r (size r) eq_refl
                (size_nonneg r)) as Hd.
  cbn [on_match SpanMatcher.fText SpanMatcher.fLastMatchEnd
       SpanMatcher.fMatchStart] in Hd.
  rewrite Hr in Hd.
  apply (retrying_delivers Hd); auto.
Qed.

(** [appendTail] with the reference matcher: the text after the last
    match visited reaches the buffer. *)
Lemma appendTail_writes (m : SpanMatcher.t) (from : Z)
    (f : frame SpanMatcher.t) c :
  m_re f = m ->
  SpanMatcher.fText m = t ->
  (if SpanMatcher.fMatch m then SpanMatcher.fMatchEnd m
   else SpanMatcher.fLastMatchEnd m) = from ->
  0 <= from ->
  U_SUCCESS (m_error_code f) = true ->
  empty (m_replace_buffer f) = false ->
  within_capacity f ->
  holds c f ->
  size c + size (SpanMatcher.slice t from (size t)) <= INT_MAX ->
  exists f',
    appendTail f = Return tt f'
    /\ within_capacity f'
    /\ holds (c ++ SpanMatcher.slice t from (size t)) f'.
Proof.
  intros Hm Ht Hfrom H0 Hs Hne Hin Hc Hfit.
  change (appendTail f) with (retrying tryToAppendTail (log appendTail_call f)).
  pose proof (@tryToAppendTail_delivers m from Hfrom H0) as Hd.
  rewrite Ht in Hd.
  destruct (retrying_delivers Hd (f := log appendTail_call f) (c := c))
    as (f' & Hrun & _ & _ & _ & Hin' & Hc'); auto.
  exists f'. auto.
Qed.

End Substitution.

Section Results.

Variables (t : list UChar) (sp : list (Z * Z)) (r : list UChar).

Lemma size_app (a b : list UChar) : size (a ++ b) = size a + size b.
Proof. unfold size. rewrite length_app. lia. Qed.

Lemma size_firstn_within (h : Z) :
  0 <= h <= size t -> size (firstn (Z.to_nat h) t) = h.
Proof. intros H. unfold size in *. rewrite length_firstn. lia. Qed.

Lemma replace_nth_on_spans (fuel : nat) (original : list UChar)
    (start : Z) (before : list (Z * Z)) (s e : Z) (rest : list (Z * Z)) :
  0 <= start -> 0 < size t ->
  filter (fun se => start <=? fst se) sp = before ++ (s, e) :: rest ->
  ordered_from start (before ++ (s, e) :: rest) (size t) ->
  size t + size r <= INT_MAX ->
  exists f,
    replace (S fuel) (SpanMatcher.open t sp) r (size r) original (size t)
            start (Z.of_nat (length before) + 1)
    = Return (Fresh (firstn (Z.to_nat s) t ++ r ++ skipn (Z.to_nat e) t)
                    (size (firstn (Z.to_nat s) t ++ r ++ skipn (Z.to_nat e) t)
                     * sizeof_UChar_ptr)
                    (size (firstn (Z.to_nat s) t ++ r ++ skipn (Z.to_nat e) t)
                     * sizeof_UChar_ptr),
              size (firstn (Z.to_nat s) t ++ r ++ skipn (Z.to_nat e) t)) f.
Proof.
  intros Hstart Hne Hfilter Hord Hfit.
  destruct (@search_spans t sp start before s e rest Hstart Hfilter Hord)
    as (epm & f1 & Hsearch & Hm & Hs & Hb & Hp & Hmax).
  apply ordered_from_split in Hord.
  destruct Hord as (H1 & H2 & H3 & H4 & _).
  set (h := end_of start before) in *.
  pose proof (size_nonneg r) as Hr0.
  assert (Hint : size t <= INT_MAX) by lia.
  unfold INT_MAX in *.
  rewrite replace_after_search with (1 := Hsearch).
  cbn [negb andb].
  replace (Z.of_nat (length before) + 1 =? 0) with false
    by (symmetry; apply Z.eqb_neq; lia).
  unfold build. unfold bind at 1.
  rewrite to_size_t_small by lia.
  rewrite resize_ok by (unfold max_size; lia).
  rewrite Hmax. rewrite (to_size_t_small (z := h)) by lia.
  unfold bind at 1.
  match goal with |- context [appendHead h ?g] =>
    destruct (@appendHead_copies t h g) as (f2 & -> & Hm2 & Hs2 & Hsz2 & Hc2)
  end; fields; auto; try lia.
  { rewrite Hm. reflexivity. }
  { rewrite Hb. apply size_resized. lia. }
  rewrite Hm in Hm2.
  assert (Hne2 : empty (m_replace_buffer f2) = false).
  { apply not_true_is_false. intros E. apply empty_size in E. lia. }
  assert (Hin2 : within_capacity f2).
  { destruct Hc2 as [Hpos2 _]. unfold within_capacity, INT_MAX.
    rewrite Hpos2, Hsz2, size_firstn_within by lia. lia. }
  unfold bind at 1. rewrite replace_loop_once by lia.
  destruct (@appendReplacement_writes t sp r rest s e h f2
              (firstn (Z.to_nat h) t))
    as (f3 & -> & Hm3 & Hs3 & Hne3 & Hin3 & Hc3); auto.
  { rewrite Hs2. reflexivity. }
  { rewrite !size_app, size_firstn_within, size_slice by lia.
    unfold INT_MAX. lia. }
  unfold bind at 1.
  destruct (@appendTail_writes t (on_match t sp rest s e h) e f3
              (firstn (Z.to_nat h) t ++ SpanMatcher.slice t h s ++ r))
    as (f4 & -> & Hin4 & Hc4); auto; try lia.
  { rewrite !size_app, size_firstn_within, !size_slice by lia.
    unfold INT_MAX. lia. }
  replace ((firstn (Z.to_nat h) t ++ SpanMatcher.slice t h s ++ r)
           ++ SpanMatcher.slice t e (size t))
    with (firstn (Z.to_nat s) t ++ r ++ skipn (Z.to_nat e) t) in Hc4.
  - apply (@finalize_holds _ f4 Hc4 Hin4).
  - rewrite slice_to_end by lia.
    rewrite <- (firstn_then_slice t (h := h) (s := s)) by lia.
    rewrite <- !app_assoc. reflexivity.
Qed.

End Results.

Section AllMatches.

Variables (t : list UChar) (sp : list (Z * Z)) (r : list UChar).

Lemma size_substituted_nonneg from pending :
  0 <= size (substituted t r from pending).
Proof. apply size_nonneg. Qed.

(** The replacement loop under selector 0 with the reference matcher:
    every pending match is replaced in turn, and the matcher is left
    exhausted, its last match ending at [e']. *)
Lemma replace_loop_on_spans (rest : list (Z * Z)) :
  forall (s e last : Z) (c : list UChar) (f : frame SpanMatcher.t)
         (fuel : nat),
    m_re f = on_match t sp rest s e last ->
    U_SUCCESS (m_error_code f) = true ->
    empty (m_replace_buffer f) = false ->
    within_capacity f ->
    holds c f ->
    0 <= last ->
    ordered_from last ((s, e) :: rest) (size t) ->
    size (c ++ substituted t r last ((s, e) :: rest)) <= INT_MAX ->
    (length rest < fuel)%nat ->
    exists f' c' s' e',
      replace_loop fuel 0 r (size r) f = Return tt f'
      /\ m_re f' = SpanMatcher.Make t sp [] false s' e' e'
      /\ 0 <= e'
      /\ U_SUCCESS (m_error_code f') = true
      /\ empty (m_replace_buffer f') = false
      /\ within_capacity f'
      /\ holds c' f'
      /\ c' ++ SpanMatcher.slice t e' (size t)
         = c ++ substituted t r last ((s, e) :: rest).
Proof.
  induction rest as [|[s2 e2] rest IH];
    intros s e last c f fuel Hm Hs Hne Hin Hc Hlast Hord Hfit Hfuel.
  - destruct fuel as [|fuel]; [simpl in Hfuel; lia|].
    cbn [replace_loop]. unfold bind at 1.
    cbn [substituted] in Hfit. rewrite !size_app in Hfit.
    pose proof (size_nonneg (SpanMatcher.slice t e (size t))).
    destruct (@appendReplacement_writes t sp r [] s e last f c)
      as (f1 & -> & Hm1 & Hs1 & Hne1 & Hin1 & Hc1); auto.
    { rewrite size_app. lia. }
    change (0 =? 0) with true. cbv iota. unfold bind at 1.
    rewrite call_findNext_exhausted with (1 := Hm1) (2 := Hs1).
    unfold ret. cbn [ordered_from] in Hord.
    eexists _, _, _, _. split; [reflexivity|].
    split; [reflexivity|]. split; [lia|]. split; [exact Hs1|].
    split; [exact Hne1|]. split; [exact Hin1|]. split; [exact Hc1|].
    cbn [substituted]. rewrite <- !app_assoc. reflexivity.
  - destruct fuel as [|fuel]; [simpl in Hfuel; lia|].
    cbn [replace_loop]. unfold bind at 1.
    pose proof Hfit as Hfit'.
    cbn [substituted] in Hfit'. rewrite !size_app in Hfit'.
    pose proof (size_nonneg (SpanMatcher.slice t e s2)).
    pose proof (size_nonneg (substituted t r e2 rest)).
    pose proof (size_nonneg r).
    destruct (@appendReplacement_writes t sp r ((s2, e2) :: rest) s e last f c)
      as (f1 & -> & Hm1 & Hs1 & Hne1 & Hin1 & Hc1); auto.
    { rewrite size_app. lia. }
    change (0 =? 0) with true. cbv iota. unfold bind at 1.
    rewrite call_findNext_on_match with (1 := Hm1) (2 := Hs1).
    cbn [ordered_from] in Hord. destruct Hord as (O1 & O2 & O3).
    assert (Hfit2 : size ((c ++ SpanMatcher.slice t last s ++ r)
                          ++ substituted t r e ((s2, e2) :: rest))
                    <= INT_MAX).
    { cbn [substituted] in *. rewrite !size_app in *. lia. }
    assert (Hfuel2 : (length rest < fuel)%nat) by (simpl in Hfuel; lia).
    assert (He : 0 <= e) by lia.
    match goal with |- context [replace_loop fuel 0 r (size r) ?g] =>
      destruct (IH s2 e2 e (c ++ SpanMatcher.slice t last s ++ r) g fuel
                  eq_refl Hs1 Hne1 Hin1 Hc1 He O3 Hfit2 Hfuel2)
        as (f' & c' & s' & e' & Hrun & R1 & R2 & R3 & R4 & R5 & R6 & R7)
    end.
    exists f', c', s', e'. rewrite Hrun.
    split; [reflexivity|]. split; [exact R1|]. split; [exact R2|].
    split; [exact R3|]. split; [exact R4|]. split; [exact R5|].
    split; [exact R6|].
    rewrite R7. cbn [substituted]. rewrite <- !app_assoc. reflexivity.
Qed.

End AllMatches.

Section AllMatchesResult.

Variables (t : list UChar) (sp : list (Z * Z)) (r : list UChar).

Lemma replace_all_on_spans (fuel : nat) (original : list UChar)
    (start s e : Z) (rest : list (Z * Z)) :
  0 <= start -> 0 < size t -> size t <= INT_MAX ->
  filter (fun se => start <=? fst se) sp = (s, e) :: rest ->
  ordered_from start ((s, e) :: rest) (size t) ->
  size (firstn (Z.to_nat start) t ++ substituted t r start ((s, e) :: rest))
  <= INT_MAX ->
  (length rest < fuel)%nat ->
  exists f,
    replace fuel (SpanMatcher.open t sp) r (size r) original (size t) start 0
    = Return
        (Fresh (firstn (Z.to_nat start) t
                ++ substituted t r start ((s, e) :: rest))
               (size (firstn (Z.to_nat start) t
                      ++ substituted t r start ((s, e) :: rest))
                * sizeof_UChar_ptr)
               (size (firstn (Z.to_nat start) t
                      ++ substituted t r start ((s, e) :: rest))
                * sizeof_UChar_ptr),
         size (firstn (Z.to_nat start) t
               ++ substituted t r start ((s, e) :: rest))) f.
Proof.
  intros Hstart Hne Hint Hfilter Hord Hfit Hfuel.
  pose proof Hord as Hlen. apply ordered_from_le in Hlen.
  assert (Hfind : uregex_find (SpanMatcher.open t sp) start U_ZERO_ERROR
                  = (true, on_match t sp rest s e start, U_ZERO_ERROR)).
  { cbn [uregex_find SpanMatcher.matcher]. apply find_first; [lia | exact Hfilter]. }
  assert (Hocc : 0 <= 1) by lia.
  rewrite replace_after_search
    with (1 := search_first start (SpanMatcher.open t sp) Hocc Hfind).
  cbn [negb andb]. unfold INT_MAX in *.
  unfold build. unfold bind at 1.
  rewrite to_size_t_small by lia.
  rewrite resize_ok by (unfold max_size; lia).
  replace (Z.max 0 start) with start by lia.
  rewrite (to_size_t_small (z := start)) by lia.
  unfold bind at 1.
  match goal with |- context [appendHead start ?g] =>
    destruct (@appendHead_copies t start g)
      as (f2 & -> & Hm2 & Hs2 & Hsz2 & Hc2)
  end; fields; auto; try lia.
  { apply size_resized. lia. }
  assert (Hne2 : empty (m_replace_buffer f2) = false).
  { apply not_true_is_false. intros E. apply empty_size in E. lia. }
  assert (Hin2 : within_capacity f2).
  { destruct Hc2 as [Hpos2 _]. unfold within_capacity, INT_MAX.
    rewrite Hpos2, Hsz2, size_firstn_within by lia. lia. }
  assert (Hsuccess : U_SUCCESS (m_error_code f2) = true)
    by (rewrite Hs2; reflexivity).
  unfold bind at 1.
  destruct (@replace_loop_on_spans t sp r rest s e start
              (firstn (Z.to_nat start) t) f2 fuel
              Hm2 Hsuccess Hne2 Hin2 Hc2 Hstart Hord Hfit Hfuel)
    as (f3 & c3 & s3 & e3 & -> & R1 & R2 & R3 & R4 & R5 & R6 & R7).
  unfold bind at 1.
  assert (Hfit3 : size c3 + size (SpanMatcher.slice t e3 (size t)) <= INT_MAX).
  { rewrite <- size_app, R7. exact Hfit. }
  destruct (@appendTail_writes t (SpanMatcher.Make t sp [] false s3 e3 e3) e3
              f3 c3 R1 eq_refl eq_refl R2 R3 R4 R5 R6 Hfit3)
    as (f4 & -> & Hin4 & Hc4).
  rewrite R7 in Hc4.
  apply (@finalize_holds _ f4 Hc4 Hin4).
Qed.

End AllMatchesResult.

(** C3: a selector [k > 0] with at least [k] matches from [start].
    Whatever the matcher: the search phase ends on a match after exactly
    [k - 1] rounds of the skip loop, each a [uregex_end] whose offset is
    recorded followed by a [uregex_findNext] that found a match;
    [appendHead] is called with the larger of [start] and the last
    recorded end, [appendReplacement] exactly once, on the k-th match,
    then [appendTail], and no other [uregex_findNext] is made.  On the
    reference matcher, whose matches from [start] are
    [before ++ (s, e) :: rest] with [k] one more than the length of
    [before]: the result is the text with the units from [s] to [e]
    replaced and everything else, the matches of [before] and of [rest]
    among it, as in the original. *)
Theorem replace_nth_replaces_only_the_nth :
  (forall (M : Type) (matcher : Matcher M) (fuel : nat) (regexp : M)
          (replacement : list UChar) (replacementLen : Z)
          (original : list UChar) (originalSize start k e : Z)
          (f1 : frame M),
      0 < k ->
      search start k (initial regexp) = Return (true, e) f1 ->
      0 <= Z.max e start < 2 ^ 64 ->
      replace (S fuel) regexp replacement replacementLen original
              originalSize start k <> OutOfFuel
      /\ (exists s skipped,
            trace f1 = uregex_find_call start true s :: skipped
            /\ skips (Z.to_nat (k - 1)) 0 e skipped)
      /\ forall res f,
           replace (S fuel) regexp replacement replacementLen original
                   originalSize start k = Return res f ->
           orchestration (trace f) =
             trace f1 ++ [appendHead_call (Z.max e start);
                          appendReplacement_call; appendTail_call]
           /\ count is_appendReplacement (trace f) = 1%nat
           /\ count is_findNext (trace f) = Z.to_nat (k - 1))
  /\ (forall (t : list UChar) (sp : list (Z * Z)) (r original : list UChar)
            (fuel : nat) (start s e : Z) (before rest : list (Z * Z)),
        0 <= start -> 0 < size t ->
        filter (fun se => start <=? fst se) sp = before ++ (s, e) :: rest ->
        ordered_from start (before ++ (s, e) :: rest) (size t) ->
        size t + size r <= INT_MAX ->
        let out := firstn (Z.to_nat s) t ++ r ++ skipn (Z.to_nat e) t in
        exists f,
          replace (S fuel) (SpanMatcher.open t sp) r (size r) original
                  (size t) start (Z.of_nat (length before) + 1)
          = Return (Fresh out (size out * sizeof_UChar_ptr)
                          (size out * sizeof_UChar_ptr), size out) f).
Proof.
  split.
  - intros M matcher fuel regexp replacement replacementLen original
           originalSize start k e f1 Hk Hsearch Hmax.
    apply replace_nth_calls; assumption.
  - intros t sp r original fuel start s e before rest
           Hstart Hne Hfilter Hord Hfit out.
    exact (@replace_nth_on_spans t sp r fuel original start before s e rest
                                 Hstart Hne Hfilter Hord Hfit).
Qed.

(** C2: selector 0.  Whatever the matcher, as long as it runs out of
    matches: [replace] ends, the calls to [appendReplacement] are as many
    as the finds that reported a match, and after [appendHead] the calls
    are rounds of [appendReplacement] then [uregex_findNext], another
    round following exactly when that [uregex_findNext] reported a
    match, [appendTail] after the one that did not.  On the reference
    matcher, whose matches from [start] are [(s, e) :: rest]: the result
    is the text with every one of them replaced and the text between
    them, before the first and after the last as in the original. *)
Theorem replace_all_replaces_every_match :
  (forall (M : Type) (matcher : Matcher M) (remaining : M -> nat)
          (exhaustible : Exhaustible remaining)
          (fuel : nat) (regexp : M) (replacement : list UChar)
          (replacementLen : Z) (original : list UChar)
          (originalSize start : Z) (b : bool) (m1 : M) (s1 : UErrorCode),
      uregex_find regexp start U_ZERO_ERROR = (b, m1, s1) ->
      (remaining m1 < fuel)%nat ->
      replace fuel regexp replacement replacementLen original originalSize
              start 0 <> OutOfFuel
      /\ forall res f,
           replace fuel regexp replacement replacementLen original
                   originalSize start 0 = Return res f ->
           count is_appendReplacement (trace f)
           = count reports_match (trace f)
           /\ (b = true ->
               exists n loop,
                 orchestration (trace f) =
                   uregex_find_call start true s1
                   :: appendHead_call (to_size_t (Z.max 0 start))
                   :: loop ++ [appendTail_call]
                 /\ replacing n loop))
  /\ (forall (t : list UChar) (sp : list (Z * Z)) (r original : list UChar)
            (fuel : nat) (start s e : Z) (rest : list (Z * Z)),
        0 <= start -> 0 < size t -> size t <= INT_MAX ->
        filter (fun se => start <=? fst se) sp = (s, e) :: rest ->
        ordered_from start ((s, e) :: rest) (size t) ->
        let out := firstn (Z.to_nat start) t
                   ++ substituted t r start ((s, e) :: rest) in
        size out <= INT_MAX ->
        (length rest < fuel)%nat ->
        exists f,
          replace fuel (SpanMatcher.open t sp) r (size r) original (size t)
                  start 0
          = Return (Fresh out (size out * sizeof_UChar_ptr)
                          (size out * sizeof_UChar_ptr), size out) f).
Proof.
  split.
  - intros M matcher remaining exhaustible fuel regexp replacement
           replacementLen original originalSize start b m1 s1 Hfind Hfuel.
    apply replace_all_calls with (remaining := remaining) (m1 := m1);
      assumption.
  - intros t sp r original fuel start s e rest
           Hstart Hne Hint Hfilter Hord out Hfit Hfuel.
    exact (@replace_all_on_spans t sp r fuel original start s e rest
                                 Hstart Hne Hint Hfilter Hord Hfit Hfuel).
Qed.

(** ** The theorems on the scenarios *)

(** "a-b-a-b" has no fifth "a": selector 5 returns the original. *)
Lemma replace_no_match_returns_original_witness :
  exists f,
    search 0 5 (initial a_b_a_b) = Return (false, 5) f
    /\ U_SUCCESS (m_error_code f) = true
    /\ replace 1 a_b_a_b (utf16 "X") 1 (utf16 "a-b-a-b") 7 0 5
       = Return (Unchanged (utf16 "a-b-a-b"), 7) f
    /\ m_replace_buffer f = []
    /\ m_replace_buffer_pos f = 0
    /\ Forall (fun c => searches c = true) (trace f).
Proof.
  eexists. split; [vm_compute; reflexivity|]. split; [reflexivity|].
  apply (replace_no_match_returns_original 1 a_b_a_b (utf16 "X") 1
           (utf16 "a-b-a-b") 7 0 5 (e := 5)).
  - vm_compute. reflexivity.
  - reflexivity.
Defined.

(** Selector 0 on "a-b-a-b": two matches, two replacements, and the
    result is "X-b-X-b". *)
Lemma replace_all_replaces_every_match_witness :
  ((SpanMatcher.remaining
      (snd (fst (SpanMatcher.find a_b_a_b 0 U_ZERO_ERROR))) < 3)%nat
   /\ replace 3 a_b_a_b (utf16 "X") 1 (utf16 "a-b-a-b") 7 0 0 <> OutOfFuel
   /\ forall res f,
        replace 3 a_b_a_b (utf16 "X") 1 (utf16 "a-b-a-b") 7 0 0
        = Return res f ->
        count is_appendReplacement (trace f) = count reports_match (trace f)
        /\ (true = true ->
            exists n loop,
              orchestration (trace f) =
                uregex_find_call 0 true U_ZERO_ERROR
                :: appendHead_call (to_size_t (Z.max 0 0))
                :: loop ++ [appendTail_call]
              /\ replacing n loop))
  /\ exists f,
       replace 3 a_b_a_b (utf16 "X") 1 (utf16 "a-b-a-b") 7 0 0
       = Return (Fresh (utf16 "X-b-X-b") 56 56, 7) f.
Proof.
  assert (Hfuel : (SpanMatcher.remaining
                     (snd (fst (SpanMatcher.find a_b_a_b 0 U_ZERO_ERROR))) < 3)%nat)
    by (vm_compute; lia).
  split.
  - split; [exact Hfuel|].
    refine (proj1 replace_all_replaces_every_match
              _ _ SpanMatcher.remaining _ 3%nat a_b_a_b (utf16 "X") 1
              (utf16 "a-b-a-b") 7 0 true
              (snd (fst (SpanMatcher.find a_b_a_b 0 U_ZERO_ERROR)))
              U_ZERO_ERROR _ Hfuel).
    vm_compute. reflexivity.
  - apply (proj2 replace_all_replaces_every_match
             (utf16 "a-b-a-b") [(0, 1); (4, 5)] (utf16 "X") (utf16 "a-b-a-b")
             3%nat 0 0 1 [(4, 5)]).
    + lia.
    + reflexivity.
    + vm_compute. discriminate.
    + reflexivity.
    + vm_compute. repeat split; discriminate.
    + vm_compute. discriminate.
    + simpl. lia.
Defined.

(** Selector 2 on "a-b-a-b": one skip, whose end 1 is the head size,
    and the result is "a-b-X-b". *)
Lemma replace_nth_replaces_only_the_nth_witness :
  (exists f1,
      search 0 2 (initial a_b_a_b) = Return (true, 1) f1
      /\ replace 1 a_b_a_b (utf16 "X") 1 (utf16 "a-b-a-b") 7 0 2 <> OutOfFuel
      /\ (exists s skipped,
            trace f1 = uregex_find_call 0 true s :: skipped
            /\ skips (Z.to_nat (2 - 1)) 0 1 skipped)
      /\ forall res f,
           replace 1 a_b_a_b (utf16 "X") 1 (utf16 "a-b-a-b") 7 0 2
           = Return res f ->
           orchestration (trace f) =
             trace f1 ++ [appendHead_call (Z.max 1 0);
                          appendReplacement_call; appendTail_call]
           /\ count is_appendReplacement (trace f) = 1%nat
           /\ count is_findNext (trace f) = Z.to_nat (2 - 1))
  /\ exists f,
       replace 1 a_b_a_b (utf16 "X") 1 (utf16 "a-b-a-b") 7 0 2
       = Return (Fresh (utf16 "a-b-X-b") 56 56, 7) f.
Proof.
  split.
  - eexists. split; [vm_compute; reflexivity|].
    apply (proj1 replace_nth_replaces_only_the_nth).
    + lia.
    + vm_compute. reflexivity.
    + vm_compute. split; [discriminate | reflexivity].
  - apply (proj2 replace_nth_replaces_only_the_nth
             (utf16 "a-b-a-b") [(0, 1); (4, 5)] (utf16 "X") (utf16 "a-b-a-b")
             0%nat 0 4 5 [(0, 1)] []).
    + lia.
    + reflexivity.
    + reflexivity.
    + vm_compute. repeat split; discriminate.
    + vm_compute. discriminate.
Defined.

(** A start offset beyond "a-b-a-b": the find faults, a new empty
    buffer comes back. *)
Lemma search_fault_returns_new_empty_buffer_witness :
  exists f1 f,
    search 100 1 (initial a_b_a_b) = Return (false, 0) f1
    /\ m_error_code f1 = U_INDEX_OUTOFBOUNDS_ERROR
    /\ replace 1 a_b_a_b (utf16 "X") 1 (utf16 "a-b-a-b") 7 100 1
       = Return (Fresh [] 0 0, 0) f
    /\ m_error_code f = m_error_code f1.
Proof.
  assert (Hs : exists f1,
             search 100 1 (initial a_b_a_b) = Return (false, 0) f1
             /\ m_error_code f1 = U_INDEX_OUTOFBOUNDS_ERROR)
    by (eexists; split; vm_compute; reflexivity).
  destruct Hs as (f1 & Hs & Hc).
  destruct (@search_fault_returns_new_empty_buffer
              _ _ _ 1 a_b_a_b (utf16 "X") 1 (utf16 "a-b-a-b") 7 100 1
              false 0 f1 Hs) as (f & Hrun & Hcode).
  - rewrite Hc. reflexivity.
  - rewrite Hc. discriminate.
  - unfold INT_MAX. lia.
  - exists f1, f. auto.
Defined.

(** Ten units into the 7-unit buffer, and the six-unit tail into its
    last unit: one resize and one retry each. *)
Lemma append_overflow_is_resized_and_retried_once_witness :
  (exists f',
      appendReplacement (utf16 "XXXXXXXXXX") 10 (on_first_match 0)
      = Return tt f'
      /\ size (m_replace_buffer f') = 10
      /\ m_replace_buffer_pos f' = 10
      /\ U_SUCCESS (m_error_code f') = true)
  /\ (exists f',
        appendTail (on_first_match 6) = Return tt f'
        /\ size (m_replace_buffer f') = 12
        /\ m_replace_buffer_pos f' = 12
        /\ U_SUCCESS (m_error_code f') = true).
Proof.
  split.
  - edestruct (proj1 (append_overflow_is_resized_and_retried_once
                        (M := SpanMatcher.t))
                 (utf16 "XXXXXXXXXX") 10 (on_first_match 0))
      as (f' & s2 & Hrun & Hsz & Hpos & Hc & Hok & _).
    + reflexivity.
    + repeat split; vm_compute; discriminate.
    + reflexivity.
    + vm_compute. reflexivity.
    + vm_compute. discriminate.
    + exists f'. rewrite Hc. auto.
  - edestruct (proj2 (append_overflow_is_resized_and_retried_once
                        (M := SpanMatcher.t)) (on_first_match 6))
      as (f' & s2 & Hrun & Hsz & Hpos & Hc & Hok & _).
    + reflexivity.
    + repeat split; vm_compute; discriminate.
    + reflexivity.
    + vm_compute. reflexivity.
    + vm_compute. discriminate.
    + exists f'. rewrite Hc. auto.
Defined.

(** The under-reporting matcher overflows twice in each helper, and
    each helper returns with the overflow code. *)
Lemma second_overflow_goes_unnoticed_witness :
  (exists f',
      appendReplacement (utf16 "XXXXX") 5 (on_misreported_match 0)
      = Return tt f'
      /\ m_error_code f' = U_BUFFER_OVERFLOW_ERROR
      /\ m_replace_buffer_pos f' = 3
      /\ size (m_replace_buffer f') = 3)
  /\ (exists f',
        appendTail (on_misreported_match 2) = Return tt f'
        /\ m_error_code f' = U_BUFFER_OVERFLOW_ERROR
        /\ m_replace_buffer_pos f' = 3
        /\ size (m_replace_buffer f') = 3).
Proof.
  split.
  - eapply (proj1 (second_overflow_goes_unnoticed (M := Misreporting.t))
              (utf16 "XXXXX") 5 (on_misreported_match 0)).
    + reflexivity.
    + repeat split; vm_compute; discriminate.
    + vm_compute. reflexivity.
    + vm_compute. discriminate.
    + lia.
    + vm_compute. split; [reflexivity | discriminate].
    + vm_compute. reflexivity.
    + vm_compute. discriminate.
  - eapply (proj2 (second_overflow_goes_unnoticed (M := Misreporting.t))
              (on_misreported_match 2)) with (n1 := 1).
    + reflexivity.
    + repeat split; vm_compute; discriminate.
    + vm_compute. reflexivity.
    + vm_compute. discriminate.
    + lia.
    + vm_compute. split; [reflexivity | discriminate].
    + vm_compute. reflexivity.
    + vm_compute. discriminate.
Defined.

(** The three appends on the scenario, each from a cursor within the
    7-unit buffer. *)
Lemma successful_append_stays_within_capacity_witness :
  within_capacity (on_first_match 0)
  /\ ends_within (fun _ => True) (appendHead 2 (on_first_match 0))
  /\ ends_within (fun f' => U_SUCCESS (m_error_code f') = true)
                 (appendReplacement (utf16 "X") 1 (on_first_match 0))
  /\ ends_within (fun f' => U_SUCCESS (m_error_code f') = true)
                 (appendTail (on_first_match 0)).
Proof.
  assert (Hin : within_capacity (on_first_match 0))
    by (repeat split; vm_compute; discriminate).
  destruct (successful_append_stays_within_capacity (M := SpanMatcher.t))
    as (Hhead & Hrepl & Htail).
  split; [exact Hin|]. split; [|split].
  - apply Hhead; [exact Hin | unfold INT_MAX; lia].
  - apply Hrepl. exact Hin.
  - apply Htail. exact Hin.
Defined.

(** The empty text, a pattern that matches the empty string, selector
    0: a match, and a new result of length 0. *)
Lemma replace_on_empty_buffer_writes_nothing_witness :
  exists f1 f,
    search 0 0 (initial empty_text) = Return (true, 0) f1
    /\ replace 2 empty_text (utf16 "X") 1 [] 0 0 0
       = Return (Fresh [] 0 0, 0) f
    /\ Forall (fun c => idle c = true) (trace f)
    /\ count is_matcher_append (trace f) = 0%nat.
Proof.
  assert (Hs : exists f1,
             search 0 0 (initial empty_text) = Return (true, 0) f1
             /\ (SpanMatcher.remaining (m_re f1) < 2)%nat)
    by (eexists; split; [vm_compute; reflexivity | vm_compute; lia]).
  destruct Hs as (f1 & Hs & Hfuel).
  destruct (@replace_on_empty_buffer_writes_nothing
              _ _ SpanMatcher.remaining _ 2 empty_text (utf16 "X") 1 []
              0 0 0 f1 Hs) as (f & Hrun & Hidle & Hcount).
  - reflexivity.
  - exact Hfuel.
  - exists f1, f. auto.
Defined.

(** Selector -3 on "a-b-a-b" is selector 1. *)
Lemma replace_negative_selector_acts_as_first_witness :
  replace 1 a_b_a_b (utf16 "X") 1 (utf16 "a-b-a-b") 7 0 (-3)
  = replace 1 a_b_a_b (utf16 "X") 1 (utf16 "a-b-a-b") 7 0 1
  /\ (forall b m s,
        uregex_find a_b_a_b 0 U_ZERO_ERROR = (b, m, s) ->
        search 0 (-3) (initial a_b_a_b) =
        Return (b, 0) (Frame m s [] 0 [uregex_find_call 0 b s]))
  /\ (forall m s res f,
        uregex_find a_b_a_b 0 U_ZERO_ERROR = (true, m, s) ->
        replace 1 a_b_a_b (utf16 "X") 1 (utf16 "a-b-a-b") 7 0 (-3)
        = Return res f ->
        orchestration (trace f) =
          [uregex_find_call 0 true s;
           appendHead_call (to_size_t (Z.max 0 0));
           appendReplacement_call; appendTail_call]
        /\ count is_appendReplacement (trace f) = 1%nat
        /\ count is_findNext (trace f) = 0%nat).
Proof.
  apply replace_negative_selector_acts_as_first.
  lia.
Defined.

(** * Further properties of file.cpp *)

(** ** Arguments of [replace] *)

Section Inputs.

Context {M : Type} {matcher : Matcher M}.

(** X1: [originalSize] reaches [resize] on line 71 converted from [int]
    to [size_t].  When the original is not returned (a match was found,
    or the search left a failure code) and [originalSize] is negative,
    the converted value is above [max_size()]: [resize] throws
    [std::length_error] and nothing else runs, neither a helper nor the
    allocation. *)
Theorem replace_negative_size_throws
    (fuel : nat) (regexp : M) (replacement : list UChar) (replacementLen : Z)
    (original : list UChar) (originalSize start occurrence : Z)
    (found : bool) (e : Z) (f1 : frame M) :
  search start occurrence (initial regexp) = Return (found, e) f1 ->
  negb found && U_SUCCESS (m_error_code f1) = false ->
  - 2 ^ 31 <= originalSize < 0 ->
  replace fuel regexp replacement replacementLen original originalSize
          start occurrence
  = Abort length_error
          (Frame (m_re f1) (m_error_code f1) [] 0
                 (trace f1 ++ [resize_call (originalSize + 2 ^ 64)])).
Proof.
  intros Hsearch Hgate Hsize.
  rewrite replace_after_search with (1 := Hsearch). rewrite Hgate.
  destruct (search_spec start occurrence (initial regexp))
    as (found' & e' & f' & b & s & ls & Hrun & Hbuf & Hpos & _).
  rewrite Hsearch in Hrun. injection Hrun as <- <- <-.
  cbn in Hbuf, Hpos.
  assert (Hconv : to_size_t originalSize = originalSize + 2 ^ 64).
  { unfold to_size_t.
    rewrite <- (Z.mod_add originalSize 1 (2 ^ 64)) by lia.
    rewrite Z.mod_small; lia. }
  unfold build. unfold bind at 1.
  rewrite resize_throws by (apply to_size_t_negative; exact Hsize).
  rewrite Hconv. unfold log. rewrite Hbuf, Hpos. reflexivity.
Qed.

(** X2: [original] is never read.  The text that is searched and copied
    is the one bound to the matcher; the pointer passed as [original] is
    only handed back when there is nothing to replace.  Running
    [replace] with another [original] gives the same new block, the same
    length and the same final state, or hands back that other pointer. *)
Theorem replace_never_reads_original
    (fuel : nat) (regexp : M) (replacement : list UChar) (replacementLen : Z)
    (original original' : list UChar) (originalSize start occurrence : Z) :
  match replace fuel regexp replacement replacementLen original originalSize
                start occurrence with
  | Return (Unchanged o, n) f =>
      o = original
      /\ replace fuel regexp replacement replacementLen original'
                 originalSize start occurrence
         = Return (Unchanged original', n) f
  | other =>
      replace fuel regexp replacement replacementLen original' originalSize
              start occurrence = other
  end.
Proof.
  destruct (search_spec start occurrence (initial regexp))
    as (found & e & f1 & _ & _ & _ & Hsearch & _).
  rewrite !replace_after_search with (1 := Hsearch).
  destruct (negb found && U_SUCCESS (m_error_code f1)).
  - split; reflexivity.
  - destruct (build fuel replacement replacementLen originalSize start
                    occurrence found e f1) as [[[o|b a c] n] f| |] eqn:E;
      try reflexivity.
    exfalso. apply build_finalizes in E. destruct E as (g & Hfin).
    apply finalize_returns in Hfin. destruct Hfin as [Hres _].
    discriminate Hres.
Qed.

End Inputs.
(** ** [appendHead] *)

Section Head.

Context {M : Type} {matcher : Matcher M}.

(** Lines 16 to 20 when the code after [uregex_getText] is
    [U_ZERO_ERROR] and the text has [size_] units. *)
Lemma appendHead_run (size_ : Z) (f : frame M) text m' :
  0 < size_ <= INT_MAX ->
  uregex_getText (m_re f) (m_error_code f) = (text, m', U_ZERO_ERROR) ->
  size_ <= size text ->
  exists l,
    appendHead size_ f =
    Return tt
      (Frame m' U_ZERO_ERROR
             (firstn (Z.to_nat size_) text
              ++ skipn (Z.to_nat size_) (m_replace_buffer f))
             size_ (trace f ++ l)).
Proof.
  intros Hsize Hcall Htext. unfold INT_MAX in *.
  unfold appendHead, bind, note.
  destruct (size_ =? 0) eqn:E; [apply Z.eqb_eq in E; lia|].
  unfold call_getText. fields. rewrite Hcall.
  unfold get_error_code, get_buffer. fields.
  change (negb (U_ZERO_ERROR =? U_ZERO_ERROR)) with false. cbv iota. fields.
  assert (Hw : length (firstn (Z.to_nat size_) text) = Z.to_nat size_)
    by (rewrite length_firstn; unfold size in *; lia).
  destruct (size (m_replace_buffer f) <? size_) eqn:E1.
  - apply Z.ltb_lt in E1.
    rewrite resize_ok by (unfold max_size; lia). fields.
    unfold std_copy, set_buffer, set_pos. fields.
    destruct (size text <? size_) eqn:E2; [apply Z.ltb_lt in E2; lia|].
    rewrite size_resized by lia. rewrite Z.ltb_irrefl. fields.
    rewrite to_int_small by lia.
    eexists. rewrite <- !app_assoc. f_equal. f_equal.
    unfold overwrite. cbn [firstn app Nat.add]. rewrite Hw.
    f_equal.
    rewrite !skipn_all2; [reflexivity | unfold size in *; lia |].
    unfold resized. rewrite length_app, length_firstn, repeat_length.
    unfold size in *. lia.
  - apply Z.ltb_ge in E1.
    unfold ret, std_copy, set_buffer, set_pos. fields.
    destruct (size text <? size_) eqn:E2; [apply Z.ltb_lt in E2; lia|].
    destruct (size (m_replace_buffer f) <? size_) eqn:E3;
      [apply Z.ltb_lt in E3; lia|]. fields.
    rewrite to_int_small by lia.
    eexists. rewrite <- !app_assoc. f_equal. f_equal.
    unfold overwrite. cbn [firstn app Nat.add]. rewrite Hw. reflexivity.
Qed.

(** X3: [appendHead] copies only under [size != 0] and a code that is
    exactly [U_ZERO_ERROR] after [uregex_getText] (line 17 compares with
    [U_ZERO_ERROR], it does not test [U_FAILURE]).  When it returns for a
    size of 0, or with any other code left in [m_error_code], a warning
    included, the buffer and the cursor are as they were; for a size of
    0 the matcher was not even called. *)
Theorem appendHead_copies_only_on_zero_error
    (size_ : Z) (f f' : frame M) :
  appendHead size_ f = Return tt f' ->
  size_ = 0 \/ m_error_code f' <> U_ZERO_ERROR ->
  m_replace_buffer f' = m_replace_buffer f
  /\ m_replace_buffer_pos f' = m_replace_buffer_pos f
  /\ (size_ = 0 ->
      m_re f' = m_re f /\ m_error_code f' = m_error_code f
      /\ trace f' = trace f ++ [appendHead_call 0]).
Proof.
  intros Hrun Hwhy. revert Hrun.
  unfold appendHead, bind, note.
  destruct (size_ =? 0) eqn:E.
  - apply Z.eqb_eq in E. subst size_.
    unfold ret. intros Hrun. injection Hrun as <-. fields.
    repeat apply conj; auto.
  - apply Z.eqb_neq in E.
    destruct Hwhy as [Hzero|Hcode]; [contradiction|].
    unfold call_getText. fields.
    destruct (uregex_getText (m_re f) (m_error_code f)) as [[text m'] e'].
    unfold get_error_code, get_buffer. fields.
    destruct (e' =? U_ZERO_ERROR) eqn:Ee; cbn [negb].
    + apply Z.eqb_eq in Ee. subst e'. fields. intros Hrun. exfalso.
      apply Hcode. revert Hrun.
      destruct (size (m_replace_buffer f) <? size_).
      * unfold resize, bind, note, set_buffer. fields.
        destruct (max_size <? size_); [discriminate|]. fields.
        unfold std_copy, set_buffer, set_pos. fields.
        repeat match goal with
               | |- context [if ?c then _ else _] => destruct c
               end; try discriminate.
        intros Hrun. injection Hrun as <-. reflexivity.
      * unfold ret, std_copy, set_buffer, set_pos. fields.
        repeat match goal with
               | |- context [if ?c then _ else _] => destruct c
               end; try discriminate.
        intros Hrun. injection Hrun as <-. reflexivity.
    + unfold ret. intros Hrun. injection Hrun as <-. fields.
      repeat apply conj; auto. intros Hz. contradiction.
Qed.

(** X4: under a code of [U_ZERO_ERROR] after [uregex_getText], and for a
    size within the text and within [int], [appendHead] puts the first
    [size] units of the matcher's text at the start of the buffer,
    whatever was there and wherever the cursor stood, and sets the
    cursor to [size].  The buffer grows to [size] when it was shorter
    and is never made shorter: the units beyond [size] stay. *)
Theorem appendHead_copies_head
    (size_ : Z) (f : frame M) (text : list UChar) (m' : M) :
  0 < size_ <= INT_MAX ->
  uregex_getText (m_re f) (m_error_code f) = (text, m', U_ZERO_ERROR) ->
  size_ <= size text ->
  exists f',
    appendHead size_ f = Return tt f'
    /\ m_re f' = m'
    /\ m_error_code f' = U_ZERO_ERROR
    /\ m_replace_buffer_pos f' = size_
    /\ firstn (Z.to_nat size_) (m_replace_buffer f')
       = firstn (Z.to_nat size_) text
    /\ skipn (Z.to_nat size_) (m_replace_buffer f')
       = skipn (Z.to_nat size_) (m_replace_buffer f)
    /\ size (m_replace_buffer f') = Z.max (size (m_replace_buffer f)) size_.
Proof.
  intros Hsize Hcall Htext.
  destruct (appendHead_run f Hsize Hcall Htext) as (l & Hrun).
  eexists. split; [exact Hrun|]. fields.
  assert (Hw : length (firstn (Z.to_nat size_) text) = Z.to_nat size_)
    by (rewrite length_firstn; unfold size, INT_MAX in *; lia).
  repeat apply conj; auto.
  - rewrite firstn_app, Hw, Nat.sub_diag. cbn [firstn].
    rewrite app_nil_r. apply firstn_all2. lia.
  - rewrite skipn_app, Hw, Nat.sub_diag. cbn [skipn].
    rewrite skipn_all2 by lia. reflexivity.
  - unfold size. rewrite length_app, Hw, length_skipn.
    unfold size, INT_MAX in *. lia.
Qed.

End Head.
(** ** The two appends *)

Section Appends.

Context {M : Type} {matcher : Matcher M}.


(** Units stored through the cursor leave the cursor where it is, and
    the size of the buffer and everything before the cursor as they
    were. *)
Lemma stored_keeps_prefix (w : list UChar) (f f' : frame M) :
  stored w f = Return tt f' ->
  m_replace_buffer_pos f' = m_replace_buffer_pos f
  /\ (0 <= m_replace_buffer_pos f <= size (m_replace_buffer f) ->
      size (m_replace_buffer f') = size (m_replace_buffer f)
      /\ firstn (Z.to_nat (m_replace_buffer_pos f)) (m_replace_buffer f')
         = firstn (Z.to_nat (m_replace_buffer_pos f)) (m_replace_buffer f)).
Proof.
  unfold stored.
  destruct w as [|c w].
  - intros Hrun. injection Hrun as <-. auto.
  - destruct ((0 <=? m_replace_buffer_pos f)
              && (m_replace_buffer_pos f + size (c :: w)
                  <=? size (m_replace_buffer f))) eqn:E; [|discriminate].
    apply andb_prop in E. destruct E as [_ E]. apply Z.leb_le in E.
    unfold set_buffer. intros Hrun. injection Hrun as <-. fields.
    split; [reflexivity|]. intros Hpos. split.
    + apply size_overwrite. unfold size in *. lia.
    + apply firstn_overwrite_before. unfold size in *. lia.
Qed.

(** An attempt leaves alone what lies before the cursor. *)
Lemma tryToAppendReplacement_keeps_prefix r l (f f' : frame M) n :
  tryToAppendReplacement r l f = Return n f' ->
  m_replace_buffer_pos f' = m_replace_buffer_pos f
  /\ (0 <= m_replace_buffer_pos f <= size (m_replace_buffer f) ->
      size (m_replace_buffer f') = size (m_replace_buffer f)
      /\ firstn (Z.to_nat (m_replace_buffer_pos f)) (m_replace_buffer f')
         = firstn (Z.to_nat (m_replace_buffer_pos f)) (m_replace_buffer f)).
Proof.
  unfold tryToAppendReplacement, bind, get_buffer, get_pos.
  destruct (empty (m_replace_buffer f)).
  - unfold ret. intros Hrun. injection Hrun as <- <-. auto.
  - unfold call_appendReplacement.
    destruct (uregex_appendReplacement _ _ _ _ _) as [[[n1 w1] m1] s1].
    unfold bind.
    match goal with |- context [stored w1 ?g] =>
      destruct (stored w1 g) as [[] g'| |] eqn:Est; try discriminate;
      apply stored_keeps_prefix in Est
    end.
    fields. unfold ret. intros Hrun. injection Hrun as <- <-. exact Est.
Qed.

Lemma tryToAppendTail_keeps_prefix (f f' : frame M) n :
  tryToAppendTail f = Return n f' ->
  m_replace_buffer_pos f' = m_replace_buffer_pos f
  /\ (0 <= m_replace_buffer_pos f <= size (m_replace_buffer f) ->
      size (m_replace_buffer f') = size (m_replace_buffer f)
      /\ firstn (Z.to_nat (m_replace_buffer_pos f)) (m_replace_buffer f')
         = firstn (Z.to_nat (m_replace_buffer_pos f)) (m_replace_buffer f)).
Proof.
  unfold tryToAppendTail, bind, get_buffer, get_pos.
  destruct (empty (m_replace_buffer f)).
  - unfold ret. intros Hrun. injection Hrun as <- <-. auto.
  - unfold call_appendTail.
    destruct (uregex_appendTail _ _ _) as [[[n1 w1] m1] s1].
    unfold bind.
    match goal with |- context [stored w1 ?g] =>
      destruct (stored w1 g) as [[] g'| |] eqn:Est; try discriminate;
      apply stored_keeps_prefix in Est
    end.
    fields. unfold ret. intros Hrun. injection Hrun as <- <-. exact Est.
Qed.

(** Lines 31 to 38 and 49 to 56: when the cursor does not end up before
    where it started, the resize did not cut into what was written. *)
Lemma retrying_keeps_prefix (try : @cmd M Z) :
  (forall (g g' : frame M) n,
      try g = Return n g' ->
      m_replace_buffer_pos g' = m_replace_buffer_pos g
      /\ (0 <= m_replace_buffer_pos g <= size (m_replace_buffer g) ->
          size (m_replace_buffer g') = size (m_replace_buffer g)
          /\ firstn (Z.to_nat (m_replace_buffer_pos g)) (m_replace_buffer g')
             = firstn (Z.to_nat (m_replace_buffer_pos g))
                      (m_replace_buffer g))) ->
  forall f f' : frame M,
    0 <= m_replace_buffer_pos f <= size (m_replace_buffer f) ->
    retrying try f = Return tt f' ->
    m_replace_buffer_pos f <= m_replace_buffer_pos f' ->
    firstn (Z.to_nat (m_replace_buffer_pos f)) (m_replace_buffer f')
    = firstn (Z.to_nat (m_replace_buffer_pos f)) (m_replace_buffer f).
Proof.
  intros Htry f f' Hpos. unfold retrying, bind.
  destruct (try f) as [n g| |] eqn:E1; try discriminate.
  destruct (Htry _ _ _ E1) as (Hp1 & Hkeep1).
  destruct (Hkeep1 Hpos) as (Hs1 & Hb1).
  unfold get_error_code.
  destruct (m_error_code g =? U_BUFFER_OVERFLOW_ERROR).
  - unfold get_pos. fields.
    unfold resize, bind, note. fields.
    destruct (max_size <? to_size_t (to_int (m_replace_buffer_pos g + n)))
      eqn:Emax; [discriminate|].
    apply Z.ltb_ge in Emax. apply to_int_resizable in Emax.
    destruct Emax as [Hrange Hconv]. rewrite Hconv.
    unfold set_buffer, set_error_code. fields.
    match goal with |- context [try ?h] =>
      destruct (try h) as [n2 g2| |] eqn:E2; try discriminate;
      destruct (Htry h g2 n2 E2) as (Hp2 & Hkeep2)
    end.
    fields. unfold ret, set_pos. fields.
    intros Hrun Hmono. injection Hrun as <-. fields.
    rewrite Hp1 in *. rewrite Hp2 in Hmono.
    assert (Hlen : size (resized (m_replace_buffer g)
                           (to_int (m_replace_buffer_pos f + n)))
                   = to_int (m_replace_buffer_pos f + n))
      by (apply size_resized; lia).
    destruct Hkeep2 as (Hs2 & Hb2); [lia|].
    rewrite Hb2.
    rewrite firstn_resized; [exact Hb1 | unfold size in *; lia | lia].
  - unfold ret, get_pos, set_pos. fields.
    intros Hrun _. injection Hrun as <-. fields. exact Hb1.
Qed.

(** X6: what was written is kept.  Whatever the matcher stores or
    returns, when [appendReplacement] or [appendTail] returns and the
    cursor has not moved backwards, every unit before the old cursor is
    as it was: the matcher writes from the cursor on, and the resize on
    overflow goes to the new cursor. *)
Theorem append_keeps_what_was_written
    (replacement : list UChar) (replacementLen : Z) (f f' : frame M) :
  0 <= m_replace_buffer_pos f <= size (m_replace_buffer f) ->
  appendReplacement replacement replacementLen f = Return tt f'
  \/ appendTail f = Return tt f' ->
  m_replace_buffer_pos f <= m_replace_buffer_pos f' ->
  firstn (Z.to_nat (m_replace_buffer_pos f)) (m_replace_buffer f')
  = firstn (Z.to_nat (m_replace_buffer_pos f)) (m_replace_buffer f).
Proof.
  intros Hpos [Hrun|Hrun] Hmono.
  - change (appendReplacement replacement replacementLen f)
      with (retrying (tryToAppendReplacement replacement replacementLen)
                     (log appendReplacement_call f)) in Hrun.
    apply (@retrying_keeps_prefix
             (tryToAppendReplacement replacement replacementLen)
             (@tryToAppendReplacement_keeps_prefix replacement replacementLen)
             (log appendReplacement_call f) f'); assumption.
  - change (appendTail f)
      with (retrying tryToAppendTail (log appendTail_call f)) in Hrun.
    apply (@retrying_keeps_prefix
             tryToAppendTail tryToAppendTail_keeps_prefix
             (log appendTail_call f) f'); assumption.
Qed.

End Appends.
(** ** The length handed back *)

Section Length.

Context {M : Type} {matcher : Matcher M}.

(** Line 56 leaves an [int] in the cursor. *)
Lemma appendTail_cursor_is_int (f f' : frame M) :
  appendTail f = Return tt f' ->
  - 2 ^ 31 <= m_replace_buffer_pos f' < 2 ^ 31.
Proof.
  change (appendTail f) with (retrying tryToAppendTail (log appendTail_call f)).
  generalize (log appendTail_call f). clear f. intros f.
  unfold retrying, bind.
  destruct (tryToAppendTail f) as [n g| |]; try discriminate.
  unfold get_error_code.
  destruct (m_error_code g =? U_BUFFER_OVERFLOW_ERROR).
  - unfold get_pos.
    destruct (resize _ g) as [[] g1| |]; try discriminate.
    unfold set_error_code.
    destruct (tryToAppendTail _) as [n2 g2| |]; try discriminate.
    unfold ret, set_pos. intros Hrun. injection Hrun as <-. fields.
    apply to_int_range.
  - unfold ret, get_pos, set_pos. intros Hrun. injection Hrun as <-. fields.
    apply to_int_range.
Qed.

(** X7: whenever [replace] returns a new block, the length it reports
    is the final cursor, lies between 0 and [INT_MAX], and is the number
    of units of the block.  A cursor that went negative never reaches
    [malloc]: converted to [size_t] on line 79 it is above [max_size()]
    and [resize] throws. *)
Theorem fresh_length_is_the_cursor
    (fuel : nat) (regexp : M) (replacement : list UChar) (replacementLen : Z)
    (original : list UChar) (originalSize start occurrence : Z)
    (returnStr : u16string) (allocated copied returnSize : Z) (f : frame M) :
  replace fuel regexp replacement replacementLen original originalSize
          start occurrence
  = Return (Fresh returnStr allocated copied, returnSize) f ->
  returnSize = m_replace_buffer_pos f
  /\ 0 <= returnSize <= INT_MAX
  /\ size returnStr = returnSize.
Proof.
  intros Hrun.
  destruct (search_spec start occurrence (initial regexp))
    as (found & e & f1 & _ & _ & _ & Hsearch & _).
  rewrite replace_after_search with (1 := Hsearch) in Hrun.
  destruct (negb found && _); [discriminate Hrun|].
  unfold build, bind in Hrun.
  destruct (resize _ f1) as [[] g1| |]; try discriminate.
  destruct (appendHead _ g1) as [[] g2| |]; try discriminate.
  destruct ((if found
             then replace_loop fuel occurrence replacement replacementLen
             else ret tt) g2) as [[] g3| |]; try discriminate.
  destruct (appendTail g3) as [[] g4| |] eqn:Etail; try discriminate.
  apply appendTail_cursor_is_int in Etail.
  assert (Hpos : 0 <= m_replace_buffer_pos g4).
  { destruct (Z.lt_ge_cases (m_replace_buffer_pos g4) 0) as [Hneg|]; [|lia].
    exfalso. revert Hrun. unfold finalize, bind, get_pos.
    rewrite resize_throws by (apply to_size_t_negative; lia).
    discriminate. }
  apply finalize_returns in Hrun. destruct Hrun as (Hres & Hbuf & Hcur).
  injection Hres as Hb _ _ Hn.
  assert (Hsize : size (m_replace_buffer f) = m_replace_buffer_pos g4).
  { rewrite Hbuf, to_size_t_small by lia. apply size_resized. lia. }
  subst returnStr returnSize. rewrite Hsize, Hcur.
  rewrite to_int_small by lia. unfold INT_MAX. lia.
Qed.

End Length.
(** ** On the reference matcher: [originalSize] is only a first capacity *)

Section AnyCapacity.

Variables (t : list UChar) (sp : list (Z * Z)) (r : list UChar).

(** [appendHead] on the reference matcher, whatever the size of the
    buffer it finds. *)
Lemma appendHead_holds (h : Z) (f : frame SpanMatcher.t) :
  SpanMatcher.fText (m_re f) = t ->
  m_error_code f = U_ZERO_ERROR ->
  m_replace_buffer_pos f = 0 ->
  size (m_replace_buffer f) <= INT_MAX ->
  0 <= h <= size t -> h <= INT_MAX ->
  0 < size (m_replace_buffer f) \/ 0 < h ->
  exists f',
    appendHead h f = Return tt f'
    /\ m_re f' = m_re f
    /\ m_error_code f' = U_ZERO_ERROR
    /\ empty (m_replace_buffer f') = false
    /\ within_capacity f'
    /\ holds (firstn (Z.to_nat h) t) f'.
Proof.
  intros Ht Hs Hpos Hsize Hh Hint Hroom.
  pose proof (size_nonneg (m_replace_buffer f)) as Hb0.
  destruct (Z.eq_dec h 0) as [->|Hnz].
  - rewrite appendHead_zero. eexists. split; [reflexivity|]. fields.
    split; [reflexivity|]. split; [exact Hs|]. split.
    { apply not_true_is_false. intros E. apply empty_size in E. lia. }
    split.
    { unfold within_capacity. fields. lia. }
    unfold holds. fields. split; [exact Hpos | reflexivity].
  - assert (Hcall : uregex_getText (m_re f) (m_error_code f)
                    = (t, m_re f, U_ZERO_ERROR)).
    { cbn [uregex_getText SpanMatcher.matcher]. unfold SpanMatcher.getText.
      rewrite Hs, Ht. reflexivity. }
    destruct (@appendHead_run _ _ h f t (m_re f)) as (l & Hrun);
      [lia | exact Hcall | lia |].
    eexists. split; [exact Hrun|]. fields.
    assert (Hw : length (firstn (Z.to_nat h) t) = Z.to_nat h)
      by (rewrite length_firstn; unfold size in *; lia).
    assert (Hlen : size (firstn (Z.to_nat h) t
                         ++ skipn (Z.to_nat h) (m_replace_buffer f))
                   = Z.max (size (m_replace_buffer f)) h).
    { unfold size. rewrite length_app, Hw, length_skipn.
      unfold size in *. lia. }
    split; [reflexivity|]. split; [reflexivity|]. split.
    { apply not_true_is_false. intros E. apply empty_size in E. lia. }
    split.
    { unfold within_capacity. fields. lia. }
    unfold holds. fields. split.
    + unfold size. rewrite Hw. lia.
    + rewrite Hw, firstn_app, Hw, Nat.sub_diag. cbn [firstn].
      rewrite app_nil_r. apply firstn_all2. lia.
Qed.

(** Selector k on the reference matcher, from any first capacity. *)
Lemma replace_nth_on_spans_sized (fuel : nat) (original : list UChar)
    (originalSize start : Z) (before : list (Z * Z)) (s e : Z)
    (rest : list (Z * Z)) :
  0 <= start ->
  0 <= originalSize <= INT_MAX ->
  0 < originalSize \/ 0 < end_of start before ->
  filter (fun se => start <=? fst se) sp = before ++ (s, e) :: rest ->
  ordered_from start (before ++ (s, e) :: rest) (size t) ->
  size t + size r <= INT_MAX ->
  exists f,
    replace (S fuel) (SpanMatcher.open t sp) r (size r) original originalSize
            start (Z.of_nat (length before) + 1)
    = Return (Fresh (firstn (Z.to_nat s) t ++ r ++ skipn (Z.to_nat e) t)
                    (size (firstn (Z.to_nat s) t ++ r ++ skipn (Z.to_nat e) t)
                     * sizeof_UChar_ptr)
                    (size (firstn (Z.to_nat s) t ++ r ++ skipn (Z.to_nat e) t)
                     * sizeof_UChar_ptr),
              size (firstn (Z.to_nat s) t ++ r ++ skipn (Z.to_nat e) t)) f.
Proof.
  intros Hstart Hsz Hroom Hfilter Hord Hfit.
  destruct (@search_spans t sp start before s e rest Hstart Hfilter Hord)
    as (epm & f1 & Hsearch & Hm & Hs & Hb & Hp & Hmax).
  apply ordered_from_split in Hord.
  destruct Hord as (H1 & H2 & H3 & H4 & _).
  set (h := end_of start before) in *.
  pose proof (size_nonneg r) as Hr0.
  unfold INT_MAX in *.
  rewrite replace_after_search with (1 := Hsearch).
  cbn [negb andb].
  unfold build. unfold bind at 1.
  rewrite to_size_t_small by lia.
  rewrite resize_ok by (unfold max_size; lia).
  rewrite Hmax. rewrite (to_size_t_small (z := h)) by lia.
  unfold bind at 1.
  match goal with |- context [appendHead h ?g] =>
    destruct (@appendHead_holds h g)
      as (f2 & -> & Hm2 & Hs2 & Hne2 & Hin2 & Hc2)
  end; fields; auto; try (rewrite Hb, size_resized by lia);
    try (unfold INT_MAX; lia).
  { rewrite Hm. reflexivity. }
  rewrite Hm in Hm2.
  unfold bind at 1. rewrite replace_loop_once by lia.
  destruct (@appendReplacement_writes t sp r rest s e h f2
              (firstn (Z.to_nat h) t))
    as (f3 & -> & Hm3 & Hs3 & Hne3 & Hin3 & Hc3); auto.
  { rewrite Hs2. reflexivity. }
  { rewrite !size_app, size_firstn_within, size_slice by lia.
    unfold INT_MAX. lia. }
  unfold bind at 1.
  destruct (@appendTail_writes t (on_match t sp rest s e h) e f3
              (firstn (Z.to_nat h) t ++ SpanMatcher.slice t h s ++ r))
    as (f4 & -> & Hin4 & Hc4); auto; try lia.
  { rewrite !size_app, size_firstn_within, !size_slice by lia.
    unfold INT_MAX. lia. }
  replace ((firstn (Z.to_nat h) t ++ SpanMatcher.slice t h s ++ r)
           ++ SpanMatcher.slice t e (size t))
    with (firstn (Z.to_nat s) t ++ r ++ skipn (Z.to_nat e) t) in Hc4.
  - apply (@finalize_holds _ f4 Hc4 Hin4).
  - rewrite slice_to_end by lia.
    rewrite <- (firstn_then_slice t (h := h) (s := s)) by lia.
    rewrite <- !app_assoc. reflexivity.
Qed.

(** Selector 0 on the reference matcher, from any first capacity. *)
Lemma replace_all_on_spans_sized (fuel : nat) (original : list UChar)
    (originalSize start s e : Z) (rest : list (Z * Z)) :
  0 <= start ->
  0 <= originalSize <= INT_MAX ->
  0 < originalSize \/ 0 < start ->
  filter (fun se => start <=? fst se) sp = (s, e) :: rest ->
  ordered_from start ((s, e) :: rest) (size t) ->
  size (firstn (Z.to_nat start) t ++ substituted t r start ((s, e) :: rest))
  <= INT_MAX ->
  (length rest < fuel)%nat ->
  exists f,
    replace fuel (SpanMatcher.open t sp) r (size r) original originalSize
            start 0
    = Return
        (Fresh (firstn (Z.to_nat start) t
                ++ substituted t r start ((s, e) :: rest))
               (size (firstn (Z.to_nat start) t
                      ++ substituted t r start ((s, e) :: rest))
                * sizeof_UChar_ptr)
               (size (firstn (Z.to_nat start) t
                      ++ substituted t r start ((s, e) :: rest))
                * sizeof_UChar_ptr),
         size (firstn (Z.to_nat start) t
               ++ substituted t r start ((s, e) :: rest))) f.
Proof.
  intros Hstart Hsz Hroom Hfilter Hord Hfit Hfuel.
  pose proof Hord as Hlen. apply ordered_from_le in Hlen.
  assert (Hsmall : start <= INT_MAX).
  { rewrite size_app, size_firstn_within in Hfit by lia.
    pose proof (size_substituted_nonneg t r start ((s, e) :: rest)). lia. }
  assert (Hfind : uregex_find (SpanMatcher.open t sp) start U_ZERO_ERROR
                  = (true, on_match t sp rest s e start, U_ZERO_ERROR)).
  { cbn [uregex_find SpanMatcher.matcher]. apply find_first; [lia | exact Hfilter]. }
  assert (Hocc : 0 <= 1) by lia.
  rewrite replace_after_search
    with (1 := search_first start (SpanMatcher.open t sp) Hocc Hfind).
  cbn [negb andb]. unfold INT_MAX in *.
  unfold build. unfold bind at 1.
  rewrite to_size_t_small by lia.
  rewrite resize_ok by (unfold max_size; lia).
  replace (Z.max 0 start) with start by lia.
  rewrite (to_size_t_small (z := start)) by lia.
  unfold bind at 1.
  match goal with |- context [appendHead start ?g] =>
    destruct (@appendHead_holds start g)
      as (f2 & -> & Hm2 & Hs2 & Hne2 & Hin2 & Hc2)
  end; fields; auto; try (rewrite size_resized by lia);
    try (unfold INT_MAX; lia).
  assert (Hsuccess : U_SUCCESS (m_error_code f2) = true)
    by (rewrite Hs2; reflexivity).
  unfold bind at 1.
  destruct (@replace_loop_on_spans t sp r rest s e start
              (firstn (Z.to_nat start) t) f2 fuel
              Hm2 Hsuccess Hne2 Hin2 Hc2 Hstart Hord Hfit Hfuel)
    as (f3 & c3 & s3 & e3 & -> & R1 & R2 & R3 & R4 & R5 & R6 & R7).
  unfold bind at 1.
  assert (Hfit3 : size c3 + size (SpanMatcher.slice t e3 (size t)) <= INT_MAX).
  { rewrite <- size_app, R7. exact Hfit. }
  destruct (@appendTail_writes t (SpanMatcher.Make t sp [] false s3 e3 e3) e3
              f3 c3 R1 eq_refl eq_refl R2 R3 R4 R5 R6 Hfit3)
    as (f4 & -> & Hin4 & Hc4).
  rewrite R7 in Hc4.
  apply (@finalize_holds _ f4 Hc4 Hin4).
Qed.

End AnyCapacity.
Section OnSpans.

Variables (t : list UChar) (sp : list (Z * Z)).

(** X8: on the reference matcher [originalSize] is only the first
    capacity of the staging buffer.  Under a selector [k > 0], whatever
    [originalSize] between 0 and [INT_MAX] is passed (0 only when there
    is a head to copy), shorter than the text or longer, [appendHead]
    and the retries on overflow grow the buffer as needed and the result
    is the text with the k-th match replaced, cut to its own length. *)
Theorem replace_nth_from_any_capacity
    (r : list UChar) (fuel : nat) (original : list UChar)
    (originalSize start : Z) (before : list (Z * Z)) (s e : Z)
    (rest : list (Z * Z)) :
  0 <= start ->
  0 <= originalSize <= INT_MAX ->
  0 < originalSize \/ 0 < end_of start before ->
  filter (fun se => start <=? fst se) sp = before ++ (s, e) :: rest ->
  ordered_from start (before ++ (s, e) :: rest) (size t) ->
  size t + size r <= INT_MAX ->
  let out := firstn (Z.to_nat s) t ++ r ++ skipn (Z.to_nat e) t in
  exists f,
    replace (S fuel) (SpanMatcher.open t sp) r (size r) original originalSize
            start (Z.of_nat (length before) + 1)
    = Return (Fresh out (size out * sizeof_UChar_ptr)
                    (size out * sizeof_UChar_ptr), size out) f.
Proof.
  intros Hstart Hsz Hroom Hfilter Hord Hfit out.
  exact (@replace_nth_on_spans_sized t sp r fuel original originalSize start
           before s e rest Hstart Hsz Hroom Hfilter Hord Hfit).
Qed.

(** X9: the same under selector 0: from any first capacity the result
    is the text with every match from [start] replaced. *)
Theorem replace_all_from_any_capacity
    (r : list UChar) (fuel : nat) (original : list UChar)
    (originalSize start s e : Z) (rest : list (Z * Z)) :
  0 <= start ->
  0 <= originalSize <= INT_MAX ->
  0 < originalSize \/ 0 < start ->
  filter (fun se => start <=? fst se) sp = (s, e) :: rest ->
  ordered_from start ((s, e) :: rest) (size t) ->
  let out := firstn (Z.to_nat start) t
             ++ substituted t r start ((s, e) :: rest) in
  size out <= INT_MAX ->
  (length rest < fuel)%nat ->
  exists f,
    replace fuel (SpanMatcher.open t sp) r (size r) original originalSize
            start 0
    = Return (Fresh out (size out * sizeof_UChar_ptr)
                    (size out * sizeof_UChar_ptr), size out) f.
Proof.
  intros Hstart Hsz Hroom Hfilter Hord out Hfit Hfuel.
  exact (@replace_all_on_spans_sized t sp r fuel original originalSize start
           s e rest Hstart Hsz Hroom Hfilter Hord Hfit Hfuel).
Qed.

(** X10: the length reported under a selector [k > 0] is that of the
    text, less the units of the k-th match, plus those of the
    replacement. *)
Theorem replace_nth_length
    (r : list UChar) (fuel : nat) (original : list UChar)
    (originalSize start : Z) (before : list (Z * Z)) (s e : Z)
    (rest : list (Z * Z)) :
  0 <= start ->
  0 <= originalSize <= INT_MAX ->
  0 < originalSize \/ 0 < end_of start before ->
  filter (fun se => start <=? fst se) sp = before ++ (s, e) :: rest ->
  ordered_from start (before ++ (s, e) :: rest) (size t) ->
  size t + size r <= INT_MAX ->
  exists returnStr allocated copied f,
    replace (S fuel) (SpanMatcher.open t sp) r (size r) original originalSize
            start (Z.of_nat (length before) + 1)
    = Return (Fresh returnStr allocated copied,
              size t - (e - s) + size r) f
    /\ size returnStr = size t - (e - s) + size r.
Proof.
  intros Hstart Hsz Hroom Hfilter Hord Hfit.
  destruct (@replace_nth_on_spans_sized t sp r fuel original originalSize
              start before s e rest Hstart Hsz Hroom Hfilter Hord Hfit)
    as (f & Hrun).
  apply ordered_from_split in Hord.
  destruct Hord as (H1 & H2 & H3 & H4 & _).
  assert (Hlen : size (firstn (Z.to_nat s) t ++ r ++ skipn (Z.to_nat e) t)
                 = size t - (e - s) + size r).
  { rewrite !size_app, size_firstn_within by lia.
    rewrite <- slice_to_end, size_slice by lia. lia. }
  rewrite Hlen in Hrun. eexists _, _, _, f. split; [exact Hrun | exact Hlen].
Qed.

(** X11: replacing the k-th match by the very units it matched gives
    back the text, unit for unit and with the same length, though as a
    new block and not as the [original] pointer. *)
Theorem replace_nth_by_itself_is_the_text
    (fuel : nat) (original : list UChar)
    (originalSize start : Z) (before : list (Z * Z)) (s e : Z)
    (rest : list (Z * Z)) :
  0 <= start ->
  0 <= originalSize <= INT_MAX ->
  0 < originalSize \/ 0 < end_of start before ->
  filter (fun se => start <=? fst se) sp = before ++ (s, e) :: rest ->
  ordered_from start (before ++ (s, e) :: rest) (size t) ->
  size t + (e - s) <= INT_MAX ->
  exists f,
    replace (S fuel) (SpanMatcher.open t sp) (SpanMatcher.slice t s e) (e - s)
            original originalSize start (Z.of_nat (length before) + 1)
    = Return (Fresh t (size t * sizeof_UChar_ptr) (size t * sizeof_UChar_ptr),
              size t) f.
Proof.
  intros Hstart Hsz Hroom Hfilter Hord Hfit.
  pose proof Hord as Hsplit. apply ordered_from_split in Hsplit.
  destruct Hsplit as (H1 & H2 & H3 & H4 & _).
  assert (Hr : size (SpanMatcher.slice t s e) = e - s)
    by (apply size_slice; lia).
  rewrite <- Hr in Hfit.
  destruct (@replace_nth_on_spans_sized t sp (SpanMatcher.slice t s e) fuel
              original originalSize start before s e rest
              Hstart Hsz Hroom Hfilter Hord Hfit) as (f & Hrun).
  assert (Hback : firstn (Z.to_nat s) t ++ SpanMatcher.slice t s e
                  ++ skipn (Z.to_nat e) t = t).
  { rewrite app_assoc, firstn_then_slice by lia. apply firstn_skipn. }
  rewrite Hback, Hr in Hrun. exists f. exact Hrun.
Qed.

(** X12: when the text has a single match from [start] on, selector 0
    and selector 1 hand back the same block and the same length. *)
Theorem replace_all_of_one_match_is_replace_first
    (r : list UChar) (fuel : nat) (original : list UChar)
    (originalSize start s e : Z) :
  0 <= start ->
  0 <= originalSize <= INT_MAX ->
  0 < originalSize \/ 0 < start ->
  filter (fun se => start <=? fst se) sp = [(s, e)] ->
  ordered_from start [(s, e)] (size t) ->
  size t + size r <= INT_MAX ->
  exists returnStr allocated copied returnSize f0 f1,
    replace (S fuel) (SpanMatcher.open t sp) r (size r) original originalSize
            start 0
    = Return (Fresh returnStr allocated copied, returnSize) f0
    /\ replace (S fuel) (SpanMatcher.open t sp) r (size r) original
               originalSize start 1
       = Return (Fresh returnStr allocated copied, returnSize) f1.
Proof.
  intros Hstart Hsz Hroom Hfilter Hord Hfit.
  pose proof Hord as Hsplit. cbn [ordered_from] in Hsplit.
  destruct Hsplit as (H1 & H2 & H3).
  assert (Hsame : firstn (Z.to_nat start) t ++ substituted t r start [(s, e)]
                  = firstn (Z.to_nat s) t ++ r ++ skipn (Z.to_nat e) t).
  { cbn [substituted]. rewrite app_assoc, firstn_then_slice by lia.
    rewrite slice_to_end by lia. reflexivity. }
  assert (Hlen : size (firstn (Z.to_nat s) t ++ r ++ skipn (Z.to_nat e) t)
                 <= INT_MAX).
  { rewrite !size_app, size_firstn_within by lia.
    rewrite <- slice_to_end, size_slice by lia. lia. }
  destruct (@replace_nth_on_spans_sized t sp r fuel original originalSize
              start [] s e [] Hstart Hsz Hroom Hfilter Hord Hfit)
    as (f1 & Hone).
  destruct (@replace_all_on_spans_sized t sp r (S fuel) original originalSize
              start s e [] Hstart Hsz Hroom Hfilter Hord)
    as (f0 & Hall).
  { rewrite Hsame. exact Hlen. }
  { simpl. lia. }
  rewrite Hsame in Hall. cbn [length Z.of_nat Z.add] in Hone.
  eexists _, _, _, _, f0, f1. split; [exact Hall | exact Hone].
Qed.

(** The length of a text with every match of [spans] replaced. *)
Lemma size_substituted (r : list UChar) (spans : list (Z * Z)) :
  forall from,
    0 <= from -> ordered_from from spans (size t) ->
    size (substituted t r from spans)
    = size t - from - matched_units spans
      + Z.of_nat (length spans) * size r.
Proof.
  induction spans as [|[s e] rest IH]; intros from Hfrom Hord.
  - cbn [substituted matched_units length ordered_from] in *.
    rewrite size_slice by lia. lia.
  - cbn [ordered_from] in Hord. destruct Hord as (H1 & H2 & H3).
    pose proof H3 as Hle. apply ordered_from_le in Hle.
    cbn [substituted matched_units length].
    rewrite !size_app, size_slice, IH by (auto; lia). lia.
Qed.

(** X13: the length reported under selector 0 is that of the text, less
    the units of all the matches from [start] on, plus one replacement
    per match. *)
Theorem replace_all_length
    (r : list UChar) (fuel : nat) (original : list UChar)
    (originalSize start s e : Z) (rest : list (Z * Z)) :
  0 <= start ->
  0 <= originalSize <= INT_MAX ->
  0 < originalSize \/ 0 < start ->
  filter (fun se => start <=? fst se) sp = (s, e) :: rest ->
  ordered_from start ((s, e) :: rest) (size t) ->
  size t - matched_units ((s, e) :: rest)
  + Z.of_nat (length ((s, e) :: rest)) * size r <= INT_MAX ->
  (length rest < fuel)%nat ->
  exists returnStr allocated copied f,
    replace fuel (SpanMatcher.open t sp) r (size r) original originalSize
            start 0
    = Return (Fresh returnStr allocated copied,
              size t - matched_units ((s, e) :: rest)
              + Z.of_nat (length ((s, e) :: rest)) * size r) f
    /\ size returnStr
       = size t - matched_units ((s, e) :: rest)
         + Z.of_nat (length ((s, e) :: rest)) * size r.
Proof.
  intros Hstart Hsz Hroom Hfilter Hord Hfit Hfuel.
  pose proof Hord as Hle. apply ordered_from_le in Hle.
  assert (Hlen : size (firstn (Z.to_nat start) t
                       ++ substituted t r start ((s, e) :: rest))
                 = size t - matched_units ((s, e) :: rest)
                   + Z.of_nat (length ((s, e) :: rest)) * size r).
  { rewrite size_app, size_firstn_within, size_substituted by (auto; lia).
    lia. }
  destruct (@replace_all_on_spans_sized t sp r fuel original originalSize
              start s e rest Hstart Hsz Hroom Hfilter Hord)
    as (f & Hrun); [rewrite Hlen; exact Hfit | exact Hfuel |].
  rewrite Hlen in Hrun. eexists _, _, _, f. split; [exact Hrun | exact Hlen].
Qed.

End OnSpans.
(** ** On the reference matcher: too few matches *)

Section TooFew.

Variables (t : list UChar) (sp : list (Z * Z)).

Lemma skip_loop_not_found (n : nat) (epm : Z) (f : frame SpanMatcher.t) :
  skip_loop n false epm f = Return (false, epm) f.
Proof. destruct n; reflexivity. Qed.

(** With more rounds to go than matches left, the skip loop ends on the
    [uregex_findNext] that finds nothing. *)
Lemma skip_loop_runs_out (pending : list (Z * Z)) :
  forall (n : nat) (s0 e0 last epm : Z) (f : frame SpanMatcher.t),
    m_re f = on_match t sp pending s0 e0 last ->
    m_error_code f = U_ZERO_ERROR ->
    (length pending < n)%nat ->
    exists e f',
      skip_loop n true epm f = Return (false, e) f'
      /\ m_error_code f' = U_ZERO_ERROR.
Proof.
  induction pending as [|[s1 e1] rest IH];
    intros n s0 e0 last epm f Hm Hs Hn.
  - destruct n as [|n]; [simpl in Hn; lia|].
    cbn [skip_loop]. unfold bind, call_end, call_findNext.
    rewrite Hm, Hs. cbn [uregex_end uregex_findNext SpanMatcher.matcher].
    rewrite end_on_match.
    cbn [m_re m_error_code m_replace_buffer m_replace_buffer_pos trace].
    rewrite findNext_exhausted by reflexivity.
    rewrite skip_loop_not_found. eexists _, _. split; reflexivity.
  - destruct n as [|n]; [simpl in Hn; lia|].
    rewrite skip_round with (1 := Hm) (2 := Hs).
    eapply IH; [reflexivity | reflexivity | simpl in Hn; lia].
Qed.

(** X14: on the reference matcher, when the matches from [start] on are
    fewer than the selector asks for (none at all for a selector of 1 or
    below), [replace] hands back the [original] pointer and
    [originalSize] as they were passed, whatever the replacement and
    whatever [originalSize], a negative one included. *)
Theorem replace_with_too_few_matches_returns_original
    (fuel : nat) (replacement : list UChar) (replacementLen : Z)
    (original : list UChar) (originalSize start occurrence : Z)
    (matches : list (Z * Z)) :
  0 <= start <= size t ->
  filter (fun se => start <=? fst se) sp = matches ->
  Z.of_nat (length matches) < Z.max 1 occurrence ->
  exists f,
    replace fuel (SpanMatcher.open t sp) replacement replacementLen original
            originalSize start occurrence
    = Return (Unchanged original, originalSize) f.
Proof.
  intros Hstart Hfilter Hfew.
  assert (Hsearch : exists e f1,
             search start occurrence (initial (SpanMatcher.open t sp))
             = Return (false, e) f1
             /\ m_error_code f1 = U_ZERO_ERROR).
  { destruct matches as [|[s e] rest].
    - eexists _, _. split.
      + apply search_no_first_match.
        cbn [initial m_re m_error_code uregex_find SpanMatcher.matcher].
        unfold SpanMatcher.find.
        change (U_FAILURE U_ZERO_ERROR) with false. cbv iota.
        destruct (start =? -1) eqn:E; [apply Z.eqb_eq in E; lia|].
        cbn [SpanMatcher.fText SpanMatcher.fSpans SpanMatcher.open].
        destruct (start <? 0) eqn:E1; [apply Z.ltb_lt in E1; lia|].
        destruct (size t <? start) eqn:E2; [apply Z.ltb_lt in E2; lia|].
        cbn [orb]. rewrite Hfilter. reflexivity.
      + reflexivity.
    - unfold search, bind, call_find, initial.
      cbn [m_re m_error_code m_replace_buffer m_replace_buffer_pos trace
           uregex_find SpanMatcher.matcher].
      rewrite (@find_first t sp start s e rest Hstart Hfilter).
      cbn [length] in Hfew.
      eapply skip_loop_runs_out with (pending := rest);
        [reflexivity | reflexivity | lia]. }
  destruct Hsearch as (e & f1 & Hsearch & Hcode).
  rewrite replace_after_search with (1 := Hsearch).
  rewrite Hcode. exists f1. reflexivity.
Qed.

End TooFew.

(** ** The further properties on the scenarios *)

(** "a-b-a-b", first match found, [originalSize] -1. *)
Lemma replace_negative_size_throws_witness :
  exists f1,
    search 0 1 (initial a_b_a_b) = Return (true, 0) f1
    /\ negb true && U_SUCCESS (m_error_code f1) = false
    /\ - 2 ^ 31 <= -1 < 0
    /\ replace 1 a_b_a_b (utf16 "X") 1 (utf16 "a-b-a-b") (-1) 0 1
       = Abort length_error
               (Frame (m_re f1) (m_error_code f1) [] 0
                      (trace f1 ++ [resize_call (-1 + 2 ^ 64)])).
Proof.
  eexists. split; [vm_compute; reflexivity|].
  split; [reflexivity|]. split; [lia|].
  apply replace_negative_size_throws with (found := true) (e := 0).
  - vm_compute. reflexivity.
  - reflexivity.
  - lia.
Defined.

(** A warning left in the code: the head of "a-b-a-b" is not copied. *)
Lemma appendHead_copies_only_on_zero_error_witness :
  exists f',
    appendHead 3 (Frame a_b_a_b U_STRING_NOT_TERMINATED_WARNING
                        (resized [] 7) 0 [])
    = Return tt f'
    /\ (3 = 0 \/ m_error_code f' <> U_ZERO_ERROR)
    /\ m_replace_buffer f' = resized [] 7
    /\ m_replace_buffer_pos f' = 0.
Proof.
  eexists. split; [vm_compute; reflexivity|].
  split; [right; vm_compute; discriminate|].
  match goal with
  | |- m_replace_buffer ?g = _ /\ _ =>
      destruct (@appendHead_copies_only_on_zero_error
                  _ _ 3
                  (Frame a_b_a_b U_STRING_NOT_TERMINATED_WARNING
                         (resized [] 7) 0 []) g)
        as (Hb & Hp & _)
  end.
  - vm_compute. reflexivity.
  - right. vm_compute. discriminate.
  - split; [exact Hb | exact Hp].
Defined.

(** The first three units of "a-b-a-b" into a buffer of two. *)
Lemma appendHead_copies_head_witness :
  0 < 3 <= INT_MAX
  /\ 3 <= size (utf16 "a-b-a-b")
  /\ exists f',
       appendHead 3 (Frame a_b_a_b U_ZERO_ERROR (resized [] 2) 0 [])
       = Return tt f'
       /\ m_replace_buffer f' = utf16 "a-b"
       /\ m_replace_buffer_pos f' = 3
       /\ size (m_replace_buffer f') = Z.max 2 3.
Proof.
  split; [vm_compute; split; [reflexivity | discriminate]|].
  split; [vm_compute; discriminate|].
  destruct (@appendHead_copies_head
              _ _ 3 (Frame a_b_a_b U_ZERO_ERROR (resized [] 2) 0 [])
              (utf16 "a-b-a-b") a_b_a_b)
    as (f' & Hrun & _ & _ & Hp & Hhead & Hrest & Hsize).
  - vm_compute. split; [reflexivity | discriminate].
  - reflexivity.
  - vm_compute. discriminate.
  - exists f'. split; [exact Hrun|]. split.
    + rewrite <- (firstn_skipn 3 (m_replace_buffer f')).
      change (Z.to_nat 3) with 3%nat in Hhead, Hrest.
      rewrite Hhead, Hrest. reflexivity.
    + split; [exact Hp | exact Hsize].
Defined.


(** "ab" written, no room left: the overflow resize keeps it. *)
Lemma append_keeps_what_was_written_witness :
  exists f',
    appendReplacement (utf16 "X") 1
      (Frame (snd (fst (SpanMatcher.find a_b_a_b 0 U_ZERO_ERROR)))
             U_ZERO_ERROR (utf16 "ab") 2 [])
    = Return tt f'
    /\ 2 <= m_replace_buffer_pos f'
    /\ firstn (Z.to_nat 2) (m_replace_buffer f') = utf16 "ab".
Proof.
  eexists. split; [vm_compute; reflexivity|].
  split; [vm_compute; discriminate|].
  apply (@append_keeps_what_was_written
           _ _ (utf16 "X") 1
           (Frame (snd (fst (SpanMatcher.find a_b_a_b 0 U_ZERO_ERROR)))
                  U_ZERO_ERROR (utf16 "ab") 2 [])).
  - vm_compute. split; discriminate.
  - left. vm_compute. reflexivity.
  - vm_compute. discriminate.
Defined.

(** Selector 0 on "a-b-a-b": length 7, the cursor at the end. *)
Lemma fresh_length_is_the_cursor_witness :
  exists f,
    replace 2 a_b_a_b (utf16 "X") 1 (utf16 "a-b-a-b") 7 0 0
    = Return (Fresh (utf16 "X-b-X-b") 56 56, 7) f
    /\ 7 = m_replace_buffer_pos f
    /\ 0 <= 7 <= INT_MAX
    /\ size (utf16 "X-b-X-b") = 7.
Proof.
  eexists. split; [vm_compute; reflexivity|].
  apply (@fresh_length_is_the_cursor
           _ _ 2%nat a_b_a_b (utf16 "X") 1 (utf16 "a-b-a-b") 7 0 0
           (utf16 "X-b-X-b") 56 56 7).
  vm_compute. reflexivity.
Defined.

(** Selector 2 on "a-b-a-b" from a first capacity of 2. *)
Lemma replace_nth_from_any_capacity_witness :
  exists f,
    replace 1 a_b_a_b (utf16 "XY") 2 (utf16 "a-b-a-b") 2 0 2
    = Return (Fresh (utf16 "a-b-XY-b") 64 64, 8) f.
Proof.
  apply (@replace_nth_from_any_capacity
           (utf16 "a-b-a-b") [(0, 1); (4, 5)] (utf16 "XY") 0%nat
           (utf16 "a-b-a-b") 2 0 [(0, 1)] 4 5 []).
  - lia.
  - vm_compute. split; discriminate.
  - left. lia.
  - reflexivity.
  - vm_compute. repeat split; discriminate.
  - vm_compute. discriminate.
Defined.

(** Selector 0 on "a-b-a-b" from a first capacity of 1. *)
Lemma replace_all_from_any_capacity_witness :
  exists f,
    replace 2 a_b_a_b (utf16 "XY") 2 (utf16 "a-b-a-b") 1 0 0
    = Return (Fresh (utf16 "XY-b-XY-b") 72 72, 9) f.
Proof.
  apply (@replace_all_from_any_capacity
           (utf16 "a-b-a-b") [(0, 1); (4, 5)] (utf16 "XY") 2%nat
           (utf16 "a-b-a-b") 1 0 0 1 [(4, 5)]).
  - lia.
  - vm_compute. split; discriminate.
  - left. lia.
  - reflexivity.
  - vm_compute. repeat split; discriminate.
  - vm_compute. discriminate.
  - simpl. lia.
Defined.

(** Selector 2 on "a-b-a-b" with "XY": 7 - 1 + 2 units. *)
Lemma replace_nth_length_witness :
  exists returnStr allocated copied f,
    replace 1 a_b_a_b (utf16 "XY") 2 (utf16 "a-b-a-b") 7 0 2
    = Return (Fresh returnStr allocated copied, 7 - (5 - 4) + 2) f
    /\ size returnStr = 7 - (5 - 4) + 2.
Proof.
  apply (@replace_nth_length
           (utf16 "a-b-a-b") [(0, 1); (4, 5)] (utf16 "XY") 0%nat
           (utf16 "a-b-a-b") 7 0 [(0, 1)] 4 5 []).
  - lia.
  - vm_compute. split; discriminate.
  - left. lia.
  - reflexivity.
  - vm_compute. repeat split; discriminate.
  - vm_compute. discriminate.
Defined.

(** The second "a" of "a-b-a-b" replaced by "a". *)
Lemma replace_nth_by_itself_is_the_text_witness :
  exists f,
    replace 1 a_b_a_b (utf16 "a") 1 (utf16 "a-b-a-b") 7 0 2
    = Return (Fresh (utf16 "a-b-a-b") 56 56, 7) f.
Proof.
  apply (@replace_nth_by_itself_is_the_text
           (utf16 "a-b-a-b") [(0, 1); (4, 5)] 0%nat
           (utf16 "a-b-a-b") 7 0 [(0, 1)] 4 5 []).
  - lia.
  - vm_compute. split; discriminate.
  - left. lia.
  - reflexivity.
  - vm_compute. repeat split; discriminate.
  - vm_compute. discriminate.
Defined.

(** From offset 2, "a-b-a-b" has one "a" left. *)
Lemma replace_all_of_one_match_is_replace_first_witness :
  exists returnStr allocated copied returnSize f0 f1,
    replace 1 a_b_a_b (utf16 "X") 1 (utf16 "a-b-a-b") 7 2 0
    = Return (Fresh returnStr allocated copied, returnSize) f0
    /\ replace 1 a_b_a_b (utf16 "X") 1 (utf16 "a-b-a-b") 7 2 1
       = Return (Fresh returnStr allocated copied, returnSize) f1.
Proof.
  apply (@replace_all_of_one_match_is_replace_first
           (utf16 "a-b-a-b") [(0, 1); (4, 5)] (utf16 "X") 0%nat
           (utf16 "a-b-a-b") 7 2 4 5).
  - lia.
  - vm_compute. split; discriminate.
  - left. lia.
  - reflexivity.
  - vm_compute. repeat split; discriminate.
  - vm_compute. discriminate.
Defined.

(** Selector 0 on "a-b-a-b" with "XY": 7 - 2 + 2 * 2 units. *)
Lemma replace_all_length_witness :
  exists returnStr allocated copied f,
    replace 2 a_b_a_b (utf16 "XY") 2 (utf16 "a-b-a-b") 7 0 0
    = Return (Fresh returnStr allocated copied,
              7 - matched_units [(0, 1); (4, 5)] + 2 * 2) f
    /\ size returnStr = 7 - matched_units [(0, 1); (4, 5)] + 2 * 2.
Proof.
  apply (@replace_all_length
           (utf16 "a-b-a-b") [(0, 1); (4, 5)] (utf16 "XY") 2%nat
           (utf16 "a-b-a-b") 7 0 0 1 [(4, 5)]).
  - lia.
  - vm_compute. split; discriminate.
  - left. lia.
  - reflexivity.
  - vm_compute. repeat split; discriminate.
  - vm_compute. discriminate.
  - simpl. lia.
Defined.

(** "a-b-a-b" has no third "a". *)
Lemma replace_with_too_few_matches_returns_original_witness :
  exists f,
    replace 1 a_b_a_b (utf16 "X") 1 (utf16 "a-b-a-b") 7 0 3
    = Return (Unchanged (utf16 "a-b-a-b"), 7) f.
Proof.
  apply (@replace_with_too_few_matches_returns_original
           (utf16 "a-b-a-b") [(0, 1); (4, 5)] 1%nat (utf16 "X") 1
           (utf16 "a-b-a-b") 7 0 3 [(0, 1); (4, 5)]).
  - vm_compute. split; discriminate.
  - reflexivity.
  - vm_compute. reflexivity.
Defined.
